(** * each.py: run a command once per input token

    A shallow embedding of [src/each.py] and the properties of its
    tokenizer, command builder, argument validation and orchestrator.

    Python [str] values are sequences of Unicode code points; they are
    modelled as lists of code points ([N]).  Integers are [Z].  The standard
    library functions the script calls are modelled first: the string methods
    in [PyStr], [re.split] on an alternation of literals in [Re],
    [shlex.quote] in [Shlex].  The script itself is in [Each]; the properties
    follow. *)

From Stdlib Require Import ZArith NArith List Bool Lia Ascii String.
From stdpp Require Import base list gmap.

Local Open Scope N_scope.
Local Open Scope nat_scope.
Local Open Scope list_scope.

(** ** Python strings *)

Module PyStr.

Definition char : Type := N.
Definition str : Type := list char.

(** Code points of a Rocq string literal, for writing examples. *)
Definition py (s : string) : str :=
  List.map N_of_ascii (list_ascii_of_string s).

Definition LF : char := 10%N.
Definition CR : char := 13%N.
Definition NUL : char := 0%N.
Definition SQUOTE : char := 39%N.
Definition DQUOTE : char := 34%N.
Definition EQUALS : char := 61%N.

(** [not s] on a string or a list: true exactly when it is empty. *)
Definition is_empty {A : Type} (s : list A) : bool :=
  match s with [] => true | _ :: _ => false end.

(** [t.startswith(p)]. *)
Fixpoint startswith (p t : str) : bool :=
  match p, t with
  | [], _ => true
  | _ :: _, [] => false
  | a :: p', b :: t' => N.eqb a b && startswith p' t'
  end.

(** [p in t]: the substring test. The empty string occurs in every string. *)
Fixpoint contains (p t : str) : bool :=
  startswith p t ||
  match t with
  | [] => false
  | _ :: t' => contains p t'
  end.

(** [sep.join(parts)]. *)
Fixpoint join (sep : str) (parts : list str) : str :=
  match parts with
  | [] => []
  | [x] => x
  | x :: rest => x ++ sep ++ join sep rest
  end.

(** [Py_UNICODE_ISSPACE]: the characters [str.strip()] removes. *)
Definition is_space (c : char) : bool :=
  ((9 <=? c) && (c <=? 13) || (28 <=? c) && (c <=? 32) ||
   (c =? 133) || (c =? 160) || (c =? 5760) ||
   (8192 <=? c) && (c <=? 8202) || (c =? 8232) || (c =? 8233) ||
   (c =? 8239) || (c =? 8287) || (c =? 12288))%N.

(** [Py_UNICODE_ISLINEBREAK]: the line boundaries of [str.splitlines()]. *)
Definition is_linebreak (c : char) : bool :=
  ((10 <=? c) && (c <=? 13) || (28 <=? c) && (c <=? 30) ||
   (c =? 133) || (c =? 8232) || (c =? 8233))%N.

Fixpoint lstrip (s : str) : str :=
  match s with
  | [] => []
  | c :: s' => if is_space c then lstrip s' else s
  end.

Definition rstrip (s : str) : str := rev (lstrip (rev s)).

(** [s.strip()] with no argument. *)
Definition strip (s : str) : str := rstrip (lstrip s).

(** [t.split(sep)] for a separator of one character, as the script calls it
    with ["\x00"]: the pieces between the occurrences of [sep]; a text without
    [sep] (the empty text too) gives one piece. *)
Fixpoint split_char_go (sep : char) (cur : str) (t : str) : list str :=
  match t with
  | [] => [cur]
  | c :: t' =>
      if N.eqb c sep then cur :: split_char_go sep [] t'
      else split_char_go sep (cur ++ [c]) t'
  end.

Definition split_char (sep : char) (t : str) : list str :=
  split_char_go sep [] t.

(** [t.splitlines()] (keepends false).  The scan is at the start of a line
    ([fresh = true]) or inside one; a line break ends the current line, and
    ["\r\n"] counts as one break.  A line is emitted at the end of the text
    only when it has been entered, so a final line break adds no empty line. *)
Fixpoint splitlines_go (fresh : bool) (cur : str) (t : str) : list str :=
  match t with
  | [] => if fresh then [] else [cur]
  | c :: t' =>
      if is_linebreak c then
        cur :: match t' with
               | c' :: t'' =>
                   if N.eqb c CR && N.eqb c' LF
                   then splitlines_go true [] t''
                   else splitlines_go true [] t'
               | [] => splitlines_go true [] t'
               end
      else splitlines_go false (cur ++ [c]) t'
  end.

Definition splitlines (t : str) : list str := splitlines_go true [] t.

(** [t.replace(old, new)]: every non-overlapping occurrence of [old], found
    scanning from the left, is replaced by [new]; the inserted text is not
    scanned again.  [skip] counts the characters of an occurrence that are
    still to be passed over.  For the empty [old], Python inserts [new] before
    every character and at the end. *)
Fixpoint replace_go (old new : str) (skip : nat) (t : str) : str :=
  match skip, t with
  | S k, _ :: t' => replace_go old new k t'
  | S _, [] => []
  | 0, [] => []
  | 0, c :: t' =>
      if startswith old t then new ++ replace_go old new (length old - 1) t'
      else c :: replace_go old new 0 t'
  end.

Fixpoint intersperse_before (new : str) (t : str) : str :=
  match t with
  | [] => new
  | c :: t' => new ++ c :: intersperse_before new t'
  end.

Definition replace (t old new : str) : str :=
  match old with
  | [] => intersperse_before new t
  | _ :: _ => replace_go old new 0 t
  end.

End PyStr.
Export PyStr.

(** ** The [re] module on an alternation of literals *)

Module Re.

(** A compiled pattern [d1|d2|...|dn] whose alternatives are escaped
    literals: the ordered list of the literals. *)
Definition pattern : Type := list str.

(** The match of the pattern anchored at the head of [t]: alternatives are
    tried in order and the first that matches wins.  With [must_advance] the
    empty match is refused, as the engine does at the position where the
    previous match was empty. *)
Fixpoint match_at (alts : pattern) (must_advance : bool) (t : str)
  : option str :=
  match alts with
  | [] => None
  | d :: alts' =>
      if startswith d t && negb (must_advance && is_empty d) then Some d
      else match_at alts' must_advance t
  end.

(** [pattern.search] from the head of [t]: the leftmost position with a
    match; [must_advance] only constrains the first position tried.  The
    result is (text before the match, the matched literal, text after it). *)
Fixpoint search (alts : pattern) (must_advance : bool) (t : str)
  : option (str * str * str) :=
  match match_at alts must_advance t with
  | Some d => Some ([], d, drop (length d) t)
  | None =>
      match t with
      | [] => None
      | c :: t' =>
          match search alts false t' with
          | Some (before, d, after) => Some (c :: before, d, after)
          | None => None
          end
      end
  end.

(** The loop of [pattern.split]: search from the end of the previous match,
    emit the text in between, continue after the match; the text after the
    last match is emitted even when empty.  Each segment carries the literal
    that ended it.  Every iteration consumes a character or turns
    [must_advance] on, so [2 * length t + 2] iterations are enough. *)
Fixpoint split_loop (fuel : nat) (alts : pattern) (must_advance : bool)
  (t : str) : list (str * option str) :=
  match fuel with
  | 0 => [(t, None)]
  | S fuel' =>
      match search alts must_advance t with
      | None => [(t, None)]
      | Some (before, d, after) =>
          (before, Some d) :: split_loop fuel' alts (is_empty d) after
      end
  end.

Definition split_trace (alts : pattern) (t : str) : list (str * option str) :=
  split_loop (2 * length t + 2) alts false t.

(** [pattern.split(t)]. *)
Definition split (alts : pattern) (t : str) : list str :=
  (split_trace alts t).*1.

End Re.

(** ** [shlex.quote] *)

Module Shlex.

(** Characters that need no quoting: [[A-Za-z0-9_@%+=:,./-]]. *)
Definition is_safe (c : char) : bool :=
  ((48 <=? c) && (c <=? 57) || (65 <=? c) && (c <=? 90) ||
   (97 <=? c) && (c <=? 122) || (c =? 95) || (c =? 64) || (c =? 37) ||
   (c =? 43) || (c =? 61) || (c =? 58) || (c =? 44) || (c =? 46) ||
   (c =? 47) || (c =? 45))%N.

(** [shlex.quote(s)]: [''] for the empty string; [s] itself when every
    character is safe; otherwise [s] in single quotes, each embedded single
    quote written ['"'"']. *)
Definition quote (s : str) : str :=
  if is_empty s then [SQUOTE; SQUOTE]
  else if forallb is_safe s then s
  else [SQUOTE] ++
       replace s [SQUOTE] [SQUOTE; DQUOTE; SQUOTE; DQUOTE; SQUOTE] ++
       [SQUOTE].

End Shlex.

(** ** The script *)

Module Each.

Import Re Shlex.

Definition EXIT_OK : Z := 0.
Definition EXIT_USAGE : Z := 64.
Definition EXIT_NO_PLACEHOLDER : Z := 65.
Definition EXIT_BAD_ENV : Z := 66.
Definition EXIT_NEEDS_NO_STDIN_FOR_PAR : Z := 67.
Definition EXIT_CHILD_FAILED : Z := 70.

(** [a or b] on integers: [a] when it is non-zero, [b] otherwise. *)
Definition py_or (a b : Z) : Z := if Z.eqb a 0 then b else a.

(** *** Tokenizer *)

(** [compile_delimiters_regex]: the union of the escaped literals, in the
    order given.  Joining no literal gives the empty pattern, which is the
    alternation with the single empty alternative. *)
Definition compile_delimiters_regex (delimiters : list str) : Re.pattern :=
  match delimiters with
  | [] => [[]]
  | _ :: _ => delimiters
  end.

(** The raw split of [tokenize_input]: NUL mode first, then configured
    delimiters ([elif delimiters:] holds for a non-empty list), else
    [splitlines]. *)
Definition split_parts (text : str) (delimiters : option (list str))
  (use_null : bool) : list str :=
  if use_null then split_char NUL text
  else match delimiters with
       | Some (d :: ds) => Re.split (compile_delimiters_regex (d :: ds)) text
       | Some [] | None => splitlines text
       end.

(** The loop over the parts: strip when asked, skip an empty token unless
    [keep_empty], append otherwise. *)
Fixpoint collect_tokens (keep_empty strip_ws : bool) (parts : list str)
  : list str :=
  match parts with
  | [] => []
  | part :: rest =>
      let token := if strip_ws then strip part else part in
      if is_empty token && negb keep_empty
      then collect_tokens keep_empty strip_ws rest
      else token :: collect_tokens keep_empty strip_ws rest
  end.

Definition tokenize_input (text : str) (delimiters : option (list str))
  (use_null keep_empty strip_ws : bool) : list str :=
  collect_tokens keep_empty strip_ws (split_parts text delimiters use_null).

(** *** Environment *)

(** [item.split("=", 1)] on an item that contains ["="]. *)
Fixpoint split_once (sep : char) (item : str) : str * str :=
  match item with
  | [] => ([], [])
  | c :: rest =>
      if N.eqb c sep then ([], rest)
      else let '(k, v) := split_once sep rest in (c :: k, v)
  end.

Inductive ValueError : Type := InvalidEnvItem (item : str).

(** The loop of [apply_environment] that fills [extra]; later items override
    earlier ones, the first malformed item raises. *)
Fixpoint env_extra (extra : gmap str str) (env_kv : list str)
  : ValueError + gmap str str :=
  match env_kv with
  | [] => inr extra
  | item :: rest =>
      if negb (contains [EQUALS] item) || startswith [EQUALS] item
      then inl (InvalidEnvItem item)
      else let '(key, val) := split_once EQUALS item in
           env_extra (<[key := val]> extra) rest
  end.

(** [apply_environment]: [os.environ] overridden by the extra entries. *)
Definition apply_environment (environ : gmap str str) (env_kv : list str)
  : ValueError + gmap str str :=
  match env_extra ∅ env_kv with
  | inl e => inl e
  | inr extra => inr (extra ∪ environ)
  end.

(** *** Command builder *)

Definition build_command (template placeholder argument : str) (quote : bool)
  : str :=
  let arg := if quote then Shlex.quote argument else argument in
  replace template placeholder arg.

(** *** Parsed arguments *)

(** The [argparse.Namespace] that [parser.parse_args] returns. *)
Record Namespace : Type := {
  args_command : str;
  args_placeholder : str;
  args_delimiter : option (list str);
  args_null : bool;
  args_strip : bool;
  args_keep_empty : bool;
  args_encoding : str;
  args_errors : str;
  args_max_procs : Z;
  args_no_stdin : bool;
  args_dry_run : bool;
  args_trace : bool;
  args_no_quote : bool;
  args_env : list str;
  args_shell : option str
}.

(** What the script itself writes to standard error, one message per call
    of [eprint].  The error messages of [parse_args] are one line each (the
    offending text is written with [repr]); a trace message is ["+ "] and
    the command as it is, which takes several lines when the command holds
    a line break. *)
Inductive message : Type :=
| MsgNoPlaceholder (placeholder : str)
| MsgBadEnv (e : ValueError)
| MsgNeedsNoStdin
| MsgTrace (command_str : str).

(** How a call of [main] ends: it returns a status, [parse_args] raises
    [SystemExit], or another exception leaves it (decoding standard input,
    writing to standard output or starting a child raised). *)
Inductive outcome : Type :=
| Return (rc : Z)
| SystemExit (code : Z)
| Raised.

Section Orchestrator.

(** Everything outside the script that child processes can see or change. *)
Context {World : Type}.

(** [subprocess.run(command_str, shell=True, executable=shell_path, stdin=...,
    env=env)]: the return code of the child, or [None] when the call raises
    (there is no such shell, the command holds a NUL character, ...), and
    the world it leaves. *)
Variable subprocess_run :
  World -> str -> option str -> bool -> option (gmap str str)
  -> option Z * World.

(** [bytes.decode(encoding, errors)]; [None] when it raises. *)
Variable decode : str -> str -> list N -> option str.

(** Whether the encoder of [sys.stdout] accepts a text; [sys.stdout.write]
    raises [UnicodeEncodeError] on a text it does not accept. *)
Variable encodable : str -> bool.

(** [os.environ]. *)
Variable environ : gmap str str.

(** The observable state.  [stdout] is the text the script itself has
    written to [sys.stdout] and [stderr] the messages it has written to
    [sys.stderr]; what the children write there is part of the world.
    [built], [spawned] and [reported] are histories: the results of the
    [build_command] calls, the commands handed to [subprocess.run], and the
    return codes [main] received from [run_command], each in order of
    occurrence.  Failures of the streams themselves (a closed pipe, a full
    disk) are not modelled. *)
Record state : Type := {
  world : World;
  stdin_data : list N;
  stdin_read : bool;
  stdout : str;
  stderr : list message;
  built : list str;
  spawned : list str;
  reported : list Z
}.

Definition eprint (m : message) (st : state) : state :=
  {| world := world st; stdin_data := stdin_data st;
     stdin_read := stdin_read st; stdout := stdout st;
     stderr := stderr st ++ [m]; built := built st;
     spawned := spawned st; reported := reported st |}.

(** [sys.stdout.write(text)] of a text the encoder accepts. *)
Definition write_stdout (text : str) (st : state) : state :=
  {| world := world st; stdin_data := stdin_data st;
     stdin_read := stdin_read st; stdout := stdout st ++ text;
     stderr := stderr st; built := built st;
     spawned := spawned st; reported := reported st |}.

(** [print(line)]: the text, then a newline.  [None]: the encoder rejects
    the text and the call raises, having written nothing. *)
Definition print (line : str) (st : state) : option state :=
  if encodable line then Some (write_stdout (line ++ [LF]) st) else None.

Definition note_built (command_str : str) (st : state) : state :=
  {| world := world st; stdin_data := stdin_data st;
     stdin_read := stdin_read st; stdout := stdout st;
     stderr := stderr st; built := built st ++ [command_str];
     spawned := spawned st; reported := reported st |}.

Definition note_spawned (command_str : str) (st : state) : state :=
  {| world := world st; stdin_data := stdin_data st;
     stdin_read := stdin_read st; stdout := stdout st;
     stderr := stderr st; built := built st;
     spawned := spawned st ++ [command_str]; reported := reported st |}.

Definition note_reported (rc : Z) (st : state) : state :=
  {| world := world st; stdin_data := stdin_data st;
     stdin_read := stdin_read st; stdout := stdout st;
     stderr := stderr st; built := built st;
     spawned := spawned st; reported := reported st ++ [rc] |}.

Definition set_world (w : World) (st : state) : state :=
  {| world := w; stdin_data := stdin_data st;
     stdin_read := stdin_read st; stdout := stdout st;
     stderr := stderr st; built := built st;
     spawned := spawned st; reported := reported st |}.

(** [decode_stdin]: read all of standard input, then decode. *)
Definition decode_stdin (encoding errors : str) (st : state)
  : option str * state :=
  (decode encoding errors (stdin_data st),
   {| world := world st; stdin_data := []; stdin_read := true;
      stdout := stdout st; stderr := stderr st; built := built st;
      spawned := spawned st; reported := reported st |}).

(** The first statement of [run_command]: the trace message. *)
Definition trace_command (command_str : str) (trace : bool) (st : state)
  : state :=
  if trace then eprint (MsgTrace command_str) st else st.

(** [run_command]: the trace message, then [subprocess.run].  [None]:
    [subprocess.run] raised and so does [run_command]. *)
Definition run_command (command_str : str) (shell_path : option str)
  (pass_stdin trace : bool) (env : option (gmap str str)) (st : state)
  : option Z * state :=
  let st1 := note_spawned command_str (trace_command command_str trace st) in
  let '(completed, w) := subprocess_run (world st1) command_str shell_path
                           pass_stdin env in
  (completed, set_world w st1).

(** The validation at the end of [parse_args], on the namespace argparse
    produced: placeholder presence, then the environment items, then the
    guard on parallel mode.  [inl code] is [raise SystemExit(code)]. *)
Definition parse_args (args : Namespace) (st : state)
  : (Z + Namespace) * state :=
  if negb (contains (args_placeholder args) (args_command args)) then
    (inl EXIT_NO_PLACEHOLDER, eprint (MsgNoPlaceholder (args_placeholder args)) st)
  else
    match apply_environment environ (args_env args) with
    | inl exc => (inl EXIT_BAD_ENV, eprint (MsgBadEnv exc) st)
    | inr _ =>
        if (1 <? args_max_procs args)%Z && negb (args_no_stdin args) then
          (inl EXIT_NEEDS_NO_STDIN_FOR_PAR, eprint MsgNeedsNoStdin st)
        else (inr args, st)
    end.

(** The dry-run loop; a [print] that raises ends it. *)
Fixpoint dry_run_loop (template placeholder : str) (quote : bool)
  (tokens : list str) (st : state) : outcome * state :=
  match tokens with
  | [] => (Return EXIT_OK, st)
  | tok :: rest =>
      let cmd_str := build_command template placeholder tok quote in
      match print cmd_str (note_built cmd_str st) with
      | Some st' => dry_run_loop template placeholder quote rest st'
      | None => (Raised, note_built cmd_str st)
      end
  end.

(** The sequential execution path: the loop returns at the first non-zero
    return code; a [run_command] that raises ends it. *)
Fixpoint sequential_loop (args : Namespace) (env : option (gmap str str))
  (tokens : list str) (st : state) : outcome * state :=
  match tokens with
  | [] => (Return EXIT_OK, st)
  | tok :: rest =>
      let cmd_str := build_command (args_command args) (args_placeholder args)
                       tok (negb (args_no_quote args)) in
      match run_command cmd_str (args_shell args)
              (negb (args_no_stdin args)) (args_trace args) env
              (note_built cmd_str st) with
      | (Some rc, st1) =>
          if negb (Z.eqb rc 0)
          then (Return (py_or rc EXIT_CHILD_FAILED), note_reported rc st1)
          else sequential_loop args env rest (note_reported rc st1)
      | (None, st1) => (Raised, st1)
      end
  end.

(** *** The parallel execution path

    The workers of the pool run concurrently with each other and with the
    main thread, so the path is a transition system driven by a schedule of
    events; the order of the events in the schedule is the order in which
    they happen.

    - [Submit] is one iteration of the submit loop of [main].
    - [Start i] is a worker taking future [i] from the work queue, which
      hands the futures out in submission order; at most [max_workers]
      futures are with a worker at a time.
    - [Trace i], [Spawn i] and [Finish i result w] are the steps of
      [run_command] in that worker: the trace message, the call of
      [subprocess.run], and its end with a return code or an exception
      ([result]), leaving the world [w].  Standard input is not forwarded.
      The steps of different workers interleave freely, and the results are
      chosen by the schedule: any behaviour of the children is a schedule.
    - [Collect order] is the call of [as_completed] once everything is
      submitted, and [Deliver] is one iteration of the loop over it
      ([fut.result()]).  [as_completed] first yields the futures that have
      finished when it is called, which it holds in a set; [order] is the
      order in which that set is iterated.  The futures that finish later
      are yielded in the order in which they finish. *)

Inductive future_state : Type :=
| Pending
| Started
| Traced
| Running
| Finished (result : option Z).

Inductive event : Type :=
| Submit
| Start (i : nat)
| Trace (i : nat)
| Spawn (i : nat)
| Finish (i : nat) (result : option Z) (w : World)
| Collect (order : list nat)
| Deliver.

(** [pool_completed] lists the futures in the order in which they finished;
    [pool_order] is set by the call of [as_completed]; [pool_results] are
    the results the loop over [as_completed] has received so far. *)
Record pool : Type := {
  pool_todo : list str;
  pool_futures : list (str * future_state);
  pool_completed : list nat;
  pool_order : option (list nat);
  pool_results : list (option Z);
  pool_state : state
}.

Definition is_pending (f : str * future_state) : bool :=
  match f.2 with Pending => true | _ => false end.

(** The future is with a worker. *)
Definition is_active (f : str * future_state) : bool :=
  match f.2 with Started | Traced | Running => true | _ => false end.

Definition is_finished (f : str * future_state) : bool :=
  match f.2 with Finished _ => true | _ => false end.

Definition active_count (futures : list (str * future_state)) : nat :=
  length (List.filter is_active futures).

(** The result of the future at index [i], when it has finished. *)
Definition future_result (futures : list (str * future_state)) (i : nat)
  : option (option Z) :=
  match futures !! i with
  | Some (_, Finished result) => Some result
  | _ => None
  end.

(** The futures in the order [as_completed] yields them, given the
    iteration order of the set of those finished at the call and the order
    of completion of all of them. *)
Definition as_completed (order completed : list nat) : list nat :=
  order ++ drop (length order) completed.

(** [fut.result()] raised. *)
Definition is_raised (result : option Z) : bool :=
  match result with None => true | Some _ => false end.

Definition set_future (i : nat) (cmd_str : str) (fs : future_state)
  (st : state) (p : pool) : pool :=
  {| pool_todo := pool_todo p;
     pool_futures := <[i := (cmd_str, fs)]> (pool_futures p);
     pool_completed := pool_completed p;
     pool_order := pool_order p;
     pool_results := pool_results p;
     pool_state := st |}.

(** One event.  [None]: the event is not enabled. *)
Definition pool_step (args : Namespace) (ev : event) (p : pool)
  : option pool :=
  match ev with
  | Submit =>
      match pool_todo p with
      | [] => None
      | tok :: rest =>
          let cmd_str := build_command (args_command args)
                           (args_placeholder args) tok
                           (negb (args_no_quote args)) in
          Some {| pool_todo := rest;
                  pool_futures := pool_futures p ++ [(cmd_str, Pending)];
                  pool_completed := pool_completed p;
                  pool_order := pool_order p;
                  pool_results := pool_results p;
                  pool_state := note_built cmd_str (pool_state p) |}
      end
  | Start i =>
      match pool_futures p !! i with
      | Some (cmd_str, Pending) =>
          if negb (existsb is_pending (take i (pool_futures p)))
             && (Z.of_nat (active_count (pool_futures p))
                 <? args_max_procs args)%Z
          then Some (set_future i cmd_str Started (pool_state p) p)
          else None
      | _ => None
      end
  | Trace i =>
      match pool_futures p !! i with
      | Some (cmd_str, Started) =>
          Some (set_future i cmd_str Traced
                  (trace_command cmd_str (args_trace args) (pool_state p)) p)
      | _ => None
      end
  | Spawn i =>
      match pool_futures p !! i with
      | Some (cmd_str, Traced) =>
          Some (set_future i cmd_str Running
                  (note_spawned cmd_str (pool_state p)) p)
      | _ => None
      end
  | Finish i result w =>
      match pool_futures p !! i with
      | Some (cmd_str, Running) =>
          Some {| pool_todo := pool_todo p;
                  pool_futures :=
                    <[i := (cmd_str, Finished result)]> (pool_futures p);
                  pool_completed := pool_completed p ++ [i];
                  pool_order := pool_order p;
                  pool_results := pool_results p;
                  pool_state := set_world w (pool_state p) |}
      | _ => None
      end
  | Collect order =>
      match pool_todo p, pool_order p with
      | [], None =>
          if bool_decide (order ≡ₚ pool_completed p)
          then Some {| pool_todo := [];
                       pool_futures := pool_futures p;
                       pool_completed := pool_completed p;
                       pool_order := Some order;
                       pool_results := pool_results p;
                       pool_state := pool_state p |}
          else None
      | _, _ => None
      end
  | Deliver =>
      match pool_order p with
      | Some order =>
          if existsb is_raised (pool_results p) then None
          else
            match as_completed order (pool_completed p)
                  !! length (pool_results p) with
            | Some i =>
                match future_result (pool_futures p) i with
                | Some result =>
                    Some {| pool_todo := pool_todo p;
                            pool_futures := pool_futures p;
                            pool_completed := pool_completed p;
                            pool_order := pool_order p;
                            pool_results := pool_results p ++ [result];
                            pool_state :=
                              match result with
                              | Some rc => note_reported rc (pool_state p)
                              | None => pool_state p
                              end |}
                | None => None
                end
            | None => None
            end
      | None => None
      end
  end.

Fixpoint pool_run (args : Namespace) (sched : list event) (p : pool)
  : option pool :=
  match sched with
  | [] => Some p
  | ev :: sched' =>
      match pool_step args ev p with
      | Some p' => pool_run args sched' p'
      | None => None
      end
  end.

(** The point at which [main] leaves the [with] block: every token is
    submitted, the loop over [as_completed] has received every result or
    has been left by an exception, and every future has finished (leaving
    the block waits for the workers). *)
Definition pool_done (p : pool) : bool :=
  is_empty (pool_todo p) && forallb is_finished (pool_futures p)
  && match pool_order p with
     | Some _ =>
         existsb is_raised (pool_results p)
         || Nat.eqb (length (pool_results p)) (length (pool_futures p))
     | None => false
     end.

(** The loop over the results: [fut.result()] raises the exception of a
    call that raised; otherwise keep the first non-zero return code. *)
Fixpoint collect_return_code (results : list (option Z)) (return_code : Z)
  : outcome :=
  match results with
  | [] => Return return_code
  | Some rc :: rest =>
      collect_return_code rest
        (if negb (Z.eqb rc 0) && Z.eqb return_code EXIT_OK
         then py_or rc EXIT_CHILD_FAILED else return_code)
  | None :: _ => Raised
  end.

(** The parallel path under a schedule; [None] when the schedule is not a
    complete execution of the pool. *)
Definition parallel_path (args : Namespace) (tokens : list str)
  (sched : list event) (st : state) : option (outcome * state) :=
  match pool_run args sched
          {| pool_todo := tokens; pool_futures := [];
             pool_completed := []; pool_order := None;
             pool_results := []; pool_state := st |} with
  | Some p =>
      if pool_done p
      then Some (collect_return_code (pool_results p) EXIT_OK, pool_state p)
      else None
  | None => None
  end.

(** *** [main]

    [sched] drives the pool in the parallel path and is not used otherwise.
    The script ends with [raise SystemExit(main())]: the value returned here
    is the status the process exits with. *)

Definition main (args0 : Namespace) (sched : list event) (st : state)
  : option (outcome * state) :=
  match parse_args args0 st with
  | (inl code, st1) => Some (SystemExit code, st1)
  | (inr args, st1) =>
      match (if is_empty (args_env args) then inr None
             else match apply_environment environ (args_env args) with
                  | inl e => inl e
                  | inr m => inr (Some m)
                  end) with
      | inl _ => Some (Raised, st1)
      | inr env =>
          match decode_stdin (args_encoding args) (args_errors args) st1 with
          | (None, st2) => Some (Raised, st2)
          | (Some text, st2) =>
              let tokens := tokenize_input text (args_delimiter args)
                              (args_null args) (args_keep_empty args)
                              (args_strip args) in
              if is_empty tokens then Some (Return EXIT_OK, st2)
              else if args_dry_run args then
                Some (dry_run_loop (args_command args) (args_placeholder args)
                        (negb (args_no_quote args)) tokens st2)
              else if (args_max_procs args <=? 1)%Z then
                Some (sequential_loop args env tokens st2)
              else parallel_path args tokens sched st2
          end
      end
  end.

End Orchestrator.

End Each.

(** * Notions used in the statements *)

Import Re Shlex Each.

(** The command [main] builds for a token. *)
Definition command_for (args : Namespace) (tok : str) : str :=
  build_command (args_command args) (args_placeholder args) tok
    (negb (args_no_quote args)).

(** The first non-zero return code of a list, zero when there is none. *)
Definition first_nonzero (codes : list Z) : Z :=
  match List.find (fun c => negb (Z.eqb c 0)) codes with
  | Some c => c
  | None => 0%Z
  end.

(** The call of [subprocess.run] for the future has begun. *)
Definition is_spawned (f : str * future_state) : bool :=
  match f.2 with Running | Finished _ => true | _ => false end.

(** The worker of the future is past the trace message. *)
Definition is_traced (f : str * future_state) : bool :=
  match f.2 with Traced | Running | Finished _ => true | _ => false end.

(** The return codes among results: a call that raised has none. *)
Definition return_codes (results : list (option Z)) : list Z :=
  omap id results.

(** The results of the children of a schedule in the order in which they
    finished, and the return codes among them. *)
Definition completion_results {World : Type} (sched : list (@event World))
  : list (option Z) :=
  omap (fun ev => match ev with
                  | Finish _ result _ => Some result
                  | _ => None
                  end) sched.

Definition completion_codes {World : Type} (sched : list (@event World))
  : list Z :=
  return_codes (completion_results sched).

(** The results of the finished futures of a pool in the order in which they
    finished. *)
Definition completed_results {World : Type} (p : @pool World)
  : list (option Z) :=
  omap (future_result (pool_futures p)) (pool_completed p).

(** The trace messages of a list of commands. *)
Definition trace_messages (trace : bool) (commands : list str) : list message :=
  if trace then MsgTrace <$> commands else [].

(** The text [print] writes for a list of commands: each followed by a
    newline. *)
Definition printed (commands : list str) : str :=
  concat ((fun command_str => command_str ++ [LF]) <$> commands).

(** [subprocess.run] for children that are all started: no call raises. *)
Definition launched {World : Type}
  (run : World -> str -> option str -> bool -> option (gmap str str)
         -> Z * World)
  : World -> str -> option str -> bool -> option (gmap str str)
    -> option Z * World :=
  fun w command_str shell_path pass_stdin env =>
    let '(rc, w') := run w command_str shell_path pass_stdin env in
    (Some rc, w').

(** The schedule that runs the children one after the other, child [i]
    ending with the return code [codes !! i] and leaving the world [w];
    every child has finished when [as_completed] is called, which yields
    them in submission order. *)
Definition run_child {World : Type} (w : World) (i : nat) (rc : Z)
  : list (@event World) :=
  [Start i; Trace i; Spawn i; Finish i (Some rc) w].

Definition one_by_one {World : Type} (w : World) (codes : list Z)
  : list (@event World) :=
  replicate (length codes) Submit
  ++ concat (imap (run_child w) codes)
  ++ Collect (seq 0 (length codes))
  :: replicate (length codes) Deliver.

(** The number of events a pool can still take: six per token not yet
    submitted (its submission, the four steps of its worker and the delivery
    of its result), the remaining steps of the worker of each future, the
    call of [as_completed], and one delivery per future. *)
Definition future_cost (f : str * future_state) : nat :=
  match f.2 with
  | Pending => 4
  | Started => 3
  | Traced => 2
  | Running => 1
  | Finished _ => 0
  end.

Definition pool_budget {World : Type} (p : @pool World) : nat :=
  6 * length (pool_todo p) + list_sum (future_cost <$> pool_futures p)
  + match pool_order p with Some _ => 0 | None => 1 end
  + (length (pool_futures p) - length (pool_results p)).

Section PoolInvariantDef.

Context {World : Type}.
Variables (args : Namespace) (tokens : list str) (st0 : @state World).

(** What holds of the pool along every schedule, relative to the state
    [st0] in which the parallel path was entered. *)
Record pool_inv (p : @pool World) : Prop := {
  inv_submitted :
    (pool_futures p).*1 ++ (command_for args <$> pool_todo p)
    = command_for args <$> tokens;
  inv_built : built (pool_state p) = built st0 ++ (pool_futures p).*1;
  inv_spawned :
    ∃ ran, spawned (pool_state p) = spawned st0 ++ ran ∧
           ran ≡ₚ (List.filter is_spawned (pool_futures p)).*1;
  inv_traced :
    ∃ ran, stderr (pool_state p)
           = stderr st0 ++ trace_messages (args_trace args) ran ∧
           ran ≡ₚ (List.filter is_traced (pool_futures p)).*1;
  inv_frame :
    stdin_read (pool_state p) = stdin_read st0 ∧
    stdin_data (pool_state p) = stdin_data st0 ∧
    stdout (pool_state p) = stdout st0;
  inv_completed :
    ∀ j, j ∈ pool_completed p →
         ∃ cmd result, pool_futures p !! j = Some (cmd, Finished result);
  inv_count :
    length (pool_completed p)
    = length (List.filter is_finished (pool_futures p));
  inv_order :
    match pool_order p with
    | Some order =>
        pool_todo p = [] ∧
        order ≡ₚ take (length order) (pool_completed p) ∧
        length order ≤ length (pool_completed p) ∧
        length (pool_results p) ≤ length (pool_completed p) ∧
        pool_results p
        = omap (future_result (pool_futures p))
            (take (length (pool_results p))
               (as_completed order (pool_completed p)))
    | None => pool_results p = []
    end;
  inv_reported :
    reported (pool_state p) = reported st0 ++ return_codes (pool_results p)
}.

End PoolInvariantDef.

(** ** Notions for the tokenizer and the command builder *)

(** Line endings normalized to ["\n"]: every ["\r\n"] and every remaining
    ["\r"] becomes ["\n"]. *)
Fixpoint normalize_newlines (t : str) : str :=
  match t with
  | [] => []
  | c :: t' =>
      if N.eqb c CR then
        LF :: match t' with
              | c' :: t'' =>
                  if N.eqb c' LF then normalize_newlines t''
                  else normalize_newlines t'
              | [] => []
              end
      else c :: normalize_newlines t'
  end.

(** [replaced_all old new t r]: [r] is [t] with every occurrence of [old]
    replaced by [new].  For a non-empty [old] the occurrences are taken from
    the left: up to the first occurrence the text is kept, the occurrence
    becomes [new], and the replacement goes on in the text after it, so that
    the inserted [new] is never searched.  The empty [old] occurs before
    every character and at the end. *)
Inductive replaced_all (old new : str) : str → str → Prop :=
| replaced_none (t : str) :
    old ≠ [] → (∀ a b, t ≠ a ++ old ++ b) → replaced_all old new t t
| replaced_first (pre rest r : str) :
    old ≠ [] →
    (∀ a b, pre ++ old ++ rest = a ++ old ++ b → length pre ≤ length a) →
    replaced_all old new rest r →
    replaced_all old new (pre ++ old ++ rest) (pre ++ new ++ r)
| replaced_empty_end :
    old = [] → replaced_all old new [] new
| replaced_empty_char (c : char) (t r : str) :
    old = [] → replaced_all old new t r →
    replaced_all old new (c :: t) (new ++ c :: r).

(** [admissible d must_advance t]: the literal [d] can be matched at the
    head of [t]; the empty match is excluded under [must_advance]. *)
Definition admissible (d : str) (must_advance : bool) (t : str) : Prop :=
  startswith d t = true ∧ ¬ (must_advance = true ∧ d = []).

(** Two rules for choosing among the literals that can be matched at one
    position: the first in the order of the pattern, or the longest. *)
Definition first_listed (alts : Re.pattern) (must_advance : bool)
  (t d : str) : Prop :=
  ∃ l1 l2, alts = l1 ++ d :: l2 ∧ admissible d must_advance t ∧
           Forall (fun d' => ¬ admissible d' must_advance t) l1.

Definition longest_listed (alts : Re.pattern) (must_advance : bool)
  (t d : str) : Prop :=
  d ∈ alts ∧ admissible d must_advance t ∧
  ∀ d', d' ∈ alts → admissible d' must_advance t → length d' ≤ length d.

(** [split_by choice alts must_advance t segs]: [segs] cuts [t] at
    successive matches of the pattern, each match being at the leftmost
    position where some literal can be matched, and consuming there the
    literal picked by [choice].  [must_advance] holds at the first position
    after an empty match. *)
Inductive split_by (choice : Re.pattern → bool → str → str → Prop)
  (alts : Re.pattern) : bool → str → list (str * option str) → Prop :=
| split_by_last (adv : bool) (t : str) :
    (∀ k d, k ≤ length t → d ∈ alts →
            ¬ admissible d (adv && Nat.eqb k 0) (drop k t)) →
    split_by choice alts adv t [(t, None)]
| split_by_match (adv : bool) (pre d rest : str)
    (segs : list (str * option str)) :
    (∀ k d', k < length pre → d' ∈ alts →
             ¬ admissible d' (adv && Nat.eqb k 0) (drop k (pre ++ d ++ rest))) →
    choice alts (adv && is_empty pre) (d ++ rest) d →
    split_by choice alts (is_empty d) rest segs →
    split_by choice alts adv (pre ++ d ++ rest) ((pre, Some d) :: segs).

(** The iterations [split_loop] needs on [t]: one per character consumed and
    one per empty match. *)
Definition iterations_needed (must_advance : bool) (t : str) : nat :=
  2 * length t + (if must_advance then 0 else 1).

(** [c] alone is one of the delimiters. *)
Definition delim_char (alts : Re.pattern) (c : char) : bool :=
  bool_decide ([c] ∈ alts).

(** The post-processing of one piece when empty tokens are kept. *)
Definition post_process (strip_ws : bool) (part : str) : str :=
  if strip_ws then strip part else part.
(** * Concrete configurations used as instances *)

(** A decoder for the examples: every byte is one code point. *)
Definition latin1 (encoding errors : str) (data : list N) : option str :=
  Some data.

(** Standard output as UTF-8 with the [strict] error handler: the encoder
    accepts every text without surrogate code points. *)
Definition is_surrogate (c : char) : bool :=
  (55296 <=? c)%N && (c <=? 57343)%N.

Definition utf8_strict (text : str) : bool :=
  negb (existsb is_surrogate text).

(** Children for the examples.  The world counts the children run so far;
    the second child exits 2, every other child exits 0. *)
Definition second_exits_2 (w : nat) (command_str : str)
  (shell : option str) (pass_stdin : bool) (env : option (gmap str str))
  : Z * nat :=
  ((if Nat.eqb w 1 then 2 else 0)%Z, S w).

Definition second_fails
  : nat -> str -> option str -> bool -> option (gmap str str)
    -> option Z * nat :=
  launched second_exits_2.

(** A system without the shell asked for by [--shell]: [subprocess.run]
    raises when one is given, and the child exits 0 otherwise. *)
Definition no_such_shell (w : nat) (command_str : str) (shell : option str)
  (pass_stdin : bool) (env : option (gmap str str)) : option Z * nat :=
  match shell with
  | Some _ => (None, w)
  | None => (Some 0%Z, S w)
  end.

Definition initial_state (data : list N) : @state nat :=
  {| world := 0; stdin_data := data; stdin_read := false; stdout := [];
     stderr := []; built := []; spawned := []; reported := [] |}.

(** [each 'echo {}'] with further options set by the arguments. *)
Definition echo_args (placeholder : string) (max_procs : Z) (no_stdin : bool)
  : Namespace :=
  {| args_command := py "echo {}"; args_placeholder := py placeholder;
     args_delimiter := None; args_null := false; args_strip := false;
     args_keep_empty := false; args_encoding := py "utf-8";
     args_errors := py "strict"; args_max_procs := max_procs;
     args_no_stdin := no_stdin; args_dry_run := false; args_trace := false;
     args_no_quote := false; args_env := []; args_shell := None |}.

(** Standard input ["a\nb\nc\n"]. *)
Definition abc_lines : list N := py "a" ++ [LF] ++ py "b" ++ [LF] ++ py "c" ++ [LF].

(** [each -P max_procs --no-stdin 'exit {}']: each child exits with the
    code its token names. *)
Definition exit_args (max_procs : Z) : Namespace :=
  {| args_command := py "exit {}"; args_placeholder := py "{}";
     args_delimiter := None; args_null := false; args_strip := false;
     args_keep_empty := false; args_encoding := py "utf-8";
     args_errors := py "strict"; args_max_procs := max_procs;
     args_no_stdin := true; args_dry_run := false; args_trace := false;
     args_no_quote := false; args_env := []; args_shell := None |}.

(** The shell on commands [exit N] with a digit [N]: the child exits [N].
    The world counts the children run so far. *)
Definition shell_exit (w : nat) (command_str : str) (shell : option str)
  (pass_stdin : bool) (env : option (gmap str str)) : option Z * nat :=
  (Some (match last command_str with
         | Some c => Z.of_N c - 48
         | None => 0
         end)%Z, S w).

(** Standard input ["1\n3\n2\n"]. *)
Definition exit_lines : list N :=
  py "1" ++ [LF] ++ py "3" ++ [LF] ++ py "2" ++ [LF].

(** A schedule for these three tokens on three workers.  The children end
    in submission order, with the codes 1, 3, 2, all of them before
    [as_completed] is called; the set of finished futures is iterated in
    the order second, first, third. *)
Definition early_schedule : list (@event nat) :=
  [Submit; Start 0; Submit; Trace 0; Start 1; Submit; Start 2;
   Spawn 0; Trace 1; Spawn 1; Trace 2; Spawn 2;
   Finish 0 (Some 1%Z) 1; Finish 1 (Some 3%Z) 2; Finish 2 (Some 2%Z) 3;
   Collect [1; 0; 2]; Deliver; Deliver; Deliver].

(** The state that schedule leaves. *)
Definition early_final : @state nat :=
  {| world := 3; stdin_data := []; stdin_read := true; stdout := [];
     stderr := [];
     built := [py "exit 1"; py "exit 3"; py "exit 2"];
     spawned := [py "exit 1"; py "exit 3"; py "exit 2"];
     reported := [3; 1; 2]%Z |}.

(** The same children when [as_completed] is called while the second and
    the third are still running: the first has finished and is yielded
    first, then the other two as they finish, the third before the
    second. *)
Definition late_schedule : list (@event nat) :=
  [Submit; Start 0; Submit; Trace 0; Start 1; Submit; Start 2;
   Spawn 0; Trace 1; Spawn 1; Trace 2; Spawn 2;
   Finish 0 (Some 1%Z) 1; Collect [0]; Deliver;
   Finish 2 (Some 2%Z) 2; Finish 1 (Some 3%Z) 3; Deliver; Deliver].

Definition late_final : @state nat :=
  {| world := 3; stdin_data := []; stdin_read := true; stdout := [];
     stderr := [];
     built := [py "exit 1"; py "exit 3"; py "exit 2"];
     spawned := [py "exit 1"; py "exit 3"; py "exit 2"];
     reported := [1; 2; 3]%Z |}.

(** The state the sequential run on ["a\nb\nc\n"] leaves when the second
    child exits 2. *)
Definition abc_sequential_final : @state nat :=
  {| world := 2; stdin_data := []; stdin_read := true; stdout := [];
     stderr := [];
     built := [py "echo a"; py "echo b"];
     spawned := [py "echo a"; py "echo b"];
     reported := [0; 2]%Z |}.


(** * Further notions *)

(** ** Environment items *)

(** [item] is [KEY=VALUE] with a non-empty key; the key ends at the first
    ["="], the value may contain more. *)
Definition key_value (item k v : str) : Prop :=
  item = k ++ EQUALS :: v ∧ k ≠ [] ∧ EQUALS ∉ k.

Definition has_key_value (item : str) : Prop := ∃ k v, key_value item k v.

(** The two halves of [item.split("=", 1)]. *)
Definition env_key (item : str) : str := (split_once EQUALS item).1.
Definition env_value (item : str) : str := (split_once EQUALS item).2.

(** ** More configurations *)

(** [args] with the dry-run and trace flags and the [--env] items replaced. *)
Definition with_flags (args : Namespace) (dry_run trace : bool)
  (env : list str) : Namespace :=
  {| args_command := args_command args;
     args_placeholder := args_placeholder args;
     args_delimiter := args_delimiter args; args_null := args_null args;
     args_strip := args_strip args; args_keep_empty := args_keep_empty args;
     args_encoding := args_encoding args; args_errors := args_errors args;
     args_max_procs := args_max_procs args;
     args_no_stdin := args_no_stdin args; args_dry_run := dry_run;
     args_trace := trace; args_no_quote := args_no_quote args;
     args_env := env; args_shell := args_shell args |}.

(** [args] with [--shell] given. *)
Definition with_shell (args : Namespace) (shell : string) : Namespace :=
  {| args_command := args_command args;
     args_placeholder := args_placeholder args;
     args_delimiter := args_delimiter args; args_null := args_null args;
     args_strip := args_strip args; args_keep_empty := args_keep_empty args;
     args_encoding := args_encoding args; args_errors := args_errors args;
     args_max_procs := args_max_procs args;
     args_no_stdin := args_no_stdin args; args_dry_run := args_dry_run args;
     args_trace := args_trace args; args_no_quote := args_no_quote args;
     args_env := args_env args; args_shell := Some (py shell) |}.

(** [args] with the [-0] flag set. *)
Definition with_null (args : Namespace) : Namespace :=
  {| args_command := args_command args;
     args_placeholder := args_placeholder args;
     args_delimiter := args_delimiter args; args_null := true;
     args_strip := args_strip args; args_keep_empty := args_keep_empty args;
     args_encoding := args_encoding args; args_errors := args_errors args;
     args_max_procs := args_max_procs args;
     args_no_stdin := args_no_stdin args; args_dry_run := args_dry_run args;
     args_trace := args_trace args; args_no_quote := args_no_quote args;
     args_env := args_env args; args_shell := args_shell args |}.

(** The ASCII decoder with the [surrogateescape] error handler: a byte
    above 127 becomes the surrogate code point U+DC00 + byte. *)
Definition ascii_surrogateescape (encoding errors : str) (data : list N)
  : option str :=
  Some ((fun b => if (b <? 128)%N then b else (56320 + b)%N) <$> data).

(** A decoder that accepts nothing. *)
Definition undecodable (encoding errors : str) (data : list N) : option str :=
  None.

(** The state [each --dry-run 'echo {}'] leaves on ["a\nb\nc\n"]. *)
Definition abc_dry_run_final : @state nat :=
  {| world := 0; stdin_data := []; stdin_read := true;
     stdout := py "echo a" ++ [LF] ++ py "echo b" ++ [LF] ++ py "echo c"
               ++ [LF];
     stderr := [];
     built := [py "echo a"; py "echo b"; py "echo c"];
     spawned := []; reported := [] |}.

(** The state [each -t 'echo {}'] leaves on ["a\nb\nc\n"] when the second
    child exits 2. *)
Definition abc_traced_final : @state nat :=
  {| world := 2; stdin_data := []; stdin_read := true; stdout := [];
     stderr := [MsgTrace (py "echo a"); MsgTrace (py "echo b")];
     built := [py "echo a"; py "echo b"];
     spawned := [py "echo a"; py "echo b"];
     reported := [0; 2]%Z |}.

(** Three tokens on three workers with tracing: the workers write their
    trace messages in the order a, b, c and call [subprocess.run] in the
    order c, a, b. *)
Definition abc_traced_schedule : list (@event nat) :=
  [Submit; Submit; Submit; Start 0; Start 1; Start 2;
   Trace 0; Trace 1; Trace 2; Spawn 2; Spawn 0; Spawn 1;
   Finish 0 (Some 0%Z) 1; Finish 1 (Some 0%Z) 2; Finish 2 (Some 0%Z) 3;
   Collect [0; 1; 2]; Deliver; Deliver; Deliver].

Definition abc_traced_parallel_final : @state nat :=
  {| world := 3; stdin_data := []; stdin_read := true; stdout := [];
     stderr := [MsgTrace (py "echo a"); MsgTrace (py "echo b");
                MsgTrace (py "echo c")];
     built := [py "echo a"; py "echo b"; py "echo c"];
     spawned := [py "echo c"; py "echo a"; py "echo b"];
     reported := [0; 0; 0]%Z |}.

(** The state [each --shell /bin/nosuch 'echo {}'] leaves on
    ["a\nb\nc\n"] where there is no such shell. *)
Definition abc_no_shell_final : @state nat :=
  {| world := 0; stdin_data := []; stdin_read := true; stdout := [];
     stderr := [];
     built := [py "echo a"]; spawned := [py "echo a"]; reported := [] |}.

(** The initial state with standard input read to the end. *)
Definition consumed_state : @state nat :=
  {| world := 0; stdin_data := []; stdin_read := true; stdout := [];
     stderr := []; built := []; spawned := []; reported := [] |}.

(** ** Tokens *)


Definition starts_with_space (t : str) : bool :=
  match t with
  | c :: _ => is_space c
  | [] => false
  end.

Definition ends_with_space (t : str) : bool := starts_with_space (rev t).

(** No delimiter is the beginning of another. *)
Definition prefix_free (alts : Re.pattern) : Prop :=
  ∀ d1 d2, d1 ∈ alts → d2 ∈ alts → startswith d1 d2 = true → d1 = d2.

(** The pieces of a split with the consumed delimiters put back between
    them: the first piece, the first delimiter, the second piece, and so on;
    it ends with a piece. *)
Fixpoint weave (pieces seps : list str) : str :=
  match pieces, seps with
  | piece :: pieces', sep :: seps' => piece ++ sep ++ weave pieces' seps'
  | piece :: _, [] => piece
  | [], _ => []
  end.

(** ** Quoting *)

(** How a character of the token is written between single quotes: a single
    quote closes the quotes, stands between double quotes, and opens the
    quotes again. *)
Definition escape_quote (c : char) : str :=
  if N.eqb c SQUOTE then [SQUOTE; DQUOTE; SQUOTE; DQUOTE; SQUOTE] else [c].
(** * The sequential path *)

Section OrchestratorFacts.

Context {World : Type}.
Variable subprocess_run :
  World -> str -> option str -> bool -> option (gmap str str)
  -> option Z * World.

Local Abbreviation state := (@state World).
Local Abbreviation sequential_loop := (sequential_loop subprocess_run).

Lemma py_or_nonzero (rc sentinel : Z) : rc ≠ 0%Z → py_or rc sentinel = rc.
Proof.
  intros Hrc. unfold py_or. destruct (Z.eqb_spec rc 0); [contradiction | reflexivity].
Qed.

Lemma trace_messages_app (trace : bool) (l1 l2 : list str) :
  trace_messages trace (l1 ++ l2) = trace_messages trace l1 ++ trace_messages trace l2.
Proof. unfold trace_messages. destruct trace; [apply fmap_app | reflexivity]. Qed.

Lemma trace_command_fields (cmd : str) (trace : bool) (st : state) :
  stderr (trace_command cmd trace st) = stderr st ++ trace_messages trace [cmd] ∧
  world (trace_command cmd trace st) = world st ∧
  built (trace_command cmd trace st) = built st ∧
  spawned (trace_command cmd trace st) = spawned st ∧
  reported (trace_command cmd trace st) = reported st ∧
  stdin_read (trace_command cmd trace st) = stdin_read st ∧
  stdin_data (trace_command cmd trace st) = stdin_data st ∧
  stdout (trace_command cmd trace st) = stdout st.
Proof.
  unfold trace_command, trace_messages.
  destruct trace; simpl; rewrite ?app_nil_r; auto 10.
Qed.

(** What the sequential loop does: it runs the commands of a prefix of the
    tokens, in order; all of them but possibly the last return zero, and the
    loop ends at the first command that returns non-zero or cannot be
    started. *)
Lemma sequential_loop_spec (args : Namespace) (env : option (gmap str str))
  (tokens : list str) (st : state) :
  ∃ (n : nat) (codes : list Z),
    let r := sequential_loop args env tokens st in
    let ran := command_for args <$> take n tokens in
    n ≤ length tokens ∧
    built r.2 = built st ++ ran ∧
    spawned r.2 = spawned st ++ ran ∧
    stderr r.2 = stderr st ++ trace_messages (args_trace args) ran ∧
    reported r.2 = reported st ++ codes ∧
    stdin_read r.2 = stdin_read st ∧ stdin_data r.2 = stdin_data st ∧
    stdout r.2 = stdout st ∧
    ((r.1 = Return 0%Z ∧ n = length tokens ∧ length codes = n ∧
      Forall (eq 0%Z) codes) ∨
     (∃ rc zeros, r.1 = Return rc ∧ rc ≠ 0%Z ∧ codes = zeros ++ [rc] ∧
                  length codes = n ∧ Forall (eq 0%Z) zeros) ∨
     (r.1 = Raised ∧ S (length codes) = n ∧ Forall (eq 0%Z) codes ∧
      ∃ tok w, tokens !! length codes = Some tok ∧
               (subprocess_run w (command_for args tok) (args_shell args)
                  (negb (args_no_stdin args)) env).1 = None)).
Proof.
  revert st. induction tokens as [|tok rest IH]; intros st.
  - exists 0, []. simpl. unfold trace_messages.
    destruct (args_trace args); simpl; rewrite !app_nil_r; auto 15.
  - cbn [Each.sequential_loop]. unfold run_command.
    fold (command_for args tok).
    set (cmd := command_for args tok).
    set (st1 := note_spawned cmd (trace_command cmd _ (note_built cmd st))).
    destruct (trace_command_fields cmd (args_trace args) (note_built cmd st))
      as (He & _ & Hb & Hs & Hr & Hi & Hd & Ho).
    destruct (subprocess_run (world st1) cmd _ _ _) as [[rc|] w] eqn:Hrun.
    + destruct (Z.eqb_spec rc 0) as [->|Hrc]; cbn [negb].
      * destruct (IH (note_reported 0%Z (set_world w st1)))
          as (n & codes & Hn & Hb' & Hs' & He' & Hr' & Hi' & Hd' & Ho' & Hfin).
        exists (S n), (0%Z :: codes). cbv zeta in *.
        cbn [take fmap list_fmap length]. fold (command_for args tok).
        fold cmd. rewrite Hb', Hs', He', Hr', Hi', Hd', Ho'.
        cbn [built spawned stderr reported stdin_read stdin_data stdout
             note_reported set_world st1 note_spawned].
        rewrite Hb, Hs, He, Hr, Hi, Hd, Ho. cbn [built note_built spawned
          stderr reported stdin_read stdin_data stdout].
        change (cmd :: (command_for args <$> take n rest))
          with ([cmd] ++ (command_for args <$> take n rest)).
        rewrite trace_messages_app, <- !app_assoc.
        repeat (split; [first [lia | reflexivity]|]).
        destruct Hfin as [(H0 & Hn' & Hl & Hall)|
                          [(rc & zeros & Hout & Hrc & Hc & Hl & Hz)|
                           (Hout & Hl & Hall & tok' & w' & Htok & Hw)]].
        -- left. repeat split; auto; try (simpl; lia).
        -- right; left. exists rc, (0%Z :: zeros). subst codes.
           repeat split; auto; try (simpl in *; lia).
        -- right; right. repeat split; auto; try (simpl; lia).
           exists tok', w'. split; [exact Htok | exact Hw].
      * exists 1, [rc]. cbv zeta. cbn [take fmap list_fmap fst snd length].
        rewrite take_0. cbn [fmap list_fmap]. fold (command_for args tok).
        fold cmd.
        cbn [built spawned stderr reported stdin_read stdin_data stdout
             note_reported set_world st1 note_spawned].
        rewrite Hb, Hs, He, Hr, Hi, Hd, Ho. cbn [built note_built spawned
          stderr reported stdin_read stdin_data stdout].
        rewrite py_or_nonzero by assumption.
        repeat (split; [first [lia | reflexivity]|]).
        right; left. exists rc, []. repeat split; auto.
    + exists 1, []. cbv zeta. cbn [take fmap list_fmap fst snd length].
      rewrite take_0. cbn [fmap list_fmap]. fold (command_for args tok).
      fold cmd.
      cbn [built spawned stderr reported stdin_read stdin_data stdout
           note_reported set_world st1 note_spawned].
      rewrite Hb, Hs, He, Hr, Hi, Hd, Ho. cbn [built note_built spawned
        stderr reported stdin_read stdin_data stdout].
      rewrite app_nil_r.
      repeat (split; [first [lia | reflexivity]|]).
      right; right. repeat split; auto.
      exists tok, (world st1). split; [reflexivity|].
      fold cmd. now rewrite Hrun.
Qed.

End OrchestratorFacts.
(** * The worker pool *)

Section PoolFacts.

Context {World : Type}.
Implicit Types (p : @pool World) (st : @state World).

Lemma first_nonzero_zero_iff (codes : list Z) :
  first_nonzero codes = 0%Z ↔ Forall (eq 0%Z) codes.
Proof.
  unfold first_nonzero. induction codes as [|c rest IH]; simpl.
  - split; auto.
  - destruct (Z.eqb_spec c 0) as [->|Hc]; simpl.
    + rewrite IH. split; [auto | now inversion 1].
    + split; [contradiction | inversion 1; congruence].
Qed.

Lemma first_nonzero_elem (codes : list Z) :
  first_nonzero codes = 0%Z ∨ first_nonzero codes ∈ codes.
Proof.
  unfold first_nonzero.
  destruct (List.find _ codes) as [c|] eqn:Hfind; [right | now left].
  apply find_some in Hfind as [Hin _]. now apply list_elem_of_In.
Qed.

Lemma first_nonzero_cons (c : Z) (codes : list Z) :
  first_nonzero (c :: codes) = if Z.eqb c 0 then first_nonzero codes else c.
Proof. unfold first_nonzero. simpl. now destruct (Z.eqb c 0). Qed.

(** The loop over the results when no call raised: the first non-zero
    return code. *)
Lemma collect_return_code_codes (codes : list Z) (acc : Z) :
  collect_return_code (Some <$> codes) acc
  = Return (if Z.eqb acc 0 then first_nonzero codes else acc).
Proof.
  revert acc. induction codes as [|rc rest IH]; intros acc.
  - simpl. unfold first_nonzero. simpl.
    destruct (Z.eqb_spec acc 0); congruence.
  - cbn [fmap list_fmap collect_return_code]. rewrite IH.
    rewrite first_nonzero_cons. unfold EXIT_OK.
    destruct (Z.eqb_spec rc 0) as [->|Hrc]; cbn [negb andb]; [reflexivity|].
    destruct (Z.eqb_spec acc 0) as [->|Hacc].
    + rewrite py_or_nonzero by assumption.
      destruct (Z.eqb_spec rc 0); [contradiction | reflexivity].
    + destruct (Z.eqb_spec acc 0); [contradiction | reflexivity].
Qed.

(** It raises exactly when one of the results is an exception. *)
Lemma collect_return_code_raised (results : list (option Z)) (acc : Z) :
  existsb is_raised results = true →
  collect_return_code results acc = Raised.
Proof.
  revert acc. induction results as [|[rc|] rest IH]; intros acc; simpl;
    [discriminate | auto | reflexivity].
Qed.

Lemma no_raise_codes (results : list (option Z)) :
  existsb is_raised results = false → results = Some <$> return_codes results.
Proof.
  unfold return_codes.
  induction results as [|[rc|] rest IH]; intros H;
    [reflexivity | | discriminate].
  csimpl. f_equal. now apply IH.
Qed.

Lemma existsb_raised_elem (results : list (option Z)) :
  existsb is_raised results = true ↔ None ∈ results.
Proof.
  induction results as [|[rc|] rest IH]; simpl.
  - split; [discriminate | inversion 1].
  - rewrite IH, elem_of_cons. split; [auto | now intros [[=]|H]].
  - split; [left | reflexivity].
Qed.

Lemma return_codes_app (l1 l2 : list (option Z)) :
  return_codes (l1 ++ l2) = return_codes l1 ++ return_codes l2.
Proof. apply omap_app. Qed.

#[global] Instance return_codes_Permutation :
  Proper ((≡ₚ) ==> (≡ₚ)) return_codes.
Proof. intros l1 l2 Hperm. unfold return_codes. now rewrite Hperm. Qed.

Lemma return_codes_some (codes : list Z) :
  return_codes (Some <$> codes) = codes.
Proof.
  unfold return_codes. induction codes as [|c rest IH]; [reflexivity|].
  csimpl. now rewrite IH.
Qed.

(** Replacing the future at [i] changes the lists derived from the futures
    only at that one element. *)
Lemma insert_split {A : Type} (l : list A) (i : nat) (x y : A) :
  l !! i = Some x →
  l = take i l ++ x :: drop (S i) l ∧
  <[i := y]> l = take i l ++ y :: drop (S i) l.
Proof.
  intros Hi. split.
  - symmetry. now apply take_drop_middle.
  - apply insert_take_drop. now apply lookup_lt_Some in Hi.
Qed.

Lemma insert_commands (futures : list (str * future_state)) (i : nat)
  (cmd : str) (s s' : future_state) :
  futures !! i = Some (cmd, s) →
  (<[i := (cmd, s')]> futures).*1 = futures.*1.
Proof.
  intros Hi. destruct (insert_split _ i _ (cmd, s') Hi) as [Hl ->].
  rewrite Hl at 3. now rewrite !fmap_app.
Qed.

Lemma filter_insert_keep (f : str * future_state → bool)
  (futures : list (str * future_state)) (i : nat) (cmd : str)
  (s s' : future_state) :
  futures !! i = Some (cmd, s) → f (cmd, s) = f (cmd, s') →
  (List.filter f (<[i := (cmd, s')]> futures)).*1 = (List.filter f futures).*1
  ∧ length (List.filter f (<[i := (cmd, s')]> futures))
    = length (List.filter f futures).
Proof.
  intros Hi Hf. destruct (insert_split _ i _ (cmd, s') Hi) as [Hl ->].
  remember (take i futures) as l1. remember (drop (S i) futures) as l2.
  rewrite Hl. rewrite !List.filter_app. simpl. rewrite <- Hf.
  destruct (f (cmd, s)); rewrite !fmap_app, !length_app; auto.
Qed.

Lemma filter_insert_gain (f : str * future_state → bool)
  (futures : list (str * future_state)) (i : nat) (cmd : str)
  (s s' : future_state) :
  futures !! i = Some (cmd, s) → f (cmd, s) = false → f (cmd, s') = true →
  (List.filter f (<[i := (cmd, s')]> futures)).*1
  ≡ₚ (List.filter f futures).*1 ++ [cmd]
  ∧ length (List.filter f (<[i := (cmd, s')]> futures))
    = S (length (List.filter f futures)).
Proof.
  intros Hi Hf Hf'. destruct (insert_split _ i _ (cmd, s') Hi) as [Hl ->].
  remember (take i futures) as l1. remember (drop (S i) futures) as l2.
  rewrite Hl. rewrite !List.filter_app. simpl. rewrite Hf, Hf'.
  rewrite !fmap_app, !length_app. csimpl. split; [|lia].
  rewrite <- app_assoc. apply Permutation_app_head.
  apply Permutation_cons_append.
Qed.

Lemma omap_agree {A B : Type} (f g : A → option B) (l : list A) :
  (∀ x, x ∈ l → f x = g x) → omap f l = omap g l.
Proof.
  intros Hfg. induction l as [|x l IH]; [reflexivity|].
  csimpl. rewrite (Hfg x) by now left.
  rewrite IH; [reflexivity|]. intros y Hy. apply Hfg. now right.
Qed.

(** The results of finished futures do not change when another future
    does. *)
Lemma results_unchanged (futures : list (str * future_state)) (js : list nat)
  (i : nat) (f : str * future_state) :
  (∀ j, j ∈ js → ∃ cmd result, futures !! j = Some (cmd, Finished result)) →
  (∀ cmd result, futures !! i ≠ Some (cmd, Finished result)) →
  omap (future_result (<[i := f]> futures)) js
  = omap (future_result futures) js.
Proof.
  intros Hdone Hi. apply omap_agree. intros j Hj.
  destruct (Hdone j Hj) as (cmd & rc & Hlook).
  assert (i ≠ j) by (intros ->; now apply (Hi cmd rc)).
  unfold future_result. now rewrite list_lookup_insert_ne.
Qed.

Lemma results_unchanged_app (futures : list (str * future_state))
  (js : list nat) (f : str * future_state) :
  (∀ j, j ∈ js → ∃ cmd result, futures !! j = Some (cmd, Finished result)) →
  omap (future_result (futures ++ [f])) js = omap (future_result futures) js.
Proof.
  intros Hdone. apply omap_agree. intros j Hj.
  destruct (Hdone j Hj) as (cmd & rc & Hlook).
  unfold future_result. rewrite lookup_app_l; [reflexivity|].
  now apply lookup_lt_Some in Hlook.
Qed.

Lemma results_length (futures : list (str * future_state)) (js : list nat) :
  (∀ j, j ∈ js → ∃ cmd result, futures !! j = Some (cmd, Finished result)) →
  length (omap (future_result futures) js) = length js.
Proof.
  induction js as [|j js IH]; intros Hdone; [reflexivity|]. csimpl.
  destruct (Hdone j) as (cmd & rc & Hlook); [now left|].
  unfold future_result at 1. rewrite Hlook. simpl.
  rewrite IH; [reflexivity|]. intros k Hk. apply Hdone. now right.
Qed.

Lemma as_completed_length (order completed : list nat) :
  length order ≤ length completed →
  length (as_completed order completed) = length completed.
Proof.
  intros Hle. unfold as_completed. rewrite length_app, length_drop. lia.
Qed.

Lemma as_completed_elem (order completed : list nat) (j : nat) :
  order ≡ₚ take (length order) completed →
  j ∈ as_completed order completed → j ∈ completed.
Proof.
  intros Hperm Hj. unfold as_completed in Hj.
  rewrite <- (take_drop (length order) completed).
  apply elem_of_app in Hj as [Hj|Hj]; apply elem_of_app; [left | now right].
  now rewrite <- Hperm.
Qed.

Lemma as_completed_app (order completed : list nat) (i : nat) :
  length order ≤ length completed →
  as_completed order (completed ++ [i]) = as_completed order completed ++ [i].
Proof.
  intros Hle. unfold as_completed.
  rewrite drop_app_le by assumption. now rewrite app_assoc.
Qed.

End PoolFacts.

Section PoolInvariant.

Context {World : Type}.
Variables (args : Namespace) (tokens : list str) (st0 : @state World).

Local Abbreviation finished_at futures js :=
  (∀ j, j ∈ js →
     ∃ cmd result, futures !! j = Some (cmd, Finished result)) (only parsing).

Lemma pool_inv_init :
  pool_inv args tokens st0
    {| pool_todo := tokens; pool_futures := []; pool_completed := [];
       pool_order := None; pool_results := []; pool_state := st0 |}.
Proof.
  split; simpl; auto.
  - now rewrite app_nil_r.
  - exists []. now rewrite app_nil_r.
  - exists []. unfold trace_messages.
    destruct (args_trace args); simpl; now rewrite app_nil_r.
  - intros j Hj. inversion Hj.
  - now rewrite app_nil_r.
Qed.

(** A future that has not finished is not in the list of completions. *)
Lemma insert_agree (futures : list (str * future_state)) (js : list nat)
  (i : nat) (cmd : str) (s : future_state) (f : str * future_state) :
  finished_at futures js →
  futures !! i = Some (cmd, s) → is_finished (cmd, s) = false →
  ∀ j, j ∈ js → (<[i := f]> futures) !! j = futures !! j.
Proof.
  intros Hdone Hi Hs j Hj. destruct (Hdone j Hj) as (c & r & Hlook).
  apply list_lookup_insert_ne. intros ->. rewrite Hi in Hlook.
  injection Hlook as -> ->. discriminate.
Qed.

Lemma app_agree (futures : list (str * future_state)) (js : list nat)
  (f : str * future_state) :
  finished_at futures js →
  ∀ j, j ∈ js → (futures ++ [f]) !! j = futures !! j.
Proof.
  intros Hdone j Hj. destruct (Hdone j Hj) as (c & r & Hlook).
  apply lookup_app_l. now apply lookup_lt_Some in Hlook.
Qed.

(** The part of the invariant about [as_completed] sees the futures only
    at the indices of finished ones. *)
Lemma inv_order_agree (futures futures' : list (str * future_state))
  (completed : list nat) (order : list nat) (results : list (option Z)) :
  (∀ j, j ∈ completed → futures' !! j = futures !! j) →
  order ≡ₚ take (length order) completed →
  results = omap (future_result futures)
              (take (length results) (as_completed order completed)) →
  results = omap (future_result futures')
              (take (length results) (as_completed order completed)).
Proof.
  intros Hagree Hperm Hres. rewrite Hres at 1. apply omap_agree.
  intros j Hj. unfold future_result. rewrite Hagree; [reflexivity|].
  apply (as_completed_elem order); [assumption|].
  rewrite <- (take_drop (length results) (as_completed order completed)).
  apply elem_of_app. now left.
Qed.

(** A step of a worker on a future that stays unfinished. *)
Lemma set_future_inv (p : @pool World) (i : nat) (cmd : str)
  (s s' : future_state) (st' : @state World) :
  pool_inv args tokens st0 p →
  pool_futures p !! i = Some (cmd, s) →
  is_finished (cmd, s) = false → is_finished (cmd, s') = false →
  built st' = built (pool_state p) →
  reported st' = reported (pool_state p) →
  stdin_read st' = stdin_read (pool_state p) →
  stdin_data st' = stdin_data (pool_state p) →
  stdout st' = stdout (pool_state p) →
  (∃ ran, spawned st' = spawned st0 ++ ran ∧
          ran ≡ₚ (List.filter is_spawned
                    (<[i := (cmd, s')]> (pool_futures p))).*1) →
  (∃ ran, stderr st' = stderr st0 ++ trace_messages (args_trace args) ran ∧
          ran ≡ₚ (List.filter is_traced
                    (<[i := (cmd, s')]> (pool_futures p))).*1) →
  pool_inv args tokens st0 (set_future i cmd s' st' p).
Proof.
  intros [Hsub Hbuilt _ _ (Hf1 & Hf2 & Hf3) Hdone Hcount Horder Hrep]
    Hi Hs Hs' Hb Hr Hi1 Hi2 Hi3 Hspawned Htraced.
  pose proof (insert_agree _ _ i cmd s (cmd, s') Hdone Hi Hs) as Hagree.
  split; cbn [set_future pool_todo pool_futures pool_completed pool_order
              pool_results pool_state].
  - now rewrite (insert_commands _ i cmd s s' Hi).
  - now rewrite Hb, (insert_commands _ i cmd s s' Hi).
  - assumption.
  - assumption.
  - now rewrite Hi1, Hi2, Hi3.
  - intros j Hj. destruct (Hdone j Hj) as (c & r & Hlook).
    exists c, r. now rewrite Hagree.
  - rewrite Hcount.
    now rewrite (proj2 (filter_insert_keep is_finished _ i cmd s s' Hi
                          (eq_trans Hs (eq_sym Hs')))).
  - destruct (pool_order p) as [order|]; [|assumption].
    destruct Horder as (Htodo & Hperm & Hle & Hlen & Hres).
    repeat split; try assumption.
    now apply (inv_order_agree (pool_futures p)).
  - now rewrite Hr.
Qed.

Lemma pool_step_inv (ev : @event World) (p p' : @pool World) :
  pool_inv args tokens st0 p → pool_step args ev p = Some p' →
  pool_inv args tokens st0 p'.
Proof.
  intros Hinv Hstep.
  pose proof Hinv as [Hsub Hbuilt (ran & Hran & Hperm) (tr & Htr & Htperm)
                        (Hf1 & Hf2 & Hf3) Hdone Hcount Horder Hrep].
  destruct ev as [|i|i|i|i result w|order|]; cbn [pool_step] in Hstep.
  - (* Submit *)
    destruct (pool_todo p) as [|tok rest] eqn:Htodo; [discriminate|].
    injection Hstep as <-. fold (command_for args tok).
    pose proof (app_agree _ _ (command_for args tok, Pending) Hdone)
      as Hagree.
    split; cbn [pool_todo pool_futures pool_completed pool_order
                pool_results pool_state built spawned stderr reported
                stdin_read stdin_data stdout note_built].
    + rewrite fmap_app, <- app_assoc. simpl. now rewrite <- Hsub.
    + rewrite Hbuilt, fmap_app, app_assoc. reflexivity.
    + exists ran. split; [assumption|].
      rewrite List.filter_app. simpl. now rewrite app_nil_r.
    + exists tr. split; [assumption|].
      rewrite List.filter_app. simpl. now rewrite app_nil_r.
    + auto.
    + intros j Hj. destruct (Hdone j Hj) as (c & r & Hlook).
      exists c, r. now rewrite Hagree.
    + rewrite List.filter_app. simpl. now rewrite app_nil_r.
    + destruct (pool_order p) as [order|]; [|assumption].
      destruct Horder as (Hnil & _). discriminate.
    + assumption.
  - (* Start *)
    destruct (pool_futures p !! i) as [[cmd [| | | |r]]|] eqn:Hi;
      try discriminate.
    destruct (_ && _); [|discriminate]. injection Hstep as <-.
    apply (set_future_inv p i cmd Pending Started); auto.
    + exists ran. split; [assumption|].
      now rewrite (proj1 (filter_insert_keep is_spawned _ i cmd Pending
                            Started Hi eq_refl)).
    + exists tr. split; [assumption|].
      now rewrite (proj1 (filter_insert_keep is_traced _ i cmd Pending
                            Started Hi eq_refl)).
  - (* Trace *)
    destruct (pool_futures p !! i) as [[cmd [| | | |r]]|] eqn:Hi;
      try discriminate.
    injection Hstep as <-.
    destruct (trace_command_fields cmd (args_trace args) (pool_state p))
      as (He & _ & Hb & Hs & Hr & Hi1 & Hi2 & Hi3).
    apply (set_future_inv p i cmd Started Traced); auto.
    + exists ran. split; [now rewrite Hs|].
      now rewrite (proj1 (filter_insert_keep is_spawned _ i cmd Started
                            Traced Hi eq_refl)).
    + exists (tr ++ [cmd]). split.
      * rewrite He, Htr, trace_messages_app. now rewrite app_assoc.
      * rewrite (proj1 (filter_insert_gain is_traced _ i cmd Started
                          Traced Hi eq_refl eq_refl)).
        now rewrite Htperm.
  - (* Spawn *)
    destruct (pool_futures p !! i) as [[cmd [| | | |r]]|] eqn:Hi;
      try discriminate.
    injection Hstep as <-.
    apply (set_future_inv p i cmd Traced Running); auto.
    + exists (ran ++ [cmd]). split.
      * cbn [spawned note_spawned]. rewrite Hran. now rewrite app_assoc.
      * rewrite (proj1 (filter_insert_gain is_spawned _ i cmd Traced
                          Running Hi eq_refl eq_refl)).
        now rewrite Hperm.
    + exists tr. split; [assumption|].
      now rewrite (proj1 (filter_insert_keep is_traced _ i cmd Traced
                            Running Hi eq_refl)).
  - (* Finish *)
    destruct (pool_futures p !! i) as [[cmd [| | | |r]]|] eqn:Hi;
      try discriminate.
    injection Hstep as <-.
    pose proof (insert_agree _ _ i cmd Running (cmd, Finished result)
                  Hdone Hi eq_refl) as Hagree.
    split; cbn [pool_todo pool_futures pool_completed pool_order
                pool_results pool_state built spawned stderr reported
                stdin_read stdin_data stdout set_world].
    + now rewrite (insert_commands _ i cmd Running _ Hi).
    + now rewrite (insert_commands _ i cmd Running _ Hi).
    + exists ran. split; [assumption|].
      now rewrite (proj1 (filter_insert_keep is_spawned _ i cmd Running
                            (Finished result) Hi eq_refl)).
    + exists tr. split; [assumption|].
      now rewrite (proj1 (filter_insert_keep is_traced _ i cmd Running
                            (Finished result) Hi eq_refl)).
    + auto.
    + intros j Hj. apply elem_of_app in Hj as [Hj|Hj].
      * destruct (Hdone j Hj) as (c & r & Hlook).
        exists c, r. now rewrite Hagree.
      * apply list_elem_of_singleton in Hj as ->. exists cmd, result.
        apply list_lookup_insert_eq. now apply lookup_lt_Some in Hi.
    + rewrite length_app, Hcount. simpl.
      rewrite (proj2 (filter_insert_gain is_finished _ i cmd Running
                        (Finished result) Hi eq_refl eq_refl)). lia.
    + destruct (pool_order p) as [order|]; [|assumption].
      destruct Horder as (Htodo & Hoperm & Hle & Hlen & Hres).
      split; [assumption|].
      split; [now rewrite take_app_le by assumption|].
      split; [rewrite length_app; lia|].
      split; [rewrite length_app; lia|].
      rewrite as_completed_app by assumption.
      rewrite take_app_le
        by (rewrite as_completed_length by assumption; assumption).
      now apply (inv_order_agree (pool_futures p)).
    + assumption.
  - (* Collect *)
    destruct (pool_todo p) eqn:Htodo; [|discriminate].
    destruct (pool_order p) eqn:Hord; [discriminate|].
    case_bool_decide as Hoperm; [|discriminate]. injection Hstep as <-.
    split; cbn [pool_todo pool_futures pool_completed pool_order
                pool_results pool_state]; auto.
    + eauto.
    + eauto.
    + rewrite Horder. simpl.
      pose proof (Permutation_length Hoperm) as Hlen.
      repeat split; try lia.
      now rewrite take_ge by lia.
  - (* Deliver *)
    destruct (pool_order p) as [order|] eqn:Hord; [|discriminate].
    destruct (existsb is_raised (pool_results p)); [discriminate|].
    destruct (as_completed order (pool_completed p)
              !! length (pool_results p)) as [i|] eqn:Hnext; [|discriminate].
    destruct (future_result (pool_futures p) i) as [result|] eqn:Hresult;
      [|discriminate].
    injection Hstep as <-.
    destruct Horder as (Htodo & Hoperm & Hle & Hlen & Hres).
    split; cbn [pool_todo pool_futures pool_completed pool_order
                pool_results pool_state]; auto.
    + destruct result; [exact Hbuilt | exact Hbuilt].
    + exists ran. destruct result; auto.
    + exists tr. destruct result; auto.
    + destruct result; auto.
    + split; [assumption|]. split; [assumption|].
      split; [assumption|].
      apply lookup_lt_Some in Hnext as Hlt.
      rewrite as_completed_length in Hlt by assumption.
      rewrite length_app. simpl. split; [lia|].
      replace (length (pool_results p) + 1) with (S (length (pool_results p)))
        by lia.
      rewrite (take_S_r _ _ _ Hnext), omap_app. csimpl.
      rewrite Hresult. simpl. now rewrite <- Hres.
    + rewrite return_codes_app.
      destruct result as [rc|]; cbn [reported note_reported];
        rewrite Hrep; unfold return_codes at 3; csimpl;
        now rewrite ?app_nil_r, ?app_assoc.
Qed.

Lemma pool_run_inv (sched : list (@event World)) (p p' : @pool World) :
  pool_inv args tokens st0 p → pool_run args sched p = Some p' →
  pool_inv args tokens st0 p'.
Proof.
  revert p. induction sched as [|ev sched IH]; intros p Hinv Hrun; simpl in Hrun.
  - now injection Hrun as <-.
  - destruct (pool_step args ev p) as [p1|] eqn:Hstep; [|discriminate].
    eapply IH; [|eassumption]. eapply pool_step_inv; eassumption.
Qed.

End PoolInvariant.

Section PoolRuns.

Context {World : Type}.
Variable args : Namespace.

Lemma pool_step_order (ev : @event World) (p p' : @pool World) :
  pool_step args ev p = Some p' →
  pool_order p' = pool_order p ∨
  (∃ order, ev = Collect order ∧ pool_order p = None ∧
            pool_order p' = Some order).
Proof.
  destruct ev as [|i|i|i|i result w|order|]; cbn [pool_step]; intros Hstep;
    repeat (case_match; try discriminate);
    injection Hstep as <-; eauto.
Qed.

Lemma pool_run_order (sched : list (@event World)) (p p' : @pool World)
  (order : list nat) :
  pool_run args sched p = Some p' → pool_order p = Some order →
  pool_order p' = Some order.
Proof.
  revert p. induction sched as [|ev sched IH]; intros p Hrun Hord;
    simpl in Hrun.
  - now injection Hrun as <-.
  - destruct (pool_step args ev p) as [p1|] eqn:Hstep; [|discriminate].
    apply (IH p1 Hrun).
    destruct (pool_step_order ev p p1 Hstep) as [->|(o & _ & Hnone & _)];
      [assumption | congruence].
Qed.

(** A run in which [as_completed] is called is cut in two by that call. *)
Lemma pool_run_collect (sched : list (@event World)) (p p' : @pool World)
  (order : list nat) :
  pool_run args sched p = Some p' → pool_order p = None →
  pool_order p' = Some order →
  ∃ before after p1 p2,
    sched = before ++ Collect order :: after ∧
    pool_run args before p = Some p1 ∧
    pool_step args (Collect order) p1 = Some p2 ∧
    pool_run args after p2 = Some p'.
Proof.
  revert p. induction sched as [|ev sched IH]; intros p Hrun Hnone Hord;
    simpl in Hrun.
  - injection Hrun as <-. congruence.
  - destruct (pool_step args ev p) as [p1|] eqn:Hstep; [|discriminate].
    destruct (pool_step_order ev p p1 Hstep) as [Hsame|(o & -> & _ & Ho)].
    + destruct (IH p1 Hrun) as (before & after & q1 & q2 & -> & Hb & Hc & Ha);
        [congruence | assumption|].
      exists (ev :: before), after, q1, q2. simpl. rewrite Hstep. auto.
    + rewrite (pool_run_order sched p1 p' o Hrun Ho) in Hord.
      injection Hord as ->.
      exists [], sched, p, p1. auto.
Qed.

Lemma pool_run_app (s1 s2 : list (@event World)) (p : @pool World) :
  pool_run args (s1 ++ s2) p
  = match pool_run args s1 p with
    | Some p1 => pool_run args s2 p1
    | None => None
    end.
Proof.
  revert p. induction s1 as [|ev s1 IH]; intros p; simpl; [reflexivity|].
  destruct (pool_step args ev p); [apply IH | reflexivity].
Qed.

Section Results.

Variables (tokens : list str) (st0 : @state World).

(** The results of the finished futures, in order of completion, are the
    results of the [Finish] events. *)
Lemma pool_step_results (ev : @event World) (p p' : @pool World) :
  pool_inv args tokens st0 p → pool_step args ev p = Some p' →
  completed_results p' = completed_results p ++ completion_results [ev].
Proof.
  intros Hinv Hstep. pose proof (inv_completed _ _ _ _ Hinv) as Hdone.
  unfold completed_results.
  destruct ev as [|i|i|i|i result w|order|]; cbn [pool_step] in Hstep;
    unfold completion_results; csimpl; rewrite ?app_nil_r.
  - destruct (pool_todo p); [discriminate|]. injection Hstep as <-. simpl.
    now apply results_unchanged_app.
  - destruct (pool_futures p !! i) as [[cmd [| | | |r]]|] eqn:Hi;
      try discriminate.
    destruct (_ && _); [|discriminate]. injection Hstep as <-. simpl.
    apply results_unchanged; [assumption|]. intros c r. rewrite Hi. congruence.
  - destruct (pool_futures p !! i) as [[cmd [| | | |r]]|] eqn:Hi;
      try discriminate.
    injection Hstep as <-. simpl.
    apply results_unchanged; [assumption|]. intros c r. rewrite Hi. congruence.
  - destruct (pool_futures p !! i) as [[cmd [| | | |r]]|] eqn:Hi;
      try discriminate.
    injection Hstep as <-. simpl.
    apply results_unchanged; [assumption|]. intros c r. rewrite Hi. congruence.
  - destruct (pool_futures p !! i) as [[cmd [| | | |r]]|] eqn:Hi;
      try discriminate.
    injection Hstep as <-. simpl. rewrite omap_app. csimpl.
    unfold future_result at 2.
    rewrite list_lookup_insert_eq by now apply lookup_lt_Some in Hi.
    f_equal. apply results_unchanged; [assumption|].
    intros c r. rewrite Hi. congruence.
  - repeat (case_match; try discriminate); now injection Hstep as <-.
  - repeat (case_match; try discriminate); now injection Hstep as <-.
Qed.

Lemma pool_run_results (sched : list (@event World)) (p p' : @pool World) :
  pool_inv args tokens st0 p → pool_run args sched p = Some p' →
  completed_results p' = completed_results p ++ completion_results sched.
Proof.
  revert p. induction sched as [|ev sched IH]; intros p Hinv Hrun;
    simpl in Hrun.
  - injection Hrun as <-. unfold completion_results. simpl.
    now rewrite app_nil_r.
  - destruct (pool_step args ev p) as [p1|] eqn:Hstep; [|discriminate].
    rewrite (IH p1 (pool_step_inv args tokens st0 ev p p1 Hinv Hstep) Hrun).
    rewrite (pool_step_results ev p p1 Hinv Hstep), <- app_assoc.
    f_equal. unfold completion_results.
    change (ev :: sched) with ([ev] ++ sched). now rewrite omap_app.
Qed.

End Results.

Lemma forallb_finished_all (futures : list (str * future_state)) :
  forallb is_finished futures = true →
  List.filter is_finished futures = futures ∧
  List.filter is_spawned futures = futures ∧
  List.filter is_traced futures = futures.
Proof.
  induction futures as [|[cmd [| | | |rc]] rest IH]; simpl; try discriminate.
  - auto.
  - intros H. destruct (IH H) as (-> & -> & ->). auto.
Qed.

Lemma completion_results_app (s1 s2 : list (@event World)) :
  completion_results (s1 ++ s2)
  = completion_results s1 ++ completion_results s2.
Proof. apply omap_app. Qed.

(** A complete execution of the pool.  Every command is built, traced and
    handed to [subprocess.run] once, and every child runs to its end.  The
    call of [as_completed] cuts the schedule in two: the loop over the
    results goes through the results of the children that end before the
    call, in some order, then through the results of those that end after
    it, in order of completion. *)
Lemma parallel_path_spec (tokens : list str) (sched : list (@event World))
  (st st' : @state World) (out : outcome) :
  parallel_path args tokens sched st = Some (out, st') →
  ∃ (ran traced : list str) (before after : list (@event World))
    (order : list nat) (early : list (option Z)) (codes : list Z),
    built st' = built st ++ (command_for args <$> tokens) ∧
    spawned st' = spawned st ++ ran ∧
    ran ≡ₚ command_for args <$> tokens ∧
    stderr st' = stderr st ++ trace_messages (args_trace args) traced ∧
    traced ≡ₚ command_for args <$> tokens ∧
    (stdin_read st' = stdin_read st ∧ stdin_data st' = stdin_data st ∧
     stdout st' = stdout st) ∧
    sched = before ++ Collect order :: after ∧
    length (completion_results sched) = length tokens ∧
    early ≡ₚ completion_results before ∧
    out = collect_return_code (early ++ completion_results after) EXIT_OK ∧
    reported st' = reported st ++ codes ∧
    (existsb is_raised (early ++ completion_results after) = false →
     Some <$> codes = early ++ completion_results after).
Proof.
  unfold parallel_path. intros Hpar.
  set (p0 := {| pool_todo := tokens; pool_futures := []; pool_completed := [];
                pool_order := None; pool_results := []; pool_state := st |})
    in Hpar.
  destruct (pool_run args sched p0) as [p|] eqn:Hrun; [|discriminate].
  destruct (pool_done p) eqn:Hdone; [|discriminate].
  injection Hpar as <- <-.
  pose proof (pool_inv_init args tokens st) as Hinv0. fold p0 in Hinv0.
  pose proof (pool_run_inv args tokens st sched p0 p Hinv0 Hrun) as Hinv.
  pose proof Hinv as [Hsub Hbuilt (ran & Hran & Hperm) (tr & Htr & Htperm)
                        Hframe Hfin Hcount Horder Hrep].
  unfold pool_done in Hdone.
  apply andb_true_iff in Hdone as [Hdone Hloop].
  apply andb_true_iff in Hdone as [Htodo Hall].
  destruct (pool_todo p); [|discriminate]. simpl in Hsub.
  rewrite app_nil_r in Hsub.
  destruct (forallb_finished_all _ Hall) as (Hff & Hfs & Hft).
  rewrite Hff in Hcount. rewrite Hfs, Hsub in Hperm.
  rewrite Hft, Hsub in Htperm.
  destruct (pool_order p) as [order|] eqn:Hord; [|discriminate].
  destruct Horder as (_ & Hoperm & Hole & Hrle & Hres).
  destruct (pool_run_collect sched p0 p order Hrun eq_refl Hord)
    as (before & after & p1 & p2 & Hsched & Hrun1 & Hcollect & Hrun2).
  pose proof (pool_run_inv args tokens st before p0 p1 Hinv0 Hrun1) as Hinv1.
  pose proof (pool_step_inv args tokens st _ p1 p2 Hinv1 Hcollect) as Hinv2.
  pose proof (pool_run_results tokens st before p0 p1 Hinv0 Hrun1) as Hres1.
  pose proof (pool_step_results tokens st _ p1 p2 Hinv1 Hcollect) as Hres2.
  pose proof (pool_run_results tokens st after p2 p Hinv2 Hrun2) as Hres3.
  change (completed_results p0) with (@nil (option Z)) in Hres1.
  change (completion_results [Collect order]) with (@nil (option Z)) in Hres2.
  rewrite app_nil_r in Hres2. cbn [app] in Hres1.
  rewrite Hres2, Hres1 in Hres3.
  (* the completions at the call of [as_completed] *)
  assert (Hk : length order = length (completion_results before)).
  { cbn [pool_step] in Hcollect.
    destruct (pool_todo p1); [|discriminate].
    destruct (pool_order p1); [discriminate|].
    case_bool_decide as Hp; [|discriminate].
    rewrite (Permutation_length Hp), <- Hres1.
    unfold completed_results. symmetry. apply results_length.
    apply (inv_completed _ _ _ _ Hinv1). }
  unfold completed_results in Hres3.
  rewrite <- (take_drop (length order) (pool_completed p)) in Hres3 at 1.
  rewrite omap_app in Hres3.
  assert (Hfin_take : ∀ j, j ∈ take (length order) (pool_completed p) →
            ∃ cmd result, pool_futures p !! j = Some (cmd, Finished result)).
  { intros j Hj. apply Hfin.
    rewrite <- (take_drop (length order) (pool_completed p)).
    apply elem_of_app. now left. }
  apply app_inj_1 in Hres3 as [Hearly Hlate];
    [|rewrite results_length by assumption; rewrite length_take; lia].
  (* the results in the order of delivery *)
  set (deliveries := omap (future_result (pool_futures p)) order
                     ++ completion_results after).
  assert (Hall_res : omap (future_result (pool_futures p))
                       (as_completed order (pool_completed p))
                     = deliveries).
  { unfold as_completed, deliveries. now rewrite omap_app, Hlate. }
  assert (Hsplit : deliveries
                   = pool_results p
                     ++ omap (future_result (pool_futures p))
                          (drop (length (pool_results p))
                             (as_completed order (pool_completed p)))).
  { rewrite <- Hall_res.
    rewrite <- (take_drop (length (pool_results p))
                  (as_completed order (pool_completed p))) at 1.
    rewrite omap_app. now rewrite <- Hres. }
  assert (Hlen : length (completion_results sched) = length tokens).
  { rewrite Hsched, completion_results_app.
    change (completion_results (Collect order :: after))
      with (completion_results after).
    rewrite <- Hearly, <- Hlate, <- omap_app, take_drop.
    rewrite results_length by assumption.
    rewrite Hcount. rewrite <- (length_fmap fst), Hsub. apply length_fmap. }
  exists ran, tr, before, after, order,
    (omap (future_result (pool_futures p)) order),
    (return_codes (pool_results p)).
  fold deliveries.
  repeat (split; [first [assumption | now rewrite Hbuilt, Hsub]|]).
  split; [rewrite <- Hearly; now apply omap_Permutation|].
  destruct (existsb is_raised (pool_results p)) eqn:Hraised.
  - split.
    + rewrite Hsplit. rewrite collect_return_code_raised by assumption.
      symmetry. apply collect_return_code_raised.
      rewrite existsb_app, Hraised. reflexivity.
    + split; [assumption|]. rewrite Hsplit, existsb_app, Hraised.
      discriminate.
  - simpl in Hloop. apply Nat.eqb_eq in Hloop.
    assert (Hnil : drop (length (pool_results p))
                     (as_completed order (pool_completed p)) = []).
    { apply drop_ge. rewrite as_completed_length by assumption.
      rewrite Hloop, Hcount. lia. }
    rewrite Hnil in Hsplit. simpl in Hsplit. rewrite app_nil_r in Hsplit.
    rewrite Hsplit. split; [reflexivity|]. split; [assumption|].
    intros _. symmetry. now apply no_raise_codes.
Qed.

End PoolRuns.

(** ** A complete execution for any return codes *)

Section OneByOne.

Context {World : Type}.
Variables (args : Namespace) (w : World).
Hypothesis Hmax : (1 ≤ args_max_procs args)%Z.

Local Abbreviation finished_jobs jobs :=
  ((fun j : str * Z => (j.1, Finished (Some j.2))) <$> jobs).
Local Abbreviation pending_jobs jobs :=
  ((fun j : str * Z => (j.1, Pending)) <$> jobs).

Lemma insert_middle {A : Type} (l1 l2 : list A) (x y : A) :
  <[length l1 := y]> (l1 ++ x :: l2) = l1 ++ y :: l2.
Proof.
  rewrite insert_app_r_alt by lia. now rewrite Nat.sub_diag.
Qed.

Lemma finished_jobs_idle (jobs : list (str * Z)) :
  existsb is_pending (finished_jobs jobs) = false ∧
  List.filter is_active (finished_jobs jobs) = [] ∧
  forallb is_finished (finished_jobs jobs) = true.
Proof. induction jobs as [|j jobs (IH1 & IH2 & IH3)]; simpl; auto. Qed.

Lemma pending_jobs_idle (jobs : list (str * Z)) :
  List.filter is_active (pending_jobs jobs) = [].
Proof. induction jobs as [|j jobs IH]; simpl; auto. Qed.

(** The submit loop. *)
Lemma submits_run (todo : list str) (p : @pool World) :
  pool_todo p = todo →
  ∃ p', pool_run args (replicate (length todo) Submit) p = Some p' ∧
        pool_todo p' = [] ∧
        pool_futures p'
        = pool_futures p
          ++ ((fun tok => (command_for args tok, Pending)) <$> todo) ∧
        pool_completed p' = pool_completed p ∧
        pool_order p' = pool_order p ∧ pool_results p' = pool_results p.
Proof.
  revert p. induction todo as [|tok rest IH]; intros p Htodo.
  - exists p. simpl. rewrite app_nil_r. repeat split; auto.
  - cbn [length replicate pool_run pool_step]. rewrite Htodo.
    fold (command_for args tok).
    edestruct IH as (p' & Hrun & Ht & Hf & Hc & Ho & Hr);
      [|exists p'; split; [exact Hrun|]]; [reflexivity|].
    cbn [pool_futures pool_completed pool_order pool_results] in *.
    rewrite Hf, <- app_assoc. auto.
Qed.

(** One child from start to end while the other workers are idle. *)
Lemma set_future_middle (p : @pool World) (l1 l2 : list (str * future_state))
  (cmd : str) (s s' : future_state) (st : @state World) :
  pool_futures p = l1 ++ (cmd, s) :: l2 →
  pool_futures (set_future (length l1) cmd s' st p) = l1 ++ (cmd, s') :: l2.
Proof. intros Hfut. simpl. rewrite Hfut. apply insert_middle. Qed.

Lemma run_child_runs (p : @pool World) (done : list (str * Z)) (cmd : str)
  (rest : list (str * Z)) (rc : Z) :
  pool_futures p = finished_jobs done ++ (cmd, Pending) :: pending_jobs rest →
  ∃ p', pool_run args (run_child w (length done) rc) p = Some p' ∧
        pool_futures p'
        = finished_jobs done ++ (cmd, Finished (Some rc)) :: pending_jobs rest ∧
        pool_completed p' = pool_completed p ++ [length done] ∧
        pool_todo p' = pool_todo p ∧
        pool_order p' = pool_order p ∧ pool_results p' = pool_results p.
Proof.
  intros Hfut.
  destruct (finished_jobs_idle done) as (Hpend & Hidle & _).
  pose proof (pending_jobs_idle rest) as Hidle'.
  assert (Hlen : length done = length (finished_jobs done))
    by (symmetry; apply length_fmap).
  rewrite Hlen.
  set (l1 := finished_jobs done) in *. set (l2 := pending_jobs rest) in *.
  set (i := length l1).
  set (p1 := set_future i cmd Started (pool_state p) p).
  set (p2 := set_future i cmd Traced
               (trace_command cmd (args_trace args) (pool_state p1)) p1).
  set (p3 := set_future i cmd Running (note_spawned cmd (pool_state p2)) p2).
  pose proof (set_future_middle p l1 l2 cmd Pending Started (pool_state p)
                Hfut) as Hf1. fold i p1 in Hf1.
  pose proof (set_future_middle p1 l1 l2 cmd Started Traced
                (trace_command cmd (args_trace args) (pool_state p1)) Hf1)
    as Hf2. fold i p2 in Hf2.
  pose proof (set_future_middle p2 l1 l2 cmd Traced Running
                (note_spawned cmd (pool_state p2)) Hf2) as Hf3.
  fold i p3 in Hf3.
  assert (Hs1 : pool_step args (Start i) p = Some p1).
  { unfold pool_step. rewrite Hfut.
    rewrite list_lookup_middle by reflexivity.
    unfold i at 1. rewrite take_app_length, Hpend.
    unfold active_count. rewrite List.filter_app, Hidle.
    cbn [List.filter is_active snd app]. rewrite Hidle'. cbn [length negb andb].
    destruct (Z.ltb_spec (Z.of_nat 0) (args_max_procs args)) as [_|];
      [reflexivity | lia]. }
  assert (Hs2 : pool_step args (Trace i) p1 = Some p2).
  { unfold pool_step. rewrite Hf1.
    now rewrite list_lookup_middle by reflexivity. }
  assert (Hs3 : pool_step args (Spawn i) p2 = Some p3).
  { unfold pool_step. rewrite Hf2.
    now rewrite list_lookup_middle by reflexivity. }
  unfold run_child. cbn [pool_run]. rewrite Hs1, Hs2, Hs3.
  unfold pool_step. rewrite Hf3.
  rewrite list_lookup_middle by reflexivity.
  eexists. split; [reflexivity|].
  cbn [pool_futures pool_todo pool_completed pool_order pool_results].
  unfold i. rewrite insert_middle. repeat split; reflexivity.
Qed.

(** The children one after the other. *)
Lemma children_run (jobs done : list (str * Z)) (p : @pool World) :
  pool_futures p = finished_jobs done ++ pending_jobs jobs →
  ∃ p', pool_run args
          (concat (imap (fun j => run_child w (length done + j)) jobs.*2)) p
        = Some p' ∧
        pool_futures p' = finished_jobs (done ++ jobs) ∧
        pool_completed p'
        = pool_completed p ++ seq (length done) (length jobs) ∧
        pool_todo p' = pool_todo p ∧
        pool_order p' = pool_order p ∧ pool_results p' = pool_results p.
Proof.
  revert done p. induction jobs as [|[cmd rc] jobs IH]; intros done p Hfut.
  - exists p. simpl in *. rewrite !app_nil_r in *. repeat split; auto.
  - cbn [fmap list_fmap snd]. rewrite imap_cons. cbn [concat].
    rewrite pool_run_app. rewrite Nat.add_0_r.
    destruct (run_child_runs p done cmd jobs rc Hfut)
      as (p1 & -> & Hf1 & Hc1 & Ht1 & Ho1 & Hr1).
    destruct (IH (done ++ [(cmd, rc)]) p1)
      as (p' & Hrun & Hf & Hc & Ht & Ho & Hr).
    { rewrite Hf1, fmap_app, <- app_assoc. reflexivity. }
    exists p'. split.
    + rewrite <- Hrun. f_equal. f_equal. apply imap_ext.
      intros j x _. simpl. f_equal. rewrite length_app. simpl. lia.
    + rewrite Hf, Hc, Hc1, Ht, Ht1, Ho, Ho1, Hr, Hr1.
      rewrite <- !app_assoc, length_app. simpl.
      replace (length done + 1) with (S (length done)) by lia. auto.
Qed.

(** The loop over [as_completed] when every future has finished and the
    set of them is iterated in submission order. *)
Lemma deliveries_run (jobs : list (str * Z)) (k : nat) (p : @pool World) :
  pool_futures p = finished_jobs jobs →
  pool_completed p = seq 0 (length jobs) →
  pool_order p = Some (seq 0 (length jobs)) →
  length (pool_results p) + k = length jobs →
  pool_results p = Some <$> take (length (pool_results p)) jobs.*2 →
  ∃ p', pool_run args (replicate k Deliver) p = Some p' ∧
        pool_futures p' = pool_futures p ∧ pool_todo p' = pool_todo p ∧
        pool_order p' = pool_order p ∧
        pool_results p' = Some <$> jobs.*2.
Proof.
  revert p. induction k as [|k IH]; intros p Hfut Hcompl Hord Hlen Hres.
  - exists p. simpl. repeat split; auto.
    rewrite Hres. rewrite take_ge; [reflexivity|]. rewrite length_fmap. lia.
  - cbn [replicate pool_run pool_step]. rewrite Hord.
    assert (Hnoraise : existsb is_raised (pool_results p) = false).
    { rewrite Hres. generalize (take (length (pool_results p)) jobs.*2).
      intros l. induction l; simpl; auto. }
    rewrite Hnoraise. unfold as_completed. rewrite Hcompl.
    rewrite drop_all, app_nil_r.
    rewrite lookup_seq_lt by lia. cbn [Nat.add].
    destruct (lookup_lt_is_Some_2 jobs (length (pool_results p)))
      as [[cmd rc] Hjob]; [lia|].
    unfold future_result. rewrite Hfut, list_lookup_fmap, Hjob. simpl.
    edestruct IH as (p' & Hrun & Hf & Ht & Ho & Hr);
      [..|exists p'; split; [exact Hrun|]]; simpl; auto.
    + rewrite length_app. simpl. lia.
    + rewrite length_app. simpl.
      replace (length (pool_results p) + 1) with (S (length (pool_results p)))
        by lia.
      erewrite take_S_r by (rewrite list_lookup_fmap, Hjob; reflexivity).
      rewrite fmap_app. now rewrite <- Hres.
Qed.

(** [one_by_one] is a complete execution, in which the loop receives the
    return codes in submission order. *)
Lemma one_by_one_complete (tokens : list str) (codes : list Z)
  (st : @state World) :
  length codes = length tokens →
  ∃ st', parallel_path args tokens (one_by_one w codes) st
         = Some (Return (first_nonzero codes), st') ∧
         reported st' = reported st ++ codes.
Proof.
  intros Hlen. unfold parallel_path, one_by_one.
  set (p0 := {| pool_todo := tokens; pool_futures := []; pool_completed := [];
                pool_order := None; pool_results := []; pool_state := st |}).
  set (jobs := zip (command_for args <$> tokens) codes).
  assert (Hjobs1 : jobs.*1 = command_for args <$> tokens)
    by (apply fst_zip; rewrite length_fmap; lia).
  assert (Hjobs2 : jobs.*2 = codes)
    by (apply snd_zip; rewrite length_fmap; lia).
  assert (Hjlen : length jobs = length codes)
    by (rewrite <- Hjobs2; now rewrite length_fmap).
  pose proof (pool_inv_init args tokens st) as Hinv0. fold p0 in Hinv0.
  destruct (submits_run tokens p0 eq_refl)
    as (p1 & Hrun1 & Ht1 & Hf1 & Hc1 & Ho1 & Hr1).
  destruct (children_run jobs [] p1) as (p2 & Hrun2 & Hf2 & Hc2 & Ht2 & Ho2 & Hr2).
  { rewrite Hf1. simpl.
    transitivity ((fun c : str => (c, Pending))
                    <$> (command_for args <$> tokens)).
    - now rewrite <- list_fmap_compose.
    - rewrite <- Hjobs1. now rewrite <- list_fmap_compose. }
  simpl in Hrun2, Hf2, Hc2. rewrite Hjobs2 in Hrun2.
  rewrite Hc1 in Hc2. simpl in Hc2.
  set (p3 := {| pool_todo := []; pool_futures := pool_futures p2;
                pool_completed := pool_completed p2;
                pool_order := Some (seq 0 (length codes));
                pool_results := pool_results p2;
                pool_state := pool_state p2 |}).
  assert (Hstep3 : pool_step args (Collect (seq 0 (length codes))) p2 = Some p3).
  { cbn [pool_step]. rewrite Ht2, Ht1, Ho2, Ho1. simpl.
    rewrite bool_decide_eq_true_2; [reflexivity|]. now rewrite Hc2, Hjlen. }
  destruct (deliveries_run jobs (length codes) p3)
    as (p4 & Hrun4 & Hf4 & Ht4 & Ho4 & Hr4); simpl.
  { exact Hf2. } { now rewrite Hc2. } { now rewrite Hjlen. }
  { rewrite Hr2, Hr1. simpl. lia. } { now rewrite Hr2, Hr1. }
  rewrite <- Hlen in Hrun1.
  change (pool_run args (concat (imap (run_child w) codes)) p1 = Some p2)
    in Hrun2.
  rewrite pool_run_app, Hrun1, pool_run_app, Hrun2. cbn [pool_run].
  rewrite Hstep3, Hrun4. rewrite Hjobs2 in Hr4.
  assert (Hdone : pool_done p4 = true).
  { unfold pool_done. rewrite Ht4, Hf4, Ho4, Hr4. simpl. rewrite Hf2.
    rewrite (proj2 (proj2 (finished_jobs_idle jobs))). simpl.
    rewrite !length_fmap, Hjlen, Nat.eqb_refl. apply orb_true_r. }
  rewrite Hdone, Hr4, collect_return_code_codes. simpl.
  eexists. split; [reflexivity|].
  assert (Hinv4 : pool_inv args tokens st p4).
  { apply (pool_run_inv args tokens st (replicate (length codes) Deliver) p3);
      [|exact Hrun4].
    apply (pool_step_inv args tokens st (Collect (seq 0 (length codes)))
             p2 p3); [|exact Hstep3].
    apply (pool_run_inv args tokens st (concat (imap (run_child w) codes))
             p1 p2); [|exact Hrun2].
    apply (pool_run_inv args tokens st (replicate (length codes) Submit)
             p0 p1); [exact Hinv0 | exact Hrun1]. }
  rewrite (inv_reported _ _ _ _ Hinv4), Hr4. now rewrite return_codes_some.
Qed.

End OneByOne.

(** ** The pool is never stuck *)

Section PoolProgress.

Context {World : Type}.
Variables (args : Namespace) (tokens : list str) (st0 : @state World).
Hypothesis Hmax : (1 ≤ args_max_procs args)%Z.

Lemma first_pending (futures : list (str * future_state)) :
  existsb is_pending futures = true →
  ∃ i cmd, futures !! i = Some (cmd, Pending) ∧
           existsb is_pending (take i futures) = false.
Proof.
  induction futures as [|[cmd fs] rest IH]; [discriminate|].
  destruct fs as [| | | |result].
  1: { intros _. exists 0, cmd. auto. }
  all: cbn [existsb is_pending snd orb]; intros H;
    destruct (IH H) as (i & c & Hi & Hpre); exists (S i), c; auto.
Qed.

Lemma idle_finished (futures : list (str * future_state)) :
  existsb is_pending futures = false →
  List.filter is_active futures = [] →
  forallb is_finished futures = true.
Proof.
  induction futures as [|[cmd [| | | |result]] rest IH]; simpl;
    try discriminate; auto.
Qed.

Lemma filter_length_le {A : Type} (f : A → bool) (l : list A) :
  length (List.filter f l) ≤ length l.
Proof.
  induction l as [|x l IH]; simpl; [lia|]. destruct (f x); simpl; lia.
Qed.

Lemma forallb_filter_length {A : Type} (f : A → bool) (l : list A) :
  forallb f l = true → length (List.filter f l) = length l.
Proof.
  induction l as [|x l IH]; simpl; [reflexivity|].
  destruct (f x); simpl; [|discriminate]. intros H. now rewrite IH.
Qed.

(** Progress: while [main] has not left the [with] block, some event is
    enabled. *)
Lemma pool_progress (p : @pool World) :
  pool_inv args tokens st0 p → pool_done p = false →
  ∃ ev p', pool_step args ev p = Some p'.
Proof.
  intros Hinv Hdone.
  destruct (pool_todo p) as [|tok rest] eqn:Htodo.
  2: { exists Submit. cbn [pool_step]. rewrite Htodo. eauto. }
  destruct (List.filter is_active (pool_futures p)) as [|f fs] eqn:Hactive.
  2: { assert (Hin : In f (List.filter is_active (pool_futures p)))
         by (rewrite Hactive; now left).
       apply filter_In in Hin as [Hin Hf].
       apply list_elem_of_In, list_elem_of_lookup in Hin as [i Hi].
       destruct f as [cmd [| | | |result]]; try discriminate.
       - exists (Trace i). cbn [pool_step]. rewrite Hi. eauto.
       - exists (Spawn i). cbn [pool_step]. rewrite Hi. eauto.
       - exists (Finish i (Some 0%Z) (world (pool_state p))).
         cbn [pool_step]. rewrite Hi. eauto. }
  destruct (existsb is_pending (pool_futures p)) eqn:Hpending.
  { destruct (first_pending _ Hpending) as (i & cmd & Hi & Hpre).
    exists (Start i). cbn [pool_step]. rewrite Hi, Hpre.
    unfold active_count. rewrite Hactive. cbn [length negb andb].
    destruct (Z.ltb_spec (Z.of_nat 0) (args_max_procs args)); [eauto | lia]. }
  pose proof (idle_finished _ Hpending Hactive) as Hall.
  pose proof (inv_order _ _ _ _ Hinv) as Horder.
  pose proof (inv_count _ _ _ _ Hinv) as Hcount.
  rewrite (forallb_filter_length _ _ Hall) in Hcount.
  unfold pool_done in Hdone. rewrite Htodo, Hall in Hdone.
  cbn [is_empty andb] in Hdone.
  destruct (pool_order p) as [order|] eqn:Hord.
  - destruct Horder as (_ & Hperm & Hole & Hrle & Hres).
    apply orb_false_iff in Hdone as [Hraised Hlen].
    apply Nat.eqb_neq in Hlen.
    destruct (lookup_lt_is_Some_2 (as_completed order (pool_completed p))
                (length (pool_results p))) as [i Hi].
    { rewrite as_completed_length by assumption. lia. }
    destruct (inv_completed _ _ _ _ Hinv i) as (cmd & result & Hlook).
    { apply (as_completed_elem order); [assumption|].
      apply list_elem_of_lookup. eauto. }
    exists Deliver. cbn [pool_step].
    rewrite Hord, Hraised, Hi. unfold future_result. rewrite Hlook. eauto.
  - exists (Collect (pool_completed p)). cbn [pool_step].
    rewrite Htodo, Hord. rewrite bool_decide_eq_true_2 by reflexivity. eauto.
Qed.

(** Termination: every event uses up part of the budget. *)
Lemma set_future_budget (futures : list (str * future_state)) (i : nat)
  (cmd : str) (s s' : future_state) :
  futures !! i = Some (cmd, s) →
  S (future_cost (cmd, s')) = future_cost (cmd, s) →
  S (list_sum (future_cost <$> <[i := (cmd, s')]> futures))
  = list_sum (future_cost <$> futures) ∧
  length (<[i := (cmd, s')]> futures) = length futures.
Proof.
  intros Hi Hcost. split; [|apply length_insert].
  destruct (insert_split _ i _ (cmd, s') Hi) as [Hl ->].
  remember (take i futures) as l1. remember (drop (S i) futures) as l2.
  rewrite Hl. rewrite !fmap_app, !list_sum_app. csimpl. lia.
Qed.

Lemma pool_step_budget (ev : @event World) (p p' : @pool World) :
  pool_inv args tokens st0 p → pool_step args ev p = Some p' →
  pool_budget p' < pool_budget p.
Proof.
  unfold pool_budget. intros Hinv Hstep.
  destruct ev as [|i|i|i|i result w|order|]; cbn [pool_step] in Hstep.
  - destruct (pool_todo p) as [|tok rest]; [discriminate|].
    injection Hstep as <-.
    cbn [pool_todo pool_futures pool_order pool_results length].
    rewrite fmap_app, list_sum_app, length_app. csimpl.
    change (future_cost (_, Pending)) with 4. lia.
  - destruct (pool_futures p !! i) as [[cmd [| | | |r]]|] eqn:Hi;
      try discriminate.
    destruct (_ && _); [|discriminate]. injection Hstep as <-.
    cbn [set_future pool_todo pool_futures pool_order pool_results].
    destruct (set_future_budget _ i cmd Pending Started Hi eq_refl)
      as [Hsum ->]. lia.
  - destruct (pool_futures p !! i) as [[cmd [| | | |r]]|] eqn:Hi;
      try discriminate.
    injection Hstep as <-.
    cbn [set_future pool_todo pool_futures pool_order pool_results].
    destruct (set_future_budget _ i cmd Started Traced Hi eq_refl)
      as [Hsum ->]. lia.
  - destruct (pool_futures p !! i) as [[cmd [| | | |r]]|] eqn:Hi;
      try discriminate.
    injection Hstep as <-.
    cbn [set_future pool_todo pool_futures pool_order pool_results].
    destruct (set_future_budget _ i cmd Traced Running Hi eq_refl)
      as [Hsum ->]. lia.
  - destruct (pool_futures p !! i) as [[cmd [| | | |r]]|] eqn:Hi;
      try discriminate.
    injection Hstep as <-.
    cbn [pool_todo pool_futures pool_order pool_results].
    destruct (set_future_budget _ i cmd Running (Finished result) Hi eq_refl)
      as [Hsum ->]. lia.
  - destruct (pool_todo p); [|discriminate].
    destruct (pool_order p); [discriminate|].
    case_bool_decide; [|discriminate]. injection Hstep as <-.
    cbn [pool_todo pool_futures pool_order pool_results length]. lia.
  - pose proof (inv_order _ _ _ _ Hinv) as Horder.
    pose proof (inv_count _ _ _ _ Hinv) as Hcount.
    pose proof (filter_length_le is_finished (pool_futures p)) as Hle.
    destruct (pool_order p) as [order|] eqn:Hord; [|discriminate].
    destruct Horder as (_ & Hperm & Hole & Hrle & Hres).
    destruct (existsb is_raised (pool_results p)); [discriminate|].
    destruct (as_completed order (pool_completed p)
              !! length (pool_results p)) as [i|] eqn:Hnext; [|discriminate].
    destruct (future_result (pool_futures p) i); [|discriminate].
    injection Hstep as <-.
    apply lookup_lt_Some in Hnext.
    rewrite as_completed_length in Hnext by assumption.
    cbn [pool_todo pool_futures pool_order pool_results].
    rewrite length_app. simpl. lia.
Qed.

(** Every pool that a schedule has led to can be run to completion. *)
Lemma pool_run_completes (p : @pool World) :
  pool_inv args tokens st0 p →
  ∃ sched p', pool_run args sched p = Some p' ∧ pool_done p' = true.
Proof.
  remember (pool_budget p) as n eqn:Hn.
  revert p Hn. induction (lt_wf n) as [n _ IH]. intros p -> Hinv.
  destruct (pool_done p) eqn:Hdone.
  - exists [], p. auto.
  - destruct (pool_progress p Hinv Hdone) as (ev & p1 & Hstep).
    destruct (IH (pool_budget p1) (pool_step_budget ev p p1 Hinv Hstep) p1
                eq_refl (pool_step_inv args tokens st0 ev p p1 Hinv Hstep))
      as (sched & p' & Hrun & Hdone').
    exists (ev :: sched), p'. simpl. rewrite Hstep. auto.
Qed.

End PoolProgress.
(** * [main] *)

Section MainFacts.

Context {World : Type}.
Variable subprocess_run :
  World -> str -> option str -> bool -> option (gmap str str)
  -> option Z * World.
Variable decode : str -> str -> list N -> option str.
Variable encodable : str -> bool.
Variable environ : gmap str str.

Local Abbreviation state := (@state World).
Local Abbreviation main := (main subprocess_run decode encodable environ).
Local Abbreviation parse_args := (@parse_args World environ).
Local Abbreviation dry_run_loop := (@dry_run_loop World encodable).

(** When the validation passes, it changes nothing. *)
Lemma parse_args_ok (args args' : Namespace) (st : state) :
  (parse_args args st).1 = inr args' →
  parse_args args st = (inr args, st) ∧
  contains (args_placeholder args) (args_command args) = true ∧
  (∃ m, apply_environment environ (args_env args) = inr m) ∧
  ((1 <? args_max_procs args)%Z && negb (args_no_stdin args) = false).
Proof.
  unfold Each.parse_args.
  destruct (contains _ _); simpl; [|discriminate].
  destruct (apply_environment _ _) as [e|m]; simpl; [discriminate|].
  destruct (_ && _); simpl; [discriminate|]. eauto.
Qed.

(** A rejected run leaves one line on standard error and nothing else. *)
Lemma parse_args_rejects (args : Namespace) (st : state) (code : Z) :
  (parse_args args st).1 = inl code →
  ∃ msg, parse_args args st = (inl code, eprint msg st) ∧
    (code = EXIT_NO_PLACEHOLDER ∨ code = EXIT_BAD_ENV ∨
     code = EXIT_NEEDS_NO_STDIN_FOR_PAR).
Proof.
  unfold Each.parse_args.
  destruct (contains _ _); simpl.
  - destruct (apply_environment _ _) as [e|m]; simpl.
    + intros [= <-]. eauto 6.
    + destruct (_ && _); simpl; [|discriminate]. intros [= <-]. eauto 6.
  - intros [= <-]. eauto 6.
Qed.

Lemma printed_app (l1 l2 : list str) :
  printed (l1 ++ l2) = printed l1 ++ printed l2.
Proof. unfold printed. now rewrite fmap_app, concat_app. Qed.

(** What the dry-run loop does: it builds and prints the commands of the
    tokens in order, each followed by a newline, up to the first command
    that standard output cannot encode; building that one is the last thing
    it does. *)
Lemma dry_run_loop_spec (template placeholder : str) (quote : bool)
  (tokens : list str) (st : state) :
  let cmds := (fun tok => build_command template placeholder tok quote)
                <$> tokens in
  let r := dry_run_loop template placeholder quote tokens st in
  ∃ n : nat,
    n ≤ length tokens ∧
    Forall (fun cmd => encodable cmd = true) (take n cmds) ∧
    stdout r.2 = stdout st ++ printed (take n cmds) ∧
    (spawned r.2 = spawned st ∧ reported r.2 = reported st ∧
     stderr r.2 = stderr st ∧ world r.2 = world st ∧
     stdin_read r.2 = stdin_read st ∧ stdin_data r.2 = stdin_data st) ∧
    ((r.1 = Return EXIT_OK ∧ n = length tokens ∧
      built r.2 = built st ++ cmds) ∨
     (r.1 = Raised ∧
      ∃ cmd, cmds !! n = Some cmd ∧ encodable cmd = false ∧
             built r.2 = built st ++ take (S n) cmds)).
Proof.
  revert st. induction tokens as [|tok rest IH]; intros st; cbv zeta.
  - exists 0. simpl. rewrite !app_nil_r. auto 15.
  - cbn [Each.dry_run_loop fmap list_fmap]. unfold print.
    set (cmd := build_command template placeholder tok quote).
    destruct (encodable cmd) eqn:Henc.
    + destruct (IH (write_stdout (cmd ++ [LF]) (note_built cmd st)))
        as (n & Hn & Hall & Ho & (Hs & Hr & He & Hw & Hi & Hd) & Hfin).
      exists (S n). cbv zeta in *. cbn [take].
      rewrite Ho, Hs, Hr, He, Hw, Hi, Hd.
      change (cmd :: take n ((fun tok => build_command template placeholder
                                           tok quote) <$> rest))
        with ([cmd] ++ take n ((fun tok => build_command template placeholder
                                            tok quote) <$> rest)).
      rewrite printed_app. simpl. rewrite <- !app_assoc. simpl.
      split; [lia|]. split; [constructor; assumption|].
      split; [unfold printed; simpl; now rewrite app_nil_r, <- !app_assoc|].
      split; [auto 10|].
      destruct Hfin as [(Hout & -> & Hb)|(Hout & c & Hc & Hcenc & Hb)].
      * left. rewrite Hb. simpl. rewrite <- app_assoc. auto.
      * right. split; [assumption|]. exists c. rewrite Hb. simpl.
        rewrite <- app_assoc. auto.
    + exists 0. simpl. rewrite !app_nil_r.
      split; [lia|]. split; [constructor|]. split; [reflexivity|].
      split; [auto 10|]. right. split; [reflexivity|].
      exists cmd. rewrite take_0. auto.
Qed.

(** [main] on a run that passes the validation and decodes its input. *)
Lemma main_valid (args : Namespace) (st : state) (text : str) :
  (parse_args args st).1 = inr args →
  decode (args_encoding args) (args_errors args) (stdin_data st) = Some text →
  ∃ env, ∀ sched : list event,
    let st2 := (decode_stdin decode (args_encoding args) (args_errors args) st).2 in
    let tokens := tokenize_input text (args_delimiter args) (args_null args)
                    (args_keep_empty args) (args_strip args) in
    main args sched st =
      if is_empty tokens then Some (Return EXIT_OK, st2)
      else if args_dry_run args then
        Some (dry_run_loop (args_command args) (args_placeholder args)
                (negb (args_no_quote args)) tokens st2)
      else if (args_max_procs args <=? 1)%Z then
        Some (Each.sequential_loop subprocess_run args env tokens st2)
      else parallel_path args tokens sched st2.
Proof.
  intros Hok Hdec. apply parse_args_ok in Hok as (Hparse & _ & (m & Hm) & _).
  unfold Each.main. rewrite Hparse, Hm. unfold decode_stdin. rewrite Hdec.
  destruct (is_empty (args_env args)).
  - exists None. intros sched. reflexivity.
  - exists (Some m). intros sched. reflexivity.
Qed.

(** The cases of [main]. *)
Lemma main_cases (args : Namespace) (sched : list event) (st st' : state)
  (out : outcome) :
  main args sched st = Some (out, st') →
  (∃ code msg, out = SystemExit code ∧ st' = eprint msg st ∧
               (parse_args args st).1 = inl code) ∨
  ((parse_args args st).1 = inr args ∧
   let st2 := (decode_stdin decode (args_encoding args) (args_errors args) st).2 in
   ((out = Raised ∧ st' = st2 ∧
     decode (args_encoding args) (args_errors args) (stdin_data st) = None) ∨
    ∃ text env,
      decode (args_encoding args) (args_errors args) (stdin_data st)
      = Some text ∧
      let tokens := tokenize_input text (args_delimiter args) (args_null args)
                      (args_keep_empty args) (args_strip args) in
      (tokens = [] ∧ out = Return EXIT_OK ∧ st' = st2) ∨
      (tokens ≠ [] ∧ args_dry_run args = true ∧
       (out, st') = dry_run_loop (args_command args) (args_placeholder args)
                      (negb (args_no_quote args)) tokens st2) ∨
      (tokens ≠ [] ∧ args_dry_run args = false ∧
       (args_max_procs args ≤ 1)%Z ∧
       (out, st') = Each.sequential_loop subprocess_run args env tokens st2) ∨
      (tokens ≠ [] ∧ args_dry_run args = false ∧
       (1 < args_max_procs args)%Z ∧
       parallel_path args tokens sched st2 = Some (out, st')))).
Proof.
  intros Hmain.
  destruct (parse_args args st) as [[code|args'] st1] eqn:Hparse.
  - left. destruct (parse_args_rejects args st code) as (msg & Hrej & _);
      [now rewrite Hparse|].
    unfold Each.main in Hmain. rewrite Hrej in Hmain.
    injection Hmain as <- <-. exists code, msg. auto.
  - right.
    destruct (parse_args_ok args args' st) as (Hst & _ & (m & Hm) & _);
      [now rewrite Hparse|].
    rewrite Hparse in Hst. injection Hst as -> ->.
    split; [reflexivity|]. cbv zeta.
    destruct (decode (args_encoding args) (args_errors args) (stdin_data st))
      as [text|] eqn:Hdec.
    + right.
      destruct (main_valid args st text) as [env Hvalid];
        [now rewrite Hparse | assumption|].
      rewrite (Hvalid sched) in Hmain. cbv zeta in Hmain.
      exists text, env. split; [reflexivity|]. cbv zeta.
      destruct (tokenize_input _ _ _ _ _) as [|tok toks].
      { left. injection Hmain as <- <-. auto. }
      right. cbn [is_empty] in Hmain.
      destruct (args_dry_run args).
      { left. injection Hmain as Hmain. rewrite <- Hmain. auto. }
      right. destruct (Z.leb_spec (args_max_procs args) 1).
      { left. injection Hmain as Hmain. rewrite <- Hmain. auto. }
      right. auto.
    + left. unfold Each.main in Hmain. rewrite Hparse, Hm in Hmain.
      unfold decode_stdin in *. rewrite Hdec in Hmain.
      destruct (is_empty (args_env args)); injection Hmain as <- <-; auto.
Qed.

(** [SystemExit] comes from [parse_args] only. *)
Lemma main_system_exit (args : Namespace) (sched : list event)
  (st st' : state) (code : Z) :
  main args sched st = Some (SystemExit code, st') →
  (parse_args args st).1 = inl code ∧ ∃ msg, st' = eprint msg st.
Proof.
  intros Hmain.
  apply main_cases in Hmain as [(c & msg & [= ->] & -> & Hrej)|[Hok Hmain]];
    [eauto|].
  exfalso. cbv zeta in Hmain.
  destruct Hmain as [([=] & _)|(text & env & _ & Hmain)].
  cbv zeta in Hmain.
  set (tokens := tokenize_input _ _ _ _ _) in Hmain.
  set (st2 := (decode_stdin decode _ _ st).2) in Hmain.
  destruct Hmain as [(_ & [=] & _)|[(_ & _ & Hloop)|[(_ & _ & _ & Hseq)|
                     (_ & _ & _ & Hpar)]]].
  - destruct (dry_run_loop_spec (args_command args) (args_placeholder args)
                (negb (args_no_quote args)) tokens st2)
      as (n & _ & _ & _ & _ & Hfin).
    cbv zeta in Hfin. rewrite <- Hloop in Hfin. cbn [fst] in Hfin.
    destruct Hfin as [([=] & _)|([=] & _)].
  - destruct (sequential_loop_spec subprocess_run args env tokens st2)
      as (n & codes & Hspec). cbv zeta in Hspec. rewrite <- Hseq in Hspec.
    cbn [fst] in Hspec.
    destruct Hspec as (_ & _ & _ & _ & _ & _ & _ & _ & Hfin).
    destruct Hfin as [([=] & _)|[(rc' & zeros & [=] & _)|([=] & _)]].
  - destruct (parallel_path_spec args tokens sched st2 _ _ Hpar)
      as (ran' & tr & before & after & order & early & codes & _ & _ & _
          & _ & _ & _ & _ & _ & _ & Hout & _).
    destruct (existsb is_raised (early ++ completion_results after))
      eqn:Hraised.
    + rewrite collect_return_code_raised in Hout by assumption. discriminate.
    + rewrite (no_raise_codes _ Hraised), collect_return_code_codes in Hout.
      discriminate.
Qed.

End MainFacts.
(** * Properties of the orchestrator *)


Lemma collect_return_code_returns (results : list (option Z)) (acc rc : Z) :
  collect_return_code results acc = Return rc →
  existsb is_raised results = false.
Proof.
  intros Hret. destruct (existsb is_raised results) eqn:Hraised; [|reflexivity].
  rewrite collect_return_code_raised in Hret by assumption. discriminate.
Qed.

Section SequentialPath.

Context {World : Type}.

(** The children of this section are all started: [subprocess.run] returns
    a completed process for every command. *)
Variable subprocess_run :
  World -> str -> option str -> bool -> option (gmap str str) -> Z * World.
Variable decode : str -> str -> list N -> option str.
Variable encodable : str -> bool.
Variable environ : gmap str str.

Local Abbreviation state := (@state World).
Local Abbreviation main :=
  (main (launched subprocess_run) decode encodable environ).
Local Abbreviation parse_args := (@parse_args World environ).


End SequentialPath.

Section OrchestratorProperties.

Context {World : Type}.
Variable subprocess_run :
  World -> str -> option str -> bool -> option (gmap str str)
  -> option Z * World.
Variable decode : str -> str -> list N -> option str.
Variable encodable : str -> bool.
Variable environ : gmap str str.

Local Abbreviation state := (@state World).
Local Abbreviation main := (main subprocess_run decode encodable environ).
Local Abbreviation parse_args := (@parse_args World environ).

(** C2 (amended).  Parallel mode ([max_procs > 1]).  For any return codes
    of the children the pool has a complete execution in which [main]
    receives them.  In every complete execution the command of every token
    is built, in token order, and handed to [subprocess.run] exactly once
    (the spawned commands are a permutation of the built ones), whatever the
    children return.  When [main] returns, it has received one return code
    per token; it returns the first non-zero code in the order in which it
    received them, and 0 exactly when every child returned 0.  That order is
    the order of [as_completed]: first, in some order, the codes of the
    children that ended before [as_completed] was called, then the codes of
    the other children in order of completion.  Every child runs to its end,
    and [main] raises instead of returning exactly when a call of
    [subprocess.run] raised. *)
Theorem parallel_runs_all_keeps_first_delivered (args : Namespace)
  (st : state) (text : str) :
  (parse_args args st).1 = inr args →
  decode (args_encoding args) (args_errors args) (stdin_data st) = Some text →
  args_dry_run args = false →
  (1 < args_max_procs args)%Z →
  let tokens := tokenize_input text (args_delimiter args) (args_null args)
                  (args_keep_empty args) (args_strip args) in
  (∀ (w : World) (codes : list Z),
     length codes = length tokens →
     ∃ st', main args (one_by_one w codes) st
            = Some (Return (first_nonzero codes), st') ∧
            reported st' = reported st ++ codes) ∧
  ∀ (sched : list event) (out : outcome) (st' : state),
    main args sched st = Some (out, st') →
    ∃ (ran : list str) (codes : list Z),
      built st' = built st ++ (command_for args <$> tokens) ∧
      spawned st' = spawned st ++ ran ∧
      ran ≡ₚ command_for args <$> tokens ∧
      reported st' = reported st ++ codes ∧
      (∀ rc, out = Return rc →
         length codes = length tokens ∧
         rc = first_nonzero codes ∧
         (rc = 0%Z ↔ Forall (eq 0%Z) codes) ∧
         (tokens ≠ [] →
          ∃ (before after : list event) (order : list nat) (early : list Z),
            sched = before ++ Collect order :: after ∧
            early ≡ₚ completion_codes before ∧
            codes = early ++ completion_codes after)) ∧
      (tokens ≠ [] →
       length (completion_results sched) = length tokens ∧
       (out = Raised ↔ None ∈ completion_results sched)).
Proof.
  intros Hok Hdec Hdry Hmax tokens.
  destruct (main_valid subprocess_run decode encodable environ args st text
              Hok Hdec) as [env Hmain].
  cbv zeta in Hmain. fold tokens in Hmain. rewrite Hdry in Hmain.
  destruct (Z.leb_spec (args_max_procs args) 1) as [|_]; [lia|].
  set (st2 := (decode_stdin decode _ _ st).2) in Hmain.
  assert (Hst2 : built st2 = built st ∧ spawned st2 = spawned st ∧
                 reported st2 = reported st) by auto.
  destruct Hst2 as (Hb2 & Hs2 & Hr2).
  destruct (is_empty tokens) eqn:Hempty.
  { destruct tokens; [|discriminate]. split.
    - intros w [|c codes] Hlen; [|discriminate].
      exists st2. rewrite Hmain, Hr2, app_nil_r. auto.
    - intros sched out st' Hrun. rewrite Hmain in Hrun.
      injection Hrun as <- <-. exists [], [].
      rewrite Hb2, Hs2, Hr2. simpl. rewrite !app_nil_r.
      repeat (split; [reflexivity|]).
      split; [|intros []; reflexivity].
      intros rc [= <-]. repeat split; auto.
      intros []; reflexivity. }
  split.
  - intros w codes Hlen.
    destruct (one_by_one_complete args w ltac:(lia) tokens codes st2 Hlen)
      as (st' & Hpar & Hrep).
    exists st'. rewrite Hmain, Hpar, Hrep, Hr2. auto.
  - intros sched out st' Hrun. rewrite Hmain in Hrun.
    destruct (parallel_path_spec args tokens sched st2 st' out Hrun)
      as (ran & tr & before & after & order & early & codes & Hb & Hs & Hperm
          & _ & _ & _ & Hsched & Hlen & Hearly & Hout & Hrep & Hcodes).
    exists ran, codes.
    rewrite Hb, Hs, Hrep, Hb2, Hs2, Hr2.
    repeat (split; [first [reflexivity | assumption]|]).
    assert (Hall : completion_results sched
                   ≡ₚ early ++ completion_results after).
    { rewrite Hsched, completion_results_app, Hearly. reflexivity. }
    split.
    + intros rc ->. symmetry in Hout.
      apply collect_return_code_returns in Hout as Hnone.
      specialize (Hcodes Hnone).
      assert (Hrc : rc = first_nonzero codes).
      { rewrite <- Hcodes, collect_return_code_codes in Hout.
        now injection Hout as <-. }
      split; [now rewrite <- Hlen, Hall, <- Hcodes, length_fmap|].
      split; [assumption|].
      split; [rewrite Hrc; apply first_nonzero_zero_iff|].
      intros _. exists before, after, order, (return_codes early).
      split; [assumption|].
      split; [unfold completion_codes; now rewrite Hearly|].
      rewrite <- (return_codes_some codes), Hcodes.
      apply return_codes_app.
    + intros _. split; [assumption|].
      rewrite Hall, <- existsb_raised_elem. split.
      * intros ->.
        destruct (existsb is_raised (early ++ completion_results after))
          eqn:Hraised; [reflexivity|].
        rewrite (no_raise_codes _ Hraised), collect_return_code_codes in Hout.
        discriminate.
      * intros Hraised. rewrite Hout.
        now apply collect_return_code_raised.
Qed.

(** C4 (amended).  When the placeholder does not occur in the command
    template, [main] ends with [SystemExit(EXIT_NO_PLACEHOLDER)], a code
    different from every other code the script defines; standard input is
    not read, no command is built or run, and the only effect is the error
    line. *)
Theorem missing_placeholder_rejected (args : Namespace) (sched : list event)
  (st : state) :
  contains (args_placeholder args) (args_command args) = false →
  main args sched st
  = Some (SystemExit EXIT_NO_PLACEHOLDER,
          eprint (MsgNoPlaceholder (args_placeholder args)) st) ∧
  (EXIT_NO_PLACEHOLDER ∉ [EXIT_OK; EXIT_USAGE; EXIT_BAD_ENV;
                          EXIT_NEEDS_NO_STDIN_FOR_PAR; EXIT_CHILD_FAILED]).
Proof.
  intros Hph. split.
  - unfold Each.main, Each.parse_args. now rewrite Hph.
  - intros H. repeat (apply elem_of_cons in H as [H|H]; [discriminate|]).
    inversion H.
Qed.

(** C9.  A configuration with [max_procs > 1] and without [--no-stdin] is
    rejected by [SystemExit] with one of the configuration error codes, none
    of which is 0 or the child failure code; it is
    [EXIT_NEEDS_NO_STDIN_FOR_PAR] when the two earlier checks pass.  Standard
    input is not read and no command is built or run: the final state is the
    initial one plus the error line. *)
Theorem parallel_needs_no_stdin (args : Namespace) (sched : list event)
  (st : state) :
  (1 < args_max_procs args)%Z →
  args_no_stdin args = false →
  ∃ (code : Z) (msg : message),
    main args sched st = Some (SystemExit code, eprint msg st) ∧
    (code = EXIT_NO_PLACEHOLDER ∨ code = EXIT_BAD_ENV ∨
     code = EXIT_NEEDS_NO_STDIN_FOR_PAR) ∧
    code ≠ EXIT_OK ∧ code ≠ EXIT_CHILD_FAILED ∧
    (contains (args_placeholder args) (args_command args) = true →
     (∃ m, apply_environment environ (args_env args) = inr m) →
     code = EXIT_NEEDS_NO_STDIN_FOR_PAR ∧ msg = MsgNeedsNoStdin).
Proof.
  intros Hmax Hstdin.
  destruct (parse_args args st) as [[code|args'] st1] eqn:Hparse.
  - destruct (parse_args_rejects environ args st code) as (msg & Hrej & Hcode);
      [now rewrite Hparse|].
    exists code, msg. unfold Each.main. rewrite Hrej.
    split; [reflexivity|]. split; [assumption|].
    split; [destruct Hcode as [-> | [-> | ->]]; discriminate|].
    split; [destruct Hcode as [-> | [-> | ->]]; discriminate|].
    intros Hph [m Hm]. unfold Each.parse_args in Hrej.
    rewrite Hph, Hm in Hrej. simpl in Hrej.
    destruct (Z.ltb_spec 1 (args_max_procs args)); [|lia].
    rewrite Hstdin in Hrej. simpl in Hrej. injection Hrej as <- Hmsg.
    split; [reflexivity|].
    apply app_inv_head in Hmsg. congruence.
  - exfalso.
    destruct (parse_args_ok environ args args' st) as (_ & _ & _ & Hguard);
      [now rewrite Hparse|].
    destruct (Z.ltb_spec 1 (args_max_procs args)); [|lia].
    rewrite Hstdin in Hguard. discriminate.
Qed.

(** C10.  Under the guard [rc != 0] the expression [rc or EXIT_CHILD_FAILED]
    is [rc]; and whenever [main] returns, in any mode, the value is 0 or one
    of the return codes it received from the children of this run. *)
Theorem return_code_is_zero_or_child_code (args : Namespace)
  (sched : list event) (st st' : state) (rc : Z) :
  main args sched st = Some (Return rc, st') →
  (∀ r, r ≠ 0%Z → py_or r EXIT_CHILD_FAILED = r) ∧
  ∃ codes, reported st' = reported st ++ codes ∧ (rc = 0%Z ∨ rc ∈ codes).
Proof.
  intros Hmain. split; [intros r Hr; now apply py_or_nonzero|].
  apply main_cases in Hmain as [(code & msg & [=] & _)|[_ Hmain]].
  cbv zeta in Hmain.
  destruct Hmain as [([=] & _)|(text & env & _ & Hmain)]. cbv zeta in Hmain.
  set (tokens := tokenize_input _ _ _ _ _) in Hmain.
  set (st2 := (decode_stdin decode _ _ st).2) in Hmain.
  assert (Hr2 : reported st2 = reported st) by reflexivity.
  destruct Hmain as [(_ & [= ->] & ->)|[(_ & _ & Hdry)|[(_ & _ & _ & Hseq)|
                     (_ & _ & _ & Hpar)]]].
  - exists []. rewrite app_nil_r. auto.
  - destruct (dry_run_loop_spec encodable (args_command args)
                (args_placeholder args) (negb (args_no_quote args)) tokens
                st2) as (n & _ & _ & _ & (_ & Hr & _) & Hfin).
    cbv zeta in Hr, Hfin. rewrite <- Hdry in Hr, Hfin. cbn [fst snd] in *.
    exists []. rewrite app_nil_r, Hr. split; [assumption|].
    destruct Hfin as [([= ->] & _)|([=] & _)]. now left.
  - destruct (sequential_loop_spec subprocess_run args env tokens st2)
      as (n & codes & Hspec). cbv zeta in Hspec. rewrite <- Hseq in Hspec.
    cbn [fst snd] in Hspec.
    destruct Hspec as (_ & _ & _ & _ & Hr & _ & _ & _ & Hfin).
    exists codes. split; [now rewrite Hr|].
    destruct Hfin as [([= ->] & _)|[(rc' & zeros & [= ->] & _ & -> & _)|
                      ([=] & _)]]; [now left | right].
    apply elem_of_app. right. now left.
  - destruct (parallel_path_spec args tokens sched st2 st' (Return rc) Hpar)
      as (ran & tr & before & after & order & early & codes & _ & _ & _
          & _ & _ & _ & _ & _ & _ & Hout & Hrep & Hcodes).
    symmetry in Hout. apply collect_return_code_returns in Hout as Hnone.
    rewrite <- (Hcodes Hnone), collect_return_code_codes in Hout.
    injection Hout as <-.
    exists codes. split; [now rewrite Hrep|]. apply first_nonzero_elem.
Qed.

End OrchestratorProperties.
(** ** Instances *)

(** Tokens [a, b, c] in sequential mode, the command for [b] exits 2: the
    commands for [a] and [b] run, [main] returns 2. *)
Example sequential_abc :
  main second_fails latin1 utf8_strict ∅ (echo_args "{}" 1 false) []
    (initial_state abc_lines)
  = Some (Return 2%Z, abc_sequential_final).
Proof. vm_compute. reflexivity. Qed.

(** [each -P 3 --no-stdin 'exit {}'] on the tokens 1, 3, 2, with
    [as_completed] called while the second and third child are running:
    [main] receives the codes in order of completion and returns the
    first. *)
Example parallel_exit_late :
  main shell_exit latin1 utf8_strict ∅ (exit_args 3) late_schedule
    (initial_state exit_lines)
  = Some (Return 1%Z, late_final).
Proof. vm_compute. reflexivity. Qed.


(** C2, as stated, fails.  [each -P 3 --no-stdin 'exit {}'] on the tokens
    1, 3, 2: the children end in submission order with the codes 1, 3, 2,
    so the first non-zero code in completion order is 1; all three have
    ended when [as_completed] is called, the set that then holds the
    finished futures is iterated with the second future first, and [main]
    returns 3. *)
Lemma first_completed_code_not_returned :
  let args := exit_args 3 in
  (1 < args_max_procs args)%Z ∧
  main shell_exit latin1 utf8_strict ∅ args early_schedule
    (initial_state exit_lines)
  = Some (Return 3%Z, early_final) ∧
  completion_codes early_schedule = [1; 3; 2]%Z ∧
  first_nonzero (completion_codes early_schedule) = 1%Z.
Proof. vm_compute. repeat split. Qed.

Lemma parallel_runs_all_keeps_first_delivered_witness :
  let args := exit_args 3 in
  let st := initial_state exit_lines in
  let tokens := tokenize_input exit_lines None false false false in
  ((parse_args ∅ args st).1 = inr args ∧
   latin1 (args_encoding args) (args_errors args) (stdin_data st)
   = Some exit_lines ∧
   args_dry_run args = false ∧ (1 < args_max_procs args)%Z) ∧
  (∀ (w : nat) (codes : list Z),
     length codes = length tokens →
     ∃ st', main shell_exit latin1 utf8_strict ∅ args (one_by_one w codes) st
            = Some (Return (first_nonzero codes), st') ∧
            reported st' = reported st ++ codes) ∧
  ∀ (sched : list event) (out : outcome) (st' : Each.state),
    main shell_exit latin1 utf8_strict ∅ args sched st = Some (out, st') →
    ∃ (ran : list str) (codes : list Z),
      built st' = built st ++ (command_for args <$> tokens) ∧
      spawned st' = spawned st ++ ran ∧
      ran ≡ₚ command_for args <$> tokens ∧
      reported st' = reported st ++ codes ∧
      (∀ rc, out = Return rc →
         length codes = length tokens ∧
         rc = first_nonzero codes ∧
         (rc = 0%Z ↔ Forall (eq 0%Z) codes) ∧
         (tokens ≠ [] →
          ∃ (before after : list event) (order : list nat) (early : list Z),
            sched = before ++ Collect order :: after ∧
            early ≡ₚ completion_codes before ∧
            codes = early ++ completion_codes after)) ∧
      (tokens ≠ [] →
       length (completion_results sched) = length tokens ∧
       (out = Raised ↔ None ∈ completion_results sched)).
Proof.
  intros args st tokens. split.
  - repeat split; reflexivity.
  - apply (parallel_runs_all_keeps_first_delivered shell_exit latin1
             utf8_strict ∅ args st exit_lines); reflexivity.
Defined.

Lemma missing_placeholder_rejected_witness :
  let args := echo_args "{FILE}" 1 false in
  let st := initial_state abc_lines in
  contains (args_placeholder args) (args_command args) = false ∧
  main second_fails latin1 utf8_strict ∅ args [] st
  = Some (SystemExit EXIT_NO_PLACEHOLDER,
          eprint (MsgNoPlaceholder (args_placeholder args)) st) ∧
  (EXIT_NO_PLACEHOLDER ∉ [EXIT_OK; EXIT_USAGE; EXIT_BAD_ENV;
                          EXIT_NEEDS_NO_STDIN_FOR_PAR; EXIT_CHILD_FAILED]).
Proof.
  intros args st. split; [reflexivity|].
  apply (missing_placeholder_rejected second_fails latin1 utf8_strict ∅ args
           [] st).
  reflexivity.
Defined.

(** C4, as stated, fails for the empty placeholder: the substring test
    accepts it, standard input is read and a command is run. *)
Lemma empty_placeholder_not_rejected :
  let args := echo_args "" 1 false in
  args_placeholder args = [] ∧
  ∃ st', main second_fails latin1 utf8_strict ∅ args []
           (initial_state (py "x"))
         = Some (Return 0%Z, st') ∧
         stdin_read st' = true ∧
         spawned st' = [py "xexcxhxox x{x}x"].
Proof.
  split; [reflexivity|]. eexists. split; [vm_compute; reflexivity|].
  split; reflexivity.
Qed.

Lemma parallel_needs_no_stdin_witness :
  let args := echo_args "{}" 4 false in
  let st := initial_state abc_lines in
  ((1 < args_max_procs args)%Z ∧ args_no_stdin args = false) ∧
  ∃ (code : Z) (msg : message),
    main second_fails latin1 utf8_strict ∅ args [] st
    = Some (SystemExit code, eprint msg st) ∧
    (code = EXIT_NO_PLACEHOLDER ∨ code = EXIT_BAD_ENV ∨
     code = EXIT_NEEDS_NO_STDIN_FOR_PAR) ∧
    code ≠ EXIT_OK ∧ code ≠ EXIT_CHILD_FAILED ∧
    (contains (args_placeholder args) (args_command args) = true →
     (∃ m, apply_environment ∅ (args_env args) = inr m) →
     code = EXIT_NEEDS_NO_STDIN_FOR_PAR ∧ msg = MsgNeedsNoStdin).
Proof.
  intros args st. split; [split; reflexivity|].
  apply (parallel_needs_no_stdin second_fails latin1 utf8_strict ∅ args []
           st);
    reflexivity.
Defined.

Lemma return_code_is_zero_or_child_code_witness :
  let args := echo_args "{}" 1 false in
  let st := initial_state abc_lines in
  main second_fails latin1 utf8_strict ∅ args [] st
  = Some (Return 2%Z, abc_sequential_final) ∧
  (∀ r, r ≠ 0%Z → py_or r EXIT_CHILD_FAILED = r) ∧
  ∃ codes, reported abc_sequential_final = reported st ++ codes ∧
           (2%Z = 0%Z ∨ 2%Z ∈ codes).
Proof.
  intros args st. split; [reflexivity|].
  apply (return_code_is_zero_or_child_code second_fails latin1 utf8_strict ∅
           args [] st abc_sequential_final 2%Z).
  reflexivity.
Defined.

(** * The parallel path always comes to an end *)

(** X26.  The parallel path is never stuck: however far an execution of the
    pool has got (any number of tokens submitted, children started, ended or
    collected, in any interleaving the pool allows), it can be continued to
    a complete execution, in which every token is submitted, every child has
    ended and [main] has left the [with] block. *)
Theorem parallel_path_never_stuck {World : Type} (args : Namespace)
  (tokens : list str) (sched : list (@event World)) (st : @state World)
  (p : @pool World) :
  (1 ≤ args_max_procs args)%Z →
  pool_run args sched
    {| pool_todo := tokens; pool_futures := []; pool_completed := [];
       pool_order := None; pool_results := []; pool_state := st |}
  = Some p →
  ∃ (rest : list (@event World)) (out : outcome) (st' : @state World),
    parallel_path args tokens (sched ++ rest) st = Some (out, st').
Proof.
  intros Hmax Hrun.
  pose proof (pool_run_inv args tokens st sched _ p
                (pool_inv_init args tokens st) Hrun) as Hinv.
  destruct (pool_run_completes args tokens st Hmax p Hinv)
    as (rest & p' & Hrest & Hdone).
  exists rest. unfold parallel_path.
  rewrite pool_run_app, Hrun, Hrest, Hdone. eauto.
Qed.

Lemma parallel_path_never_stuck_witness :
  let args := echo_args "{}" 2 true in
  let tokens := [py "a"; py "b"; py "c"] in
  let sched := [Submit; Start 0; Submit; Trace 0; Start 1; Spawn 0;
                Finish 0 (Some 0%Z) 1] in
  let st := initial_state [] in
  ((1 ≤ args_max_procs args)%Z ∧
   ∃ p, pool_run args sched
          {| pool_todo := tokens; pool_futures := []; pool_completed := [];
             pool_order := None; pool_results := []; pool_state := st |}
        = Some p) ∧
  ∃ (rest : list event) (out : outcome) (st' : Each.state),
    parallel_path args tokens (sched ++ rest) st = Some (out, st').
Proof.
  intros args tokens sched st.
  assert (Hmax : (1 ≤ args_max_procs args)%Z) by (simpl; lia).
  assert (Hrun : ∃ p, pool_run args sched
            {| pool_todo := tokens; pool_futures := []; pool_completed := [];
               pool_order := None; pool_results := []; pool_state := st |}
          = Some p) by (eexists; vm_compute; reflexivity).
  split; [split; assumption|].
  destruct Hrun as [p Hrun].
  exact (parallel_path_never_stuck args tokens sched st p Hmax Hrun).
Defined.

(** * The tokenizer: post-processing and line splitting *)

Lemma collect_tokens_drop_empty (strip_ws : bool) (parts : list str) :
  [] ∉ collect_tokens false strip_ws parts.
Proof.
  induction parts as [|part rest IH]; simpl.
  - intros H. inversion H.
  - destruct (if strip_ws then strip part else part) as [|c token] eqn:Htok;
      simpl; [assumption|].
    intros H. apply elem_of_cons in H as [H|H]; [discriminate | now apply IH].
Qed.

Lemma collect_tokens_keep_empty (strip_ws : bool) (parts : list str) :
  collect_tokens true strip_ws parts
  = (fun part => if strip_ws then strip part else part) <$> parts.
Proof.
  induction parts as [|part rest IH]; simpl; [reflexivity|].
  rewrite andb_false_r. now rewrite IH.
Qed.

(** C6.  With [keep_empty] false no token is the empty string; with
    [keep_empty] true the tokens are the pieces of the raw split, each
    stripped when [strip_ws] is set, in the same order and number.  This
    holds for each of the three splitting strategies. *)
Theorem keep_empty_policy (text : str) (delimiters : option (list str))
  (use_null strip_ws : bool) :
  ([] ∉ tokenize_input text delimiters use_null false strip_ws) ∧
  tokenize_input text delimiters use_null true strip_ws
  = ((fun part => if strip_ws then strip part else part)
       <$> split_parts text delimiters use_null) ∧
  length (tokenize_input text delimiters use_null true strip_ws)
  = length (split_parts text delimiters use_null).
Proof.
  unfold tokenize_input. split; [apply collect_tokens_drop_empty|].
  rewrite collect_tokens_keep_empty. split; [reflexivity | apply length_fmap].
Qed.

(** The step [splitlines] takes after a line break that is not the first
    half of ["\r\n"]. *)
Lemma splitlines_go_break (fresh : bool) (cur : str) (c : char) (t : str) :
  is_linebreak c = true →
  (N.eqb c CR = false ∨ ∀ t', t ≠ LF :: t') →
  splitlines_go fresh cur (c :: t) = cur :: splitlines_go true [] t.
Proof.
  intros Hbreak Hnot. simpl. rewrite Hbreak. f_equal.
  destruct t as [|c' t'']; [reflexivity|].
  destruct Hnot as [Hc|Hlf].
  - now rewrite Hc.
  - destruct (N.eqb_spec c' LF) as [->|Hc'].
    + now destruct (Hlf t'').
    + now rewrite andb_false_r.
Qed.

Lemma splitlines_go_normalize (n : nat) (t : str) :
  length t ≤ n →
  ∀ (fresh : bool) (cur : str),
    splitlines_go fresh cur (normalize_newlines t) = splitlines_go fresh cur t.
Proof.
  revert t. induction n as [|n IH]; intros t Hlen fresh cur.
  - destruct t; [reflexivity | simpl in Hlen; lia].
  - destruct t as [|c t']; [reflexivity|]. simpl in Hlen.
    cbn [normalize_newlines]. destruct (N.eqb_spec c CR) as [->|Hc].
    + destruct t' as [|c' t''].
      * reflexivity.
      * destruct (N.eqb_spec c' LF) as [->|Hc'].
        -- rewrite splitlines_go_break; [|reflexivity | now left].
           simpl. f_equal. apply IH. simpl in Hlen. lia.
        -- rewrite splitlines_go_break; [|reflexivity | now left].
           rewrite (splitlines_go_break fresh cur CR (c' :: t''));
             [|reflexivity | right; congruence].
           f_equal. apply IH. lia.
    + assert (Hc' : N.eqb c CR = false) by now apply N.eqb_neq.
      destruct (is_linebreak c) eqn:Hbreak.
      * rewrite !splitlines_go_break by auto. f_equal. apply IH. lia.
      * simpl. rewrite Hbreak. apply IH. lia.
Qed.

(** C7.  With no delimiter configured and NUL mode off, a text and the same
    text with its ["\r\n"] and ["\r"] line endings normalized to ["\n"] give
    the same tokens, under every setting of [keep_empty] and [strip_ws]. *)
Theorem tokenize_line_endings_normalized (text : str)
  (keep_empty strip_ws : bool) :
  tokenize_input (normalize_newlines text) None false keep_empty strip_ws
  = tokenize_input text None false keep_empty strip_ws.
Proof.
  unfold tokenize_input, split_parts, splitlines.
  now rewrite (splitlines_go_normalize (length text)).
Qed.

(** A text that mixes the three line endings. *)
Example tokenize_mixed_line_endings :
  let text := py "a" ++ [CR; LF] ++ py "b" ++ [CR] ++ py "c" ++ [LF; CR]
              ++ py "d" in
  normalize_newlines text
  = py "a" ++ [LF] ++ py "b" ++ [LF] ++ py "c" ++ [LF; LF] ++ py "d" ∧
  tokenize_input text None false true false
  = [py "a"; py "b"; py "c"; []; py "d"].
Proof. split; reflexivity. Qed.

(** * The command builder *)

Lemma startswith_spec (p t : str) :
  startswith p t = true ↔ ∃ r, t = p ++ r.
Proof.
  revert t. induction p as [|a p IH]; intros t; simpl.
  - split; eauto.
  - destruct t as [|b t].
    + split; [discriminate | intros [r Hr]; discriminate].
    + rewrite andb_true_iff, N.eqb_eq, IH. split.
      * intros [-> [r ->]]. eauto.
      * intros [r [= -> ->]]. eauto.
Qed.

Lemma startswith_app (p r : str) : startswith p (p ++ r) = true.
Proof. apply startswith_spec. eauto. Qed.

Lemma startswith_drop (p t : str) :
  startswith p t = true → t = p ++ drop (length p) t.
Proof.
  intros H. apply startswith_spec in H as [r ->].
  now rewrite drop_app_length.
Qed.

Lemma contains_spec (p t : str) :
  contains p t = true ↔ ∃ a b, t = a ++ p ++ b.
Proof.
  induction t as [|c t IH]; simpl.
  - rewrite orb_false_r, startswith_spec. split.
    + intros [r Hr]. now exists [], r.
    + intros (a & b & H). destruct a; [eauto|discriminate].
  - rewrite orb_true_iff, startswith_spec, IH. split.
    + intros [[r Hr]|(a & b & ->)]; [now exists [], r|].
      now exists (c :: a), b.
    + intros (a & b & H). destruct a as [|c' a]; [left; eauto|].
      right. injection H as -> ->. eauto.
Qed.

Lemma replace_go_skip (old new : str) (k : nat) (t : str) :
  replace_go old new k t = replace_go old new 0 (drop k t).
Proof.
  revert t. induction k as [|k IH]; intros t; [reflexivity|].
  destruct t as [|c t]; [reflexivity|]. simpl. apply IH.
Qed.

(** One pass of the scan: either [old] does not occur and the text is kept,
    or the text splits at the first occurrence. *)
Lemma replace_go_scan (old new : str) (t : str) :
  old ≠ [] →
  (contains old t = false ∧ replace_go old new 0 t = t) ∨
  (∃ pre rest, t = pre ++ old ++ rest ∧
     (∀ k, k < length pre → startswith old (drop k t) = false) ∧
     replace_go old new 0 t = pre ++ new ++ replace_go old new 0 rest).
Proof.
  intros Hold. induction t as [|c t IH].
  - left. destruct old; [contradiction | auto].
  - destruct (startswith old (c :: t)) eqn:Hstart.
    + right. exists [], (drop (length old) (c :: t)). split; [|split].
      * now apply startswith_drop.
      * simpl. lia.
      * simpl replace_go. rewrite Hstart. simpl. f_equal.
        rewrite replace_go_skip. f_equal.
        destruct old as [|a old]; [contradiction|]. simpl.
        now rewrite Nat.sub_0_r.
    + destruct IH as [[Hno Hsame]|(pre & rest & -> & Hfirst & Hgo)].
      * left. simpl contains. rewrite Hstart, Hno. simpl replace_go.
        rewrite Hstart, Hsame. auto.
      * right. exists (c :: pre), rest. split; [reflexivity|]. split.
        -- intros [|k] Hk; [assumption|]. simpl. apply Hfirst.
           simpl in Hk. lia.
        -- simpl replace_go. rewrite Hstart. simpl. now rewrite Hgo.
Qed.

Lemma replace_go_all (old new : str) (n : nat) (t : str) :
  old ≠ [] → length t ≤ n →
  replaced_all old new t (replace_go old new 0 t).
Proof.
  intros Hold. revert t. induction n as [|n IH]; intros t Hlen.
  - destruct t; [|simpl in Hlen; lia]. apply replaced_none; [assumption|].
    intros a b H. destruct a, old; try discriminate. contradiction.
  - destruct (replace_go_scan old new t Hold)
      as [[Hno ->]|(pre & rest & -> & Hfirst & ->)].
    + apply replaced_none; [assumption|]. intros a b ->.
      assert (contains old (a ++ old ++ b) = true)
        by (apply contains_spec; eauto).
      congruence.
    + apply replaced_first; [assumption| |].
      * intros a b Heq.
        destruct (Nat.le_gt_cases (length pre) (length a)) as [|Hlt];
          [assumption|].
        specialize (Hfirst (length a) Hlt).
        rewrite Heq, drop_app_length, startswith_app in Hfirst.
        discriminate.
      * apply IH. rewrite !length_app in Hlen.
        destruct old; [contradiction|]. simpl in Hlen. lia.
Qed.

Lemma intersperse_before_all (new : str) (t : str) :
  replaced_all [] new t (intersperse_before new t).
Proof.
  induction t as [|c t IH]; simpl.
  - now apply replaced_empty_end.
  - now apply replaced_empty_char.
Qed.

(** [str.replace] replaces every occurrence. *)
Lemma replace_all (t old new : str) :
  replaced_all old new t (replace t old new).
Proof.
  unfold replace. destruct old as [|a old].
  - apply intersperse_before_all.
  - now apply (replace_go_all _ _ (length t)).
Qed.

(** The relation determines its result. *)
Lemma replaced_all_functional (old new t r1 r2 : str) :
  replaced_all old new t r1 → replaced_all old new t r2 → r1 = r2.
Proof.
  intros H1. revert r2.
  induction H1 as [t Hold Hno|pre rest r Hold Hfirst Hrest IH|Hold|c t r Hold Ht IH];
    intros r2 H2.
  - inversion H2; subst; try congruence.
  - remember (pre ++ old ++ rest) as t eqn:Ht.
    destruct H2 as [t Hold2 Hno|pre' rest' r' Hold2 Hfirst' Hrest'|Hold2|c t' r' Hold2 Ht'];
      try congruence.
    assert (Hlen : length pre = length pre').
    { apply Nat.le_antisymm.
      - apply (Hfirst pre' rest'). now symmetry.
      - apply (Hfirst' pre rest). assumption. }
    apply app_inj_1 in Ht as [-> Ht]; [|now symmetry].
    apply app_inv_head in Ht as ->. f_equal. f_equal. now apply IH.
  - inversion H2; subst; congruence.
  - inversion H2; subst; try congruence.
    f_equal. f_equal. now apply IH.
Qed.

(** C5.  With quoting enabled the built command is the template with every
    occurrence of the placeholder replaced by [shlex.quote] of the token, the
    inserted text never being searched again; it is the only string with
    that property.  For the empty token the inserted text is [''], and the
    inserted text is never empty. *)
Theorem build_command_replaces_every_occurrence
  (template placeholder token : str) :
  replaced_all placeholder (Shlex.quote token) template
    (build_command template placeholder token true) ∧
  (∀ r, replaced_all placeholder (Shlex.quote token) template r →
        r = build_command template placeholder token true) ∧
  replaced_all placeholder [SQUOTE; SQUOTE] template
    (build_command template placeholder [] true) ∧
  Shlex.quote token ≠ [].
Proof.
  unfold build_command. split; [apply replace_all|]. split; [|split].
  - intros r Hr. eapply replaced_all_functional; [eassumption|].
    apply replace_all.
  - apply (replace_all template placeholder (Shlex.quote [])).
  - unfold Shlex.quote. destruct token as [|c token]; [discriminate|].
    cbn [is_empty]. destruct (forallb is_safe (c :: token)); discriminate.
Qed.

Lemma build_command_replaces_every_occurrence_witness :
  replaced_all (py "{}") (Shlex.quote (py "a b")) (py "mv {} {}.bak")
    (build_command (py "mv {} {}.bak") (py "{}") (py "a b") true) ∧
  (∀ r, replaced_all (py "{}") (Shlex.quote (py "a b")) (py "mv {} {}.bak") r →
        r = build_command (py "mv {} {}.bak") (py "{}") (py "a b") true) ∧
  replaced_all (py "{}") [SQUOTE; SQUOTE] (py "mv {} {}.bak")
    (build_command (py "mv {} {}.bak") (py "{}") [] true) ∧
  Shlex.quote (py "a b") ≠ [].
Proof.
  exact (build_command_replaces_every_occurrence
           (py "mv {} {}.bak") (py "{}") (py "a b")).
Defined.

(** The token may contain the placeholder, and the placeholder may occur
    several times. *)
Example build_command_token_is_placeholder :
  build_command (py "cp {} {}.bak") (py "{}") (py "{}") true
  = py "cp '{}' '{}'.bak" ∧
  build_command (py "test -n {}") (py "{}") [] true = py "test -n ''" ∧
  build_command (py "echo {}") (py "{}") (py "it's") true
  = py "echo 'it'" ++ [DQUOTE] ++ py "'" ++ [DQUOTE] ++ py "'s'".
Proof. repeat split; reflexivity. Qed.

(** * Splitting on configured delimiters *)

Lemma admissible_test (d : str) (adv : bool) (t : str) :
  startswith d t && negb (adv && is_empty d) = true ↔ admissible d adv t.
Proof.
  unfold admissible. rewrite andb_true_iff, negb_true_iff.
  destruct adv, d as [|c d]; simpl; intuition congruence.
Qed.

Lemma match_at_Some (alts : Re.pattern) (adv : bool) (t d : str) :
  match_at alts adv t = Some d → first_listed alts adv t d.
Proof.
  induction alts as [|d0 alts IH]; simpl; [discriminate|].
  destruct (startswith d0 t && negb (adv && is_empty d0)) eqn:Htest.
  - intros [= ->]. exists [], alts. split; [reflexivity|].
    split; [now apply admissible_test | constructor].
  - intros H. destruct (IH H) as (l1 & l2 & -> & Hadm & Hnone).
    exists (d0 :: l1), l2. split; [reflexivity|]. split; [assumption|].
    constructor; [|assumption].
    rewrite <- admissible_test. congruence.
Qed.

Lemma match_at_None (alts : Re.pattern) (adv : bool) (t : str) :
  match_at alts adv t = None → ∀ d, d ∈ alts → ¬ admissible d adv t.
Proof.
  induction alts as [|d0 alts IH]; simpl.
  - intros _ d Hd. inversion Hd.
  - destruct (startswith d0 t && negb (adv && is_empty d0)) eqn:Htest;
      [discriminate|].
    intros H d Hd. apply elem_of_cons in Hd as [->|Hd]; [|now apply IH].
    rewrite <- admissible_test. congruence.
Qed.

Lemma search_Some (alts : Re.pattern) (t : str) :
  ∀ (adv : bool) (pre d rest : str),
    search alts adv t = Some (pre, d, rest) →
    t = pre ++ d ++ rest ∧
    (∀ k d', k < length pre → d' ∈ alts →
             ¬ admissible d' (adv && Nat.eqb k 0) (drop k t)) ∧
    first_listed alts (adv && is_empty pre) (d ++ rest) d.
Proof.
  induction t as [|c t IH]; intros adv pre d rest; simpl;
    destruct (match_at alts adv _) as [d0|] eqn:Hmatch.
  - intros [= <- <- <-]. apply match_at_Some in Hmatch.
    rewrite andb_true_r. pose proof Hmatch as (_ & _ & _ & [Hs _] & _).
    apply startswith_drop in Hs.
    split; [exact Hs|]. split; [simpl; lia|]. rewrite <- Hs. exact Hmatch.
  - discriminate.
  - intros [= <- <- <-]. apply match_at_Some in Hmatch.
    rewrite andb_true_r. pose proof Hmatch as (_ & _ & _ & [Hs _] & _).
    apply startswith_drop in Hs.
    split; [exact Hs|]. split; [simpl; lia|]. rewrite <- Hs. exact Hmatch.
  - destruct (search alts false t) as [[[b d1] a]|] eqn:Hsearch;
      [|discriminate].
    intros [= <- <- <-].
    destruct (IH false b d1 a Hsearch) as (-> & Hleft & Hfirst).
    split; [reflexivity|]. split.
    + intros [|k] d' Hk Hd'.
      * simpl. rewrite andb_true_r. eapply match_at_None; eassumption.
      * simpl. rewrite andb_false_r. apply (Hleft k d'); [|assumption].
        simpl in Hk. lia.
    + simpl. rewrite andb_false_r. exact Hfirst.
Qed.

Lemma search_None (alts : Re.pattern) (t : str) :
  ∀ (adv : bool),
    search alts adv t = None →
    ∀ k d, k ≤ length t → d ∈ alts →
           ¬ admissible d (adv && Nat.eqb k 0) (drop k t).
Proof.
  induction t as [|c t IH]; intros adv; simpl;
    destruct (match_at alts adv _) as [d0|] eqn:Hmatch; try discriminate.
  - intros _ k d Hk Hd. assert (k = 0) as -> by lia.
    simpl. rewrite andb_true_r. eapply match_at_None; eassumption.
  - destruct (search alts false t) as [[[b d1] a]|] eqn:Hsearch;
      [discriminate|].
    intros _ [|k] d Hk Hd.
    + simpl. rewrite andb_true_r. eapply match_at_None; eassumption.
    + simpl. rewrite andb_false_r. apply (IH false Hsearch k d); [lia|assumption].
Qed.

Lemma search_iterations (alts : Re.pattern) (adv : bool) (t pre d rest : str) :
  search alts adv t = Some (pre, d, rest) →
  iterations_needed (is_empty d) rest < iterations_needed adv t.
Proof.
  intros H. apply search_Some in H as (-> & _ & Hfirst).
  destruct Hfirst as (_ & _ & _ & [_ Hadv] & _).
  unfold iterations_needed. rewrite !length_app.
  destruct d as [|c d]; simpl.
  - destruct pre as [|c pre]; simpl; [|lia].
    destruct adv; [|lia]. now destruct Hadv.
  - lia.
Qed.

Lemma split_loop_by (alts : Re.pattern) (fuel : nat) :
  ∀ (adv : bool) (t : str),
    iterations_needed adv t < fuel →
    split_by first_listed alts adv t (split_loop fuel alts adv t).
Proof.
  induction fuel as [|fuel IH]; intros adv t Hfuel; [lia|].
  simpl. destruct (search alts adv t) as [[[pre d] rest]|] eqn:Hsearch.
  - pose proof (search_iterations _ _ _ _ _ _ Hsearch) as Hless.
    destruct (search_Some _ _ _ _ _ _ Hsearch) as (-> & Hleft & Hfirst).
    apply split_by_match; [assumption | assumption|]. apply IH. lia.
  - apply split_by_last. now apply search_None.
Qed.

(** The description determines the cut. *)
Lemma first_listed_functional (alts : Re.pattern) (adv : bool)
  (t d1 d2 : str) :
  first_listed alts adv t d1 → first_listed alts adv t d2 → d1 = d2.
Proof.
  intros (l1 & l2 & -> & Hd1 & Hl1) (l1' & l2' & Heq & Hd2 & Hl1').
  revert l1' Heq Hl1'. induction Hl1 as [|x l1 Hx Hl1 IH]; intros l1' Heq Hl1'.
  - destruct Hl1' as [|x' l1' Hx' Hl1']; simpl in Heq.
    + congruence.
    + injection Heq as -> _. contradiction.
  - destruct Hl1' as [|x' l1' Hx' Hl1']; simpl in Heq.
    + injection Heq as -> _. contradiction.
    + injection Heq as -> Heq. now apply (IH l1').
Qed.

Lemma first_listed_in_text (alts : Re.pattern) (adv : bool)
  (pre d rest : str) :
  first_listed alts (adv && is_empty pre) (d ++ rest) d →
  d ∈ alts ∧
  admissible d (adv && Nat.eqb (length pre) 0)
    (drop (length pre) (pre ++ d ++ rest)).
Proof.
  intros (l1 & l2 & -> & Hadm & _). split.
  - apply elem_of_app. right. left.
  - rewrite drop_app_length. now destruct pre.
Qed.

Lemma split_by_functional (alts : Re.pattern) (adv : bool) (t : str)
  (segs1 segs2 : list (str * option str)) :
  split_by first_listed alts adv t segs1 →
  split_by first_listed alts adv t segs2 →
  segs1 = segs2.
Proof.
  intros H1. revert segs2.
  induction H1 as [adv t Hnone|adv pre d rest segs Hleft Hchoice Hrest IH];
    intros segs2 H2.
  - inversion H2 as [|adv' pre' d' rest' segs' Hleft' Hchoice' Hrest'];
      subst; [reflexivity|].
    apply first_listed_in_text in Hchoice' as [Hin Hadm].
    destruct (Hnone (length pre') d'); [|assumption|assumption].
    rewrite length_app. lia.
  - remember (pre ++ d ++ rest) as t eqn:Ht.
    destruct H2 as [adv t Hnone|adv pre' d' rest' segs' Hleft' Hchoice' Hrest'].
    + subst t. apply first_listed_in_text in Hchoice as [Hin Hadm].
      destruct (Hnone (length pre) d); [|assumption|assumption].
      rewrite length_app. lia.
    + assert (Hlen : length pre = length pre').
      { pose proof (first_listed_in_text _ _ _ _ _ Hchoice) as [Hin Hadm].
        pose proof (first_listed_in_text _ _ _ _ _ Hchoice') as [Hin' Hadm'].
        destruct (Nat.lt_trichotomy (length pre) (length pre'))
          as [Hlt|[Heq|Hgt]]; [|assumption|].
        - destruct (Hleft' (length pre) d Hlt Hin). now rewrite Ht.
        - destruct (Hleft (length pre') d' Hgt Hin'). exact Hadm'. }
      apply app_inj_1 in Ht as [-> Ht]; [|now symmetry].
      rewrite Ht in Hchoice'.
      assert (d' = d) as ->
        by (eapply first_listed_functional; eassumption).
      apply app_inv_head in Ht as ->. f_equal. now apply IH.
Qed.

(** C3 (amended).  Splitting on the configured delimiters cuts the text at
    successive matches; each match is at the leftmost position where some
    delimiter can be matched, and the delimiter consumed there is the first
    one, in the configured order, that can be matched at that position (an
    empty delimiter cannot be matched at the position that follows an empty
    match).  No other cut of the text has this property, and the tokenizer's
    pieces are the texts between the matches. *)
Theorem delimiters_first_listed_wins (d : str) (ds : list str) (text : str) :
  split_by first_listed (compile_delimiters_regex (d :: ds)) false text
    (Re.split_trace (compile_delimiters_regex (d :: ds)) text) ∧
  (∀ segs, split_by first_listed (compile_delimiters_regex (d :: ds)) false
             text segs →
           segs = Re.split_trace (compile_delimiters_regex (d :: ds)) text) ∧
  split_parts text (Some (d :: ds)) false
  = (Re.split_trace (compile_delimiters_regex (d :: ds)) text).*1.
Proof.
  assert (Htrace : split_by first_listed (compile_delimiters_regex (d :: ds))
                     false text
                     (Re.split_trace (compile_delimiters_regex (d :: ds)) text)).
  { unfold Re.split_trace. apply split_loop_by.
    unfold iterations_needed. lia. }
  split; [exact Htrace|]. split; [|reflexivity].
  intros segs Hsegs. eapply split_by_functional; eassumption.
Qed.

Lemma delimiters_first_listed_wins_witness :
  split_by first_listed (compile_delimiters_regex [py "a"; py "ab"]) false
    (py "xaby")
    (Re.split_trace (compile_delimiters_regex [py "a"; py "ab"]) (py "xaby")) ∧
  (∀ segs, split_by first_listed (compile_delimiters_regex [py "a"; py "ab"])
             false (py "xaby") segs →
           segs = Re.split_trace (compile_delimiters_regex [py "a"; py "ab"])
                    (py "xaby")) ∧
  split_parts (py "xaby") (Some [py "a"; py "ab"]) false
  = (Re.split_trace (compile_delimiters_regex [py "a"; py "ab"]) (py "xaby")).*1.
Proof.
  exact (delimiters_first_listed_wins (py "a") [py "ab"] (py "xaby")).
Defined.

(** C3, as stated, fails: with the delimiters [a] and [ab], in that order,
    the text [xaby] is cut at [a], although the longer [ab] matches at the
    same position; the tokens are [x] and [by], not [x] and [y]. *)
Lemma delimiters_not_longest :
  ¬ split_by longest_listed (compile_delimiters_regex [py "a"; py "ab"])
      false (py "xaby")
      (Re.split_trace (compile_delimiters_regex [py "a"; py "ab"]) (py "xaby"))
  ∧ tokenize_input (py "xaby") (Some [py "a"; py "ab"]) false true false
    = [py "x"; py "by"].
Proof.
  split; [|reflexivity]. intros H.
  change (Re.split_trace _ _)
    with [([120%N], Some [97%N]); ([98; 121]%N, @None str)] in H.
  change (py "xaby") with [120; 97; 98; 121]%N in H.
  inversion H as [|adv pre d rest segs Hleft Hchoice Hrest Hadv Htext Hpre].
  subst pre d. injection Htext as ->.
  destruct Hchoice as (_ & _ & Hlong).
  specialize (Hlong [97; 98]%N). simpl in Hlong.
  assert (2 ≤ 1); [|lia]. apply Hlong.
  - right. left.
  - split; [reflexivity|]. intros [_ ?]. discriminate.
Qed.

(** * Splitting again what was split *)

Lemma split_loop_nonempty (fuel : nat) (alts : Re.pattern) (adv : bool)
  (t : str) : split_loop fuel alts adv t ≠ [].
Proof.
  destruct fuel as [|fuel]; simpl; [discriminate|].
  destruct (search alts adv t) as [[[pre d] rest]|]; discriminate.
Qed.

Lemma join_cons (sep x : str) (rest : list str) :
  rest ≠ [] → join sep (x :: rest) = x ++ sep ++ join sep rest.
Proof. destruct rest; [contradiction | reflexivity]. Qed.

(** With a single delimiter, joining the pieces with it gives the text
    back. *)
Lemma join_split_loop (d : str) (fuel : nat) :
  ∀ (adv : bool) (t : str), join d (split_loop fuel [d] adv t).*1 = t.
Proof.
  induction fuel as [|fuel IH]; intros adv t; simpl; [reflexivity|].
  destruct (search [d] adv t) as [[[pre d'] rest]|] eqn:Hsearch;
    [|reflexivity].
  apply search_Some in Hsearch as (-> & _ & Hfirst).
  assert (d' = d) as ->.
  { destruct Hfirst as (l1 & l2 & Halts & _).
    assert (Hin : d' ∈ [d]) by (rewrite Halts; apply elem_of_app; right; left).
    now apply list_elem_of_singleton in Hin. }
  rewrite fmap_cons. cbn [fst]. rewrite join_cons.
  - now rewrite IH.
  - intros Hnil. apply fmap_nil_inv in Hnil.
    now apply split_loop_nonempty in Hnil.
Qed.

Lemma match_at_single_char (alts : Re.pattern) (adv : bool) (t : str) :
  Forall (fun d => length d = 1) alts →
  match_at alts adv t
  = match t with
    | [] => None
    | c :: _ => if delim_char alts c then Some [c] else None
    end.
Proof.
  unfold delim_char. induction 1 as [|d ds Hd Hds IH].
  - destruct t as [|c t]; [reflexivity|]. cbn [match_at].
    case_bool_decide as Hc; [inversion Hc | reflexivity].
  - destruct d as [|a [|b d]]; try discriminate.
    destruct t as [|c t]; simpl; [exact IH|].
    rewrite andb_false_r. simpl. rewrite !andb_true_r. destruct (N.eqb_spec a c) as [->|Hac].
    + rewrite bool_decide_eq_true_2; [reflexivity | left].
    + rewrite IH. repeat case_bool_decide; try reflexivity.
      * exfalso. eauto using list_elem_of_further.
      * exfalso. match goal with
                 | H : _ ∈ _ :: _ |- _ =>
                     apply elem_of_cons in H as [[= ->]|H]; contradiction
                 end.
Qed.

Section SingleCharacterDelimiters.

Variable alts : Re.pattern.
Hypothesis alts_single : Forall (fun d => length d = 1) alts.

Local Abbreviation clean := (Forall (fun c => delim_char alts c = false)).

Lemma match_at_single (adv : bool) (t : str) :
  match_at alts adv t
  = match t with
    | [] => None
    | c :: _ => if delim_char alts c then Some [c] else None
    end.
Proof. now apply match_at_single_char. Qed.

Lemma search_clean (adv : bool) (t : str) :
  clean t → search alts adv t = None.
Proof.
  intros Hclean. revert adv.
  induction Hclean as [|c t Hc Ht IH]; intros adv; simpl;
    rewrite match_at_single; [reflexivity|].
  now rewrite Hc, IH.
Qed.

Lemma search_first_delim (adv : bool) (pre : str) (c : char) (rest : str) :
  clean pre → delim_char alts c = true →
  search alts adv (pre ++ c :: rest) = Some (pre, [c], rest).
Proof.
  intros Hclean Hc. revert adv.
  induction Hclean as [|x pre Hx Hpre IH]; intros adv; simpl;
    rewrite match_at_single.
  - rewrite Hc. simpl. now rewrite drop_0.
  - now rewrite Hx, IH.
Qed.

Lemma search_single (t : str) :
  ∀ (adv : bool),
    match search alts adv t with
    | None => clean t
    | Some (pre, d, rest) => clean pre ∧ length rest < length t
    end.
Proof.
  induction t as [|c t IH]; intros adv; simpl; rewrite match_at_single.
  - apply Forall_nil_2.
  - destruct (delim_char alts c) eqn:Hc.
    + split; [apply Forall_nil_2 | simpl; rewrite drop_0; lia].
    + specialize (IH false).
      destruct (search alts false t) as [[[pre d] rest]|].
      * destruct IH as [Hpre Hlen].
        split; [now apply Forall_cons_2 | simpl; lia].
      * now apply Forall_cons_2.
Qed.

(** The pieces contain no delimiter. *)
Lemma split_loop_clean (fuel : nat) :
  ∀ (adv : bool) (t : str),
    length t < fuel → Forall clean (split_loop fuel alts adv t).*1.
Proof.
  induction fuel as [|fuel IH]; intros adv t Hfuel; [lia|]. simpl.
  pose proof (search_single t adv) as Hsearch.
  destruct (search alts adv t) as [[[pre d] rest]|]; csimpl.
  - destruct Hsearch as [Hpre Hlen]. constructor; [assumption|].
    apply IH. lia.
  - now repeat constructor.
Qed.

(** Pieces without delimiters, joined by a delimiter, split into
    themselves. *)
Lemma split_loop_join (c : char) (toks : list str) :
  delim_char alts c = true → toks ≠ [] → Forall clean toks →
  ∀ (fuel : nat) (adv : bool),
    length toks ≤ S fuel →
    (split_loop fuel alts adv (join [c] toks)).*1 = toks.
Proof.
  intros Hc Hne Hclean.
  induction Hclean as [|x toks Hx Htoks IH]; [contradiction|].
  intros fuel adv Hfuel. destruct toks as [|y toks].
  - simpl. destruct fuel; simpl; [reflexivity|].
    now rewrite search_clean.
  - rewrite join_cons by discriminate.
    destruct fuel as [|fuel]; [simpl in Hfuel; lia|].
    cbn [split_loop app]. rewrite search_first_delim by assumption.
    csimpl. f_equal. apply IH; [discriminate|]. simpl in *. lia.
Qed.

End SingleCharacterDelimiters.

Lemma join_length (c : char) (parts : list str) :
  length parts ≤ S (length (join [c] parts)).
Proof.
  induction parts as [|x [|y parts] IH]; simpl in *; try lia.
  rewrite length_app. simpl. lia.
Qed.

(** [strip] keeps a part of the string and does nothing the second time. *)
Lemma lstrip_Forall (P : char → Prop) (s : str) :
  Forall P s → Forall P (lstrip s).
Proof.
  induction 1 as [|c s Hc Hs IH]; simpl; [constructor|].
  destruct (is_space c); [assumption | now constructor].
Qed.

Lemma strip_Forall (P : char → Prop) (s : str) :
  Forall P s → Forall P (strip s).
Proof.
  intros H. unfold strip, rstrip.
  apply Forall_rev, lstrip_Forall, Forall_rev, lstrip_Forall, H.
Qed.

Lemma lstrip_idempotent (s : str) : lstrip (lstrip s) = lstrip s.
Proof.
  induction s as [|c s IH]; simpl; [reflexivity|].
  destruct (is_space c) eqn:Hc; [assumption|]. simpl. now rewrite Hc.
Qed.

Lemma lstrip_snoc (s : str) (c : char) :
  is_space c = false → ∃ s', lstrip (s ++ [c]) = s' ++ [c].
Proof.
  intros Hc. induction s as [|x s IH]; simpl.
  - rewrite Hc. now exists [].
  - destruct (is_space x); [assumption|]. now exists (x :: s).
Qed.

Lemma strip_idempotent (s : str) : strip (strip s) = strip s.
Proof.
  unfold strip. set (x := lstrip s).
  assert (Hx : lstrip (rstrip x) = rstrip x).
  { assert (Hhead : x = [] ∨ ∃ c x', x = c :: x' ∧ is_space c = false).
    { subst x. induction s as [|c s IH]; simpl; [now left|].
      destruct (is_space c) eqn:Hc; [assumption | right; eauto]. }
    destruct Hhead as [->|(c & x' & -> & Hc)]; [reflexivity|].
    unfold rstrip. simpl.
    destruct (lstrip_snoc (rev x') c Hc) as [s' ->].
    rewrite rev_app_distr. simpl. now rewrite Hc. }
  rewrite Hx. unfold rstrip. rewrite rev_involutive.
  now rewrite lstrip_idempotent.
Qed.

Lemma post_process_idempotent (strip_ws : bool) (part : str) :
  post_process strip_ws (post_process strip_ws part)
  = post_process strip_ws part.
Proof. destruct strip_ws; [apply strip_idempotent | reflexivity]. Qed.

(** C8 (amended).  With [keep_empty] true: when every delimiter is a single
    character, or when there is one delimiter and stripping is off,
    tokenizing, joining the tokens with a delimiter of the set and
    tokenizing again gives the same tokens. *)
Theorem resplit_after_join (delimiters : list str) (d text : str)
  (strip_ws : bool) :
  d ∈ delimiters →
  Forall (fun x => length x = 1) delimiters ∨
  (delimiters = [d] ∧ strip_ws = false) →
  tokenize_input
    (join d (tokenize_input text (Some delimiters) false true strip_ws))
    (Some delimiters) false true strip_ws
  = tokenize_input text (Some delimiters) false true strip_ws.
Proof.
  intros Hd Hcase. unfold tokenize_input. rewrite !collect_tokens_keep_empty.
  fold (post_process strip_ws).
  destruct delimiters as [|d0 ds]; [inversion Hd|].
  unfold split_parts, compile_delimiters_regex.
  set (alts := d0 :: ds) in *.
  destruct Hcase as [Hsingle|[Halts ->]].
  - assert (Hc : ∃ c, d = [c] ∧ delim_char alts c = true).
    { rewrite Forall_forall in Hsingle. specialize (Hsingle d Hd).
      destruct d as [|c [|b d]]; try discriminate.
      exists c. split; [reflexivity|]. now apply bool_decide_eq_true_2. }
    destruct Hc as (c & -> & Hc).
    set (toks := post_process strip_ws <$> Re.split alts text).
    assert (Hclean : Forall (Forall (fun c => delim_char alts c = false)) toks).
    { subst toks. apply Forall_fmap.
      eapply Forall_impl;
        [apply (split_loop_clean alts Hsingle); lia|].
      intros part Hpart. simpl. destruct strip_ws; simpl; [|assumption].
      now apply strip_Forall. }
    assert (Hne : toks ≠ []).
    { subst toks. intros Hnil. apply fmap_nil_inv in Hnil.
      unfold Re.split in Hnil. apply fmap_nil_inv in Hnil.
      now apply split_loop_nonempty in Hnil. }
    unfold Re.split at 1, Re.split_trace.
    rewrite (split_loop_join alts Hsingle c toks Hc Hne Hclean).
    + subst toks. rewrite <- list_fmap_compose.
      apply list_fmap_ext. intros i part _. simpl.
      apply post_process_idempotent.
    + pose proof (join_length c toks). lia.
  - injection Halts as -> ->. unfold post_process.
    rewrite !list_fmap_id. unfold Re.split at 2, Re.split_trace.
    now rewrite join_split_loop.
Qed.

Lemma resplit_after_join_witness :
  let delimiters := [py ","; py ";"] in
  (py "," ∈ delimiters ∧
   (Forall (fun x => length x = 1) delimiters ∨
    (delimiters = [py ","] ∧ true = false))) ∧
  tokenize_input
    (join (py ",")
       (tokenize_input (py "a; b;;c") (Some delimiters) false true true))
    (Some delimiters) false true true
  = tokenize_input (py "a; b;;c") (Some delimiters) false true true.
Proof.
  intros delimiters.
  assert (Hd : py "," ∈ delimiters) by left.
  assert (Hcase : Forall (fun x => length x = 1) delimiters ∨
                  (delimiters = [py ","] ∧ true = false))
    by (left; repeat constructor).
  split; [split; assumption|].
  exact (resplit_after_join delimiters (py ",") (py "a; b;;c") true Hd Hcase).
Defined.

(** C8, as stated, fails when a delimiter of several characters can arise
    across the boundary of a token and the delimiter used for joining:
    with the delimiters [ab], [b] and [c] the text [ac] gives the tokens
    [a] and the empty string; joined with [b] they make [ab], which is one
    delimiter and splits into two empty tokens. *)
Lemma rejoined_delimiter_spans_tokens :
  let delimiters := [py "ab"; py "b"; py "c"] in
  let tokens := tokenize_input (py "ac") (Some delimiters) false true false in
  py "b" ∈ delimiters ∧
  tokens = [py "a"; []] ∧
  join (py "b") tokens = py "ab" ∧
  tokenize_input (join (py "b") tokens) (Some delimiters) false true false
  = [[]; []] ∧
  tokenize_input (join (py "b") tokens) (Some delimiters) false true false
  ≠ tokens.
Proof.
  repeat split; try reflexivity.
  - right. left.
  - vm_compute. discriminate.
Qed.

(** With stripping, one delimiter of several characters is enough. *)
Example stripped_token_meets_delimiter :
  let tokens := tokenize_input (py "a aa") (Some [py "aa"]) false true true in
  tokens = [py "a"; []] ∧
  tokenize_input (join (py "aa") tokens) (Some [py "aa"]) false true true
  = [[]; py "a"].
Proof. split; reflexivity. Qed.

(** * The environment overlay *)

Lemma contains_char (c : char) (t : str) :
  contains [c] t = true ↔ c ∈ t.
Proof.
  induction t as [|x t IH]; simpl.
  - split; [discriminate | inversion 1].
  - rewrite orb_true_iff, IH, andb_true_r, N.eqb_eq, elem_of_cons.
    split; intros [H|H]; auto.
Qed.

Lemma split_once_app (k v : str) :
  EQUALS ∉ k → split_once EQUALS (k ++ EQUALS :: v) = (k, v).
Proof.
  induction k as [|c k IH]; intros Hk; simpl; [reflexivity|].
  destruct (N.eqb_spec c EQUALS) as [->|Hc].
  - destruct Hk. left.
  - rewrite IH; [reflexivity|]. intros H. apply Hk. now right.
Qed.

Lemma split_once_spec (item : str) :
  EQUALS ∈ item →
  item = env_key item ++ EQUALS :: env_value item ∧ EQUALS ∉ env_key item.
Proof.
  unfold env_key, env_value. induction item as [|c item IH]; [inversion 1|].
  intros Hin. simpl. destruct (N.eqb_spec c EQUALS) as [->|Hc]; simpl.
  - split; [reflexivity | inversion 1].
  - apply elem_of_cons in Hin as [Hin|Hin]; [congruence|].
    destruct (IH Hin) as [Heq Hk].
    destruct (split_once EQUALS item) as [k v]; simpl in *.
    split; [now rewrite <- Heq|].
    intros H. apply elem_of_cons in H as [H|H]; [congruence | contradiction].
Qed.

(** The test [apply_environment] makes on an item accepts exactly the items
    of the form [KEY=VALUE]. *)
Lemma env_item_test (item : str) :
  negb (contains [EQUALS] item) || startswith [EQUALS] item = false
  ↔ has_key_value item.
Proof.
  rewrite orb_false_iff, negb_false_iff, contains_char. split.
  - intros [Hin Hstart]. apply split_once_spec in Hin as [Heq Hk].
    exists (env_key item), (env_value item). split; [assumption|].
    split; [|assumption]. intros Hnil. rewrite Hnil in Heq.
    rewrite Heq in Hstart. simpl in Hstart. discriminate.
  - intros (k & v & -> & Hne & Hk). split.
    + apply elem_of_app. right. left.
    + destruct k as [|c k]; [contradiction|].
      change (N.eqb EQUALS c && true = false).
      rewrite andb_true_r. apply N.eqb_neq. intros <-. apply Hk. left.
Qed.

Lemma env_extra_result (env_kv : list str) :
  ∀ extra : gmap str str,
    match env_extra extra env_kv with
    | inr _ => Forall has_key_value env_kv
    | inl (InvalidEnvItem item) =>
        ∃ pre post, env_kv = pre ++ item :: post ∧
                    Forall has_key_value pre ∧ ¬ has_key_value item
    end.
Proof.
  induction env_kv as [|item rest IH]; intros extra; cbn [env_extra];
    [constructor|].
  destruct (negb (contains [EQUALS] item) || startswith [EQUALS] item)
    eqn:Htest.
  - cbv beta iota. exists [], rest. split; [reflexivity|].
    split; [constructor|]. rewrite <- env_item_test. congruence.
  - apply env_item_test in Htest.
    destruct (split_once EQUALS item) as [key val]. cbv beta iota.
    specialize (IH (<[key := val]> extra)).
    destruct (env_extra (<[key := val]> extra) rest) as [[bad]|m].
    + destruct IH as (pre & post & -> & Hpre & Hbad).
      exists (item :: pre), post. split; [reflexivity|].
      split; [now constructor | assumption].
    + now constructor.
Qed.

Lemma first_bad_item_unique (l1 l2 r1 r2 : list str) (x y : str) :
  l1 ++ x :: r1 = l2 ++ y :: r2 →
  Forall has_key_value l1 → ¬ has_key_value y →
  Forall has_key_value l2 → ¬ has_key_value x → x = y.
Proof.
  revert l2. induction l1 as [|a l1 IH]; intros [|b l2] Heq H1 Hy H2 Hx;
    simpl in Heq; injection Heq as -> Heq.
  - reflexivity.
  - apply Forall_cons in H2 as [H2 _]. contradiction.
  - apply Forall_cons in H1 as [H1 _]. contradiction.
  - apply Forall_cons in H1 as [_ H1]. apply Forall_cons in H2 as [_ H2].
    eapply IH; eassumption.
Qed.

Lemma apply_environment_raises (environ : gmap str str)
  (pre post : list str) (item : str) :
  Forall has_key_value pre → ¬ has_key_value item →
  apply_environment environ (pre ++ item :: post)
  = inl (InvalidEnvItem item).
Proof.
  intros Hpre Hbad. unfold apply_environment.
  pose proof (env_extra_result (pre ++ item :: post) ∅) as Hres.
  destruct (env_extra ∅ (pre ++ item :: post)) as [[bad]|extra].
  - destruct Hres as (pre' & post' & Heq & Hpre' & Hbad').
    f_equal. f_equal. symmetry. eapply first_bad_item_unique; eassumption.
  - apply Forall_app in Hres as [_ Hres].
    apply Forall_cons in Hres as [Hitem _]. contradiction.
Qed.

(** X1.  [apply_environment] succeeds exactly when every item has the form
    [KEY=VALUE] with a non-empty key; otherwise it raises for the first item
    that has not, whatever follows it. *)
Theorem apply_environment_accepts (environ : gmap str str)
  (env_kv : list str) :
  ((∃ m, apply_environment environ env_kv = inr m)
   ↔ Forall has_key_value env_kv) ∧
  (∀ item,
     apply_environment environ env_kv = inl (InvalidEnvItem item)
     ↔ ∃ pre post, env_kv = pre ++ item :: post ∧
                   Forall has_key_value pre ∧ ¬ has_key_value item).
Proof.
  split.
  - unfold apply_environment.
    pose proof (env_extra_result env_kv ∅) as Hres.
    destruct (env_extra ∅ env_kv) as [[bad]|extra].
    + destruct Hres as (pre & post & -> & Hpre & Hbad).
      split; [intros [m Hm]; discriminate|].
      intros Hall. apply Forall_app in Hall as [_ Hall].
      apply Forall_cons in Hall as [Hitem _]. contradiction.
    + split; [intros _; assumption | eauto].
  - intros item. split.
    + unfold apply_environment.
      pose proof (env_extra_result env_kv ∅) as Hres.
      destruct (env_extra ∅ env_kv) as [[bad]|extra]; [|discriminate].
      intros [= <-]. exact Hres.
    + intros (pre & post & -> & Hpre & Hbad).
      now apply apply_environment_raises.
Qed.

Lemma env_extra_lookup (k : str) (env_kv : list str) :
  ∀ extra e : gmap str str,
    env_extra extra env_kv = inr e →
    e !! k = match last (filter (fun item => env_key item = k) env_kv) with
             | Some item => Some (env_value item)
             | None => extra !! k
             end.
Proof.
  induction env_kv as [|item rest IH]; intros extra e; cbn [env_extra].
  - now intros [= <-].
  - destruct (negb (contains [EQUALS] item) || startswith [EQUALS] item);
      [discriminate|].
    assert (Hitem : split_once EQUALS item = (env_key item, env_value item))
      by (unfold env_key, env_value; now destruct (split_once EQUALS item)).
    rewrite Hitem. intros He. rewrite (IH _ _ He), filter_cons.
    destruct (decide (env_key item = k)) as [Hk|Hne].
    + rewrite last_cons.
      destruct (last (filter _ rest)); [reflexivity|].
      now rewrite Hk, lookup_insert_eq.
    + destruct (last (filter _ rest)); [reflexivity|].
      now rewrite lookup_insert_ne.
Qed.

(** X2.  In the environment [apply_environment] builds, a variable has the
    value of the last item given for it, and its value in [os.environ] when
    no item is given for it. *)
Theorem apply_environment_lookup (environ : gmap str str)
  (env_kv : list str) (m : gmap str str) (k : str) :
  apply_environment environ env_kv = inr m →
  m !! k = match last (filter (fun item => env_key item = k) env_kv) with
           | Some item => Some (env_value item)
           | None => environ !! k
           end.
Proof.
  unfold apply_environment.
  destruct (env_extra ∅ env_kv) as [bad|extra] eqn:Hextra; [discriminate|].
  intros [= <-]. pose proof (env_extra_lookup k env_kv ∅ extra Hextra) as Hk.
  rewrite lookup_empty in Hk. rewrite lookup_union, Hk.
  destruct (last (filter _ env_kv)); now destruct (environ !! k).
Qed.

Lemma apply_environment_lookup_witness :
  let environ : gmap str str := {[ py "HOME" := py "/root" ]} in
  let env_kv := [py "A=1"; py "B=x=y"; py "A=2"] in
  let m : gmap str str :=
    {[ py "A" := py "2"; py "B" := py "x=y"; py "HOME" := py "/root" ]} in
  apply_environment environ env_kv = inr m ∧
  m !! py "A" = match last (filter (fun item => env_key item = py "A") env_kv) with
                | Some item => Some (env_value item)
                | None => environ !! py "A"
                end.
Proof.
  intros environ env_kv m.
  assert (Hm : apply_environment environ env_kv = inr m)
    by (vm_compute; reflexivity).
  split; [exact Hm|].
  exact (apply_environment_lookup environ env_kv m (py "A") Hm).
Defined.

(** X3.  An item that contains ["="] is its key, ["="] and its value, the key
    being the text before the first ["="]; so [KEY=VALUE] splits into [KEY]
    and [VALUE] whenever [KEY] has no ["="], also when [VALUE] has. *)
Theorem env_item_split (item k v : str) :
  (EQUALS ∈ item →
   item = env_key item ++ EQUALS :: env_value item ∧ EQUALS ∉ env_key item) ∧
  (EQUALS ∉ k →
   env_key (k ++ EQUALS :: v) = k ∧ env_value (k ++ EQUALS :: v) = v).
Proof.
  split; [apply split_once_spec|].
  intros Hk. unfold env_key, env_value. now rewrite split_once_app.
Qed.

Lemma env_item_split_witness :
  (EQUALS ∈ py "B=x=y" →
   py "B=x=y" = env_key (py "B=x=y") ++ EQUALS :: env_value (py "B=x=y") ∧
   EQUALS ∉ env_key (py "B=x=y")) ∧
  (EQUALS ∉ py "B" →
   env_key (py "B" ++ EQUALS :: py "x=y") = py "B" ∧
   env_value (py "B" ++ EQUALS :: py "x=y") = py "x=y").
Proof. exact (env_item_split (py "B=x=y") (py "B") (py "x=y")). Defined.
(** * Further properties of [main] *)

Section MainPaths.

Context {World : Type}.
Variable subprocess_run :
  World -> str -> option str -> bool -> option (gmap str str)
  -> option Z * World.
Variable decode : str -> str -> list N -> option str.
Variable encodable : str -> bool.
Variable environ : gmap str str.

Local Abbreviation state := (@state World).
Local Abbreviation main := (main subprocess_run decode encodable environ).
Local Abbreviation parse_args := (@parse_args World environ).

(** X4.  When the placeholder is present and some [--env] item is not of the
    form [KEY=VALUE], [main] ends with [SystemExit(EXIT_BAD_ENV)] and names
    the first such item, whatever the other options are; standard input is
    not read and nothing is built or run. *)
Theorem malformed_env_rejected (args : Namespace) (sched : list event)
  (st : state) (pre post : list str) (item : str) :
  contains (args_placeholder args) (args_command args) = true →
  args_env args = pre ++ item :: post →
  Forall has_key_value pre → ¬ has_key_value item →
  main args sched st
  = Some (SystemExit EXIT_BAD_ENV,
          eprint (MsgBadEnv (InvalidEnvItem item)) st).
Proof.
  intros Hph Henv Hpre Hbad. unfold Each.main, Each.parse_args.
  rewrite Hph, Henv. simpl.
  now rewrite (apply_environment_raises environ pre post item Hpre Hbad).
Qed.

(** X5.  A dry run, in sequential or parallel configuration, builds the
    commands of the tokens in order and writes each to standard output
    followed by a newline (a command that contains a line break takes
    several lines of the output), up to the first command that standard
    output cannot encode: there [print] raises and so does [main], the
    command having been built and nothing of it written.  When every command
    can be encoded [main] returns 0 having printed them all.  No child is
    spawned, nothing is written to standard error and the world is
    untouched. *)
Theorem dry_run_prints_commands (args : Namespace) (sched : list event)
  (st : state) (text : str) :
  (parse_args args st).1 = inr args →
  decode (args_encoding args) (args_errors args) (stdin_data st) = Some text →
  args_dry_run args = true →
  let tokens := tokenize_input text (args_delimiter args) (args_null args)
                  (args_keep_empty args) (args_strip args) in
  let cmds := command_for args <$> tokens in
  ∃ (n : nat) (out : outcome) (st' : state),
    main args sched st = Some (out, st') ∧
    n ≤ length tokens ∧
    Forall (fun cmd => encodable cmd = true) (take n cmds) ∧
    stdout st' = stdout st ++ printed (take n cmds) ∧
    spawned st' = spawned st ∧ reported st' = reported st ∧
    stderr st' = stderr st ∧ world st' = world st ∧
    ((out = Return EXIT_OK ∧ n = length tokens ∧
      built st' = built st ++ cmds) ∨
     (out = Raised ∧
      ∃ cmd, cmds !! n = Some cmd ∧ encodable cmd = false ∧
             built st' = built st ++ take (S n) cmds)) ∧
    (Forall (fun cmd => encodable cmd = true) cmds →
     out = Return EXIT_OK ∧ stdout st' = stdout st ++ printed cmds).
Proof.
  intros Hok Hdec Hdry tokens cmds.
  destruct (main_valid subprocess_run decode encodable environ args st text
              Hok Hdec) as [env Hmain].
  specialize (Hmain sched). cbv zeta in Hmain. fold tokens in Hmain.
  rewrite Hdry in Hmain.
  set (st2 := (decode_stdin decode _ _ st).2) in Hmain.
  destruct (is_empty tokens) eqn:Hempty.
  - subst cmds. destruct tokens; [|discriminate].
    exists 0, (Return EXIT_OK), st2. simpl. rewrite !app_nil_r. auto 15.
  - destruct (dry_run_loop_spec encodable (args_command args)
                (args_placeholder args) (negb (args_no_quote args)) tokens
                st2) as (n & Hn & Hall & Ho & (Hs & Hr & He & Hw & _) & Hfin).
    cbv zeta in Hall, Ho, Hs, Hr, He, Hw, Hfin.
    fold (command_for args) in Hall, Ho, Hfin. fold cmds in Hall, Ho, Hfin.
    destruct (dry_run_loop encodable _ _ _ tokens st2) as [out st'].
    cbn [fst snd] in *.
    exists n, out, st'. rewrite Ho, Hs, Hr, He, Hw.
    do 8 (split; [first [assumption | reflexivity]|]).
    split; [exact Hfin|].
    intros Hcmds.
    destruct Hfin as [(-> & -> & _)|(_ & cmd & Hcmd & Henc & _)].
    + split; [reflexivity|]. subst cmds.
      now rewrite take_ge by (rewrite length_fmap; lia).
    + rewrite Forall_forall in Hcmds.
      rewrite Hcmds in Henc; [discriminate|].
      apply list_elem_of_lookup. eauto.
Qed.

(** X6.  When the tokenizer yields no token, [main] returns 0 at once: apart
    from having read standard input the state is unchanged, in every mode. *)
Theorem no_tokens_no_work (args : Namespace) (sched : list event)
  (st : state) (text : str) :
  (parse_args args st).1 = inr args →
  decode (args_encoding args) (args_errors args) (stdin_data st) = Some text →
  tokenize_input text (args_delimiter args) (args_null args)
    (args_keep_empty args) (args_strip args) = [] →
  main args sched st
  = Some (Return EXIT_OK,
          {| world := world st; stdin_data := []; stdin_read := true;
             stdout := stdout st; stderr := stderr st; built := built st;
             spawned := spawned st; reported := reported st |}).
Proof.
  intros Hok Hdec Htok.
  destruct (main_valid subprocess_run decode encodable environ args st text
              Hok Hdec) as [env Hmain].
  specialize (Hmain sched). cbv zeta in Hmain. now rewrite Htok in Hmain.
Qed.

(** What [main] leaves on standard error and in the history of spawned
    commands once the validation has passed. *)
Lemma main_traces (args : Namespace) (sched : list event) (st st' : state)
  (out : outcome) :
  main args sched st = Some (out, st') →
  (parse_args args st).1 = inr args →
  ∃ ran traced : list str,
    spawned st' = spawned st ++ ran ∧
    stderr st' = stderr st ++ trace_messages (args_trace args) traced ∧
    traced ≡ₚ ran ∧
    ((args_max_procs args ≤ 1)%Z ∨ args_dry_run args = true → traced = ran) ∧
    stdin_read st' = true ∧ stdin_data st' = [] ∧
    (args_dry_run args = false → stdout st' = stdout st).
Proof.
  intros Hmain Hok.
  apply main_cases in Hmain as [(code & msg & _ & _ & Hrej)|[_ Hmain]];
    [congruence|].
  cbv zeta in Hmain.
  set (st2 := (decode_stdin decode _ _ st).2) in Hmain.
  assert (Hnil : ∀ s : state,
            spawned s = spawned st → stderr s = stderr st →
            stdin_read s = true → stdin_data s = [] →
            (args_dry_run args = false → stdout s = stdout st) →
            ∃ ran traced : list str,
              spawned s = spawned st ++ ran ∧
              stderr s = stderr st ++ trace_messages (args_trace args) traced ∧
              traced ≡ₚ ran ∧
              ((args_max_procs args ≤ 1)%Z ∨ args_dry_run args = true
               → traced = ran) ∧
              stdin_read s = true ∧ stdin_data s = [] ∧
              (args_dry_run args = false → stdout s = stdout st)).
  { intros s Hs He Hi Hd Ho. exists [], []. rewrite Hs, He.
    unfold trace_messages. destruct (args_trace args); simpl;
      rewrite !app_nil_r; auto 10. }
  destruct Hmain as [(_ & -> & _)|(text & env & _ & Hmain)];
    [now apply Hnil|].
  cbv zeta in Hmain. set (tokens := tokenize_input _ _ _ _ _) in Hmain.
  destruct Hmain as [(_ & _ & ->)|[(_ & Hdry & Hloop)|[(_ & _ & Hmax & Hseq)|
                     (_ & Hnodry & Hpmax & Hpar)]]].
  - now apply Hnil.
  - destruct (dry_run_loop_spec encodable (args_command args)
                (args_placeholder args) (negb (args_no_quote args)) tokens
                st2) as (n & _ & _ & _ & (Hs & _ & He & _ & Hi & Hd) & _).
    cbv zeta in Hs, He, Hi, Hd. rewrite <- Hloop in Hs, He, Hi, Hd.
    cbn [fst snd] in *. apply Hnil; auto. congruence.
  - destruct (sequential_loop_spec subprocess_run args env tokens st2)
      as (n & codes & Hspec). cbv zeta in Hspec. rewrite <- Hseq in Hspec.
    cbn [fst snd] in Hspec.
    destruct Hspec as (_ & _ & Hs & He & _ & Hi & Hd & Ho & _).
    exists (command_for args <$> take n tokens),
           (command_for args <$> take n tokens).
    rewrite Hs, He, Hi, Hd, Ho. auto 10.
  - destruct (parallel_path_spec args tokens sched st2 st' out Hpar)
      as (ran & tr & before & after & order & early & codes & _ & Hs & Hperm
          & He & Htperm & (Hi & Hd & Ho) & _).
    exists ran, tr. rewrite Hs, He, Hi, Hd, Ho.
    repeat (split; [first [reflexivity | now rewrite Htperm, Hperm]|]).
    split; [|auto]. intros [Hle|Hdry]; [lia | congruence].
Qed.

(** X7.  Once the validation has passed, whatever way [main] ends: with
    tracing on it has written to standard error one trace message per
    command handed to [subprocess.run] and nothing else (the traced commands
    are a permutation of the spawned ones), and with tracing off nothing.
    In sequential mode and in a dry run the messages are in the order of the
    spawned commands; in parallel mode the workers write their messages and
    start their children without synchronisation, and the two orders may
    differ. *)
Theorem traces_match_spawns (args : Namespace) (sched : list event)
  (st st' : state) (out : outcome) :
  main args sched st = Some (out, st') →
  (parse_args args st).1 = inr args →
  ∃ ran traced : list str,
    spawned st' = spawned st ++ ran ∧
    stderr st' = stderr st ++ trace_messages (args_trace args) traced ∧
    traced ≡ₚ ran ∧
    ((args_max_procs args ≤ 1)%Z ∨ args_dry_run args = true → traced = ran).
Proof.
  intros Hmain Hok.
  destruct (main_traces args sched st st' out Hmain Hok)
    as (ran & traced & Hs & He & Hperm & Hseq & _).
  exists ran, traced. auto.
Qed.

(** X8.  [main] spawns a child only when the validation has passed, standard
    input has been decoded, the run is not a dry run and there is a token. *)
Theorem spawn_requires_token (args : Namespace) (sched : list event)
  (st st' : state) (out : outcome) :
  main args sched st = Some (out, st') →
  spawned st' ≠ spawned st →
  (parse_args args st).1 = inr args ∧ args_dry_run args = false ∧
  ∃ text,
    decode (args_encoding args) (args_errors args) (stdin_data st) = Some text ∧
    tokenize_input text (args_delimiter args) (args_null args)
      (args_keep_empty args) (args_strip args) ≠ [].
Proof.
  intros Hmain Hspawn.
  apply main_cases in Hmain as [(code & msg & _ & -> & _)|[Hok Hmain]];
    [now destruct Hspawn|].
  cbv zeta in Hmain. split; [assumption|].
  destruct Hmain as [(_ & -> & _)|(text & env & Hdec & Hmain)];
    [now destruct Hspawn|].
  cbv zeta in Hmain.
  set (tokens := tokenize_input _ _ _ _ _) in *.
  set (st2 := (decode_stdin decode _ _ st).2) in Hmain.
  destruct Hmain as [(_ & _ & ->)|[(_ & _ & Hloop)|[(Htok & Hdry & _)|
                     (Htok & Hdry & _)]]]; eauto.
  - now destruct Hspawn.
  - destruct Hspawn.
    destruct (dry_run_loop_spec encodable (args_command args)
                (args_placeholder args) (negb (args_no_quote args)) tokens
                st2) as (n & _ & _ & _ & (Hs & _) & _).
    cbv zeta in Hs. rewrite <- Hloop in Hs. exact Hs.
Qed.

(** X9.  Unless [parse_args] rejects the run, in which case standard input
    is untouched, [main] reads standard input to the end, whether or not
    anything is run afterwards; and [main] itself writes to standard output
    in a dry run only. *)
Theorem stdin_read_unless_rejected (args : Namespace) (sched : list event)
  (st st' : state) (out : outcome) :
  main args sched st = Some (out, st') →
  match out with
  | SystemExit code =>
      stdin_read st' = stdin_read st ∧ stdin_data st' = stdin_data st ∧
      stdout st' = stdout st
  | _ =>
      stdin_read st' = true ∧ stdin_data st' = [] ∧
      (args_dry_run args = false → stdout st' = stdout st)
  end.
Proof.
  intros Hmain.
  assert (Hrun : (∀ code, out ≠ SystemExit code) →
            stdin_read st' = true ∧ stdin_data st' = [] ∧
            (args_dry_run args = false → stdout st' = stdout st)).
  { intros Hout.
    destruct (main_cases subprocess_run decode encodable environ args sched
                st st' out Hmain) as [(code & msg & -> & _)|[Hok _]];
      [now destruct (Hout code)|].
    destruct (main_traces args sched st st' out Hmain Hok)
      as (ran & traced & _ & _ & _ & _ & Hi & Hd & Ho). auto. }
  destruct out as [rc|code|]; [apply Hrun; discriminate | |
                               apply Hrun; discriminate].
  apply main_system_exit in Hmain as (_ & msg & ->). simpl. auto.
Qed.

(** X10.  [main] lets an exception other than [SystemExit] out only after
    the validation has passed and standard input has been read, and for one
    of three reasons: standard input cannot be decoded, and then nothing has
    been built, run or printed; or, in a dry run, standard output cannot
    encode the command of some token; or a call of [subprocess.run] raised,
    after its command was built and handed over.  After the validation the
    second call of [apply_environment] is not among the reasons. *)
Theorem raised_by_decode_print_or_launch (args : Namespace)
  (sched : list event) (st st' : state) :
  main args sched st = Some (Raised, st') →
  (parse_args args st).1 = inr args ∧ stdin_read st' = true ∧
  ((decode (args_encoding args) (args_errors args) (stdin_data st) = None ∧
    built st' = built st ∧ spawned st' = spawned st ∧
    stdout st' = stdout st ∧ stderr st' = stderr st) ∨
   ∃ text,
     decode (args_encoding args) (args_errors args) (stdin_data st)
     = Some text ∧
     let tokens := tokenize_input text (args_delimiter args) (args_null args)
                     (args_keep_empty args) (args_strip args) in
     (args_dry_run args = true ∧ spawned st' = spawned st ∧
      ∃ tok, tok ∈ tokens ∧ encodable (command_for args tok) = false) ∨
     (args_dry_run args = false ∧ (args_max_procs args ≤ 1)%Z ∧
      ∃ tok w env ran,
        tok ∈ tokens ∧
        (subprocess_run w (command_for args tok) (args_shell args)
           (negb (args_no_stdin args)) env).1 = None ∧
        built st' = built st ++ ran ++ [command_for args tok] ∧
        spawned st' = spawned st ++ ran ++ [command_for args tok]) ∨
     (args_dry_run args = false ∧ (1 < args_max_procs args)%Z ∧
      None ∈ completion_results sched ∧
      built st' = built st ++ (command_for args <$> tokens) ∧
      ∃ ran, spawned st' = spawned st ++ ran ∧
             ran ≡ₚ command_for args <$> tokens)).
Proof.
  intros Hmain.
  destruct (main_cases subprocess_run decode encodable environ args sched st
              st' Raised Hmain) as [(code & msg & [=] & _)|[Hok Hcases]].
  destruct (main_traces args sched st st' Raised Hmain Hok)
    as (_ & _ & _ & _ & _ & _ & Hi & _).
  split; [assumption|]. split; [assumption|].
  cbv zeta in Hcases.
  destruct Hcases as [(_ & -> & Hdec)|(text & env & Hdec & Hcases)];
    [left; simpl; auto 10|].
  right. exists text. split; [assumption|].
  cbv zeta in Hcases |- *.
  set (tokens := tokenize_input _ _ _ _ _) in *.
  set (st2 := (decode_stdin decode _ _ st).2) in Hcases.
  destruct Hcases as [(_ & [=] & _)|[(_ & Hdry & Hloop)|
                      [(_ & Hdry & Hmax & Hseq)|(_ & Hdry & Hmax & Hpar)]]].
  - left. split; [assumption|].
    destruct (dry_run_loop_spec encodable (args_command args)
                (args_placeholder args) (negb (args_no_quote args)) tokens
                st2) as (n & _ & _ & _ & (Hs & _) & Hfin).
    cbv zeta in Hs, Hfin. rewrite <- Hloop in Hs, Hfin. cbn [fst snd] in *.
    split; [exact Hs|].
    destruct Hfin as [([=] & _)|(_ & cmd & Hcmd & Henc & _)].
    fold (command_for args) in Hcmd.
    apply list_lookup_fmap_Some in Hcmd as (tok & -> & Htok).
    exists tok. split; [|assumption].
    apply list_elem_of_lookup. eauto.
  - right; left. split; [assumption|]. split; [assumption|].
    destruct (sequential_loop_spec subprocess_run args env tokens st2)
      as (n & codes & Hspec). cbv zeta in Hspec. rewrite <- Hseq in Hspec.
    cbn [fst snd] in Hspec.
    destruct Hspec as (_ & Hb & Hs & _ & _ & _ & _ & _ & Hfin).
    destruct Hfin as [([=] & _)|[(rc' & zeros & [=] & _)|
                      (_ & Hn & _ & tok & w & Htok & Hraise)]].
    exists tok, w, env, (command_for args <$> take (length codes) tokens).
    split; [apply list_elem_of_lookup; eauto|]. split; [assumption|].
    rewrite Hb, Hs, <- Hn, (take_S_r _ _ _ Htok), fmap_app. auto.
  - right; right. split; [assumption|]. split; [assumption|].
    destruct (parallel_path_spec args tokens sched st2 st' Raised Hpar)
      as (ran & tr & before & after & order & early & codes & Hb & Hs & Hperm
          & _ & _ & _ & Hsched & _ & Hearly & Hout & _).
    split.
    + destruct (existsb is_raised (early ++ completion_results after))
        eqn:Hraised.
      * apply existsb_raised_elem in Hraised.
        rewrite Hsched, completion_results_app, <- Hearly. exact Hraised.
      * rewrite (no_raise_codes _ Hraised), collect_return_code_codes in Hout.
        discriminate.
    + split; [exact Hb|]. exists ran. auto.
Qed.


End MainPaths.

(** * The validation as a whole *)

Lemma apply_environment_succeeds (environ : gmap str str)
  (env_kv : list str) :
  (∃ m, apply_environment environ env_kv = inr m)
  ↔ Forall has_key_value env_kv.
Proof.
  unfold apply_environment.
  pose proof (env_extra_result env_kv ∅) as Hres.
  destruct (env_extra ∅ env_kv) as [[bad]|extra].
  - destruct Hres as (pre & post & -> & Hpre & Hbad).
    split; [intros [m Hm]; discriminate|].
    intros Hall. apply Forall_app in Hall as [_ Hall].
    apply Forall_cons in Hall as [Hitem _]. contradiction.
  - split; [intros _; assumption | eauto].
Qed.

(** X24.  [parse_args] lets a run through exactly when the placeholder
    occurs in the command, every [--env] item has the form [KEY=VALUE] with
    a non-empty key, and parallel execution is asked for only together with
    [--no-stdin]; otherwise [main] ends with [SystemExit] and one of the
    codes 65, 66, 67. *)
Theorem validation_passes_iff {World : Type}
  (subprocess_run :
     World -> str -> option str -> bool -> option (gmap str str)
     -> option Z * World)
  (decode : str -> str -> list N -> option str) (encodable : str -> bool)
  (environ : gmap str str)
  (args : Namespace) (sched : list event) (st : @state World) :
  let accepted :=
    contains (args_placeholder args) (args_command args) = true ∧
    Forall has_key_value (args_env args) ∧
    ((args_max_procs args ≤ 1)%Z ∨ args_no_stdin args = true) in
  ((parse_args environ args st).1 = inr args ↔ accepted) ∧
  (¬ accepted ↔
   ∃ code msg,
     main subprocess_run decode encodable environ args sched st
     = Some (SystemExit code, eprint msg st) ∧
     (code = EXIT_NO_PLACEHOLDER ∨ code = EXIT_BAD_ENV ∨
      code = EXIT_NEEDS_NO_STDIN_FOR_PAR)).
Proof.
  intros accepted.
  assert (Hiff : (parse_args environ args st).1 = inr args ↔ accepted).
  { subst accepted. unfold parse_args.
    rewrite <- apply_environment_succeeds with (environ := environ).
    destruct (contains _ _); simpl;
      [|split; [discriminate | intros [[=] _]]].
    destruct (apply_environment environ (args_env args)) as [e|m]; simpl;
      [split; [discriminate | intros (_ & [m [=]] & _)]|].
    destruct (Z.ltb_spec 1 (args_max_procs args)) as [Hlt|Hle];
      destruct (args_no_stdin args); simpl.
    - split; [intros _; repeat split; eauto | reflexivity].
    - split; [discriminate|].
      intros (_ & _ & [Hc|Hc]); [lia | discriminate].
    - split; [|reflexivity].
      intros _. split; [reflexivity|]. split; [eauto | left; lia].
    - split; [|reflexivity].
      intros _. split; [reflexivity|]. split; [eauto | left; lia]. }
  split; [exact Hiff|]. rewrite <- Hiff. split.
  - intros Hrej.
    destruct (parse_args environ args st) as [[code|args'] st1] eqn:Hparse.
    + destruct (parse_args_rejects environ args st code) as (msg & Hmsg & Hcode);
        [now rewrite Hparse|].
      exists code, msg. unfold main. now rewrite Hmsg.
    + destruct Hrej.
      destruct (parse_args_ok environ args args' st) as (Hst & _);
        [now rewrite Hparse|].
      rewrite Hparse in Hst. now injection Hst as -> _.
  - intros (code & msg & Hmain & _) Hok.
    apply main_system_exit in Hmain as (Hrej & _). congruence.
Qed.

(** ** Instances *)

Lemma malformed_env_rejected_witness :
  let args := with_flags (echo_args "{}" 4 false) false false
                [py "A=1"; py "=x"; py "B"] in
  let st := initial_state abc_lines in
  (contains (args_placeholder args) (args_command args) = true ∧
   args_env args = [py "A=1"] ++ py "=x" :: [py "B"] ∧
   Forall has_key_value [py "A=1"] ∧ ¬ has_key_value (py "=x")) ∧
  main second_fails latin1 utf8_strict ∅ args [] st
  = Some (SystemExit EXIT_BAD_ENV,
          eprint (MsgBadEnv (InvalidEnvItem (py "=x"))) st).
Proof.
  intros args st.
  assert (Hpre : Forall has_key_value [py "A=1"]).
  { constructor; [|constructor]. apply env_item_test. reflexivity. }
  assert (Hbad : ¬ has_key_value (py "=x")).
  { rewrite <- env_item_test. vm_compute. discriminate. }
  split; [repeat split; assumption|].
  exact (malformed_env_rejected second_fails latin1 utf8_strict ∅ args [] st
           [py "A=1"] [py "B"] (py "=x") eq_refl eq_refl Hpre Hbad).
Defined.

Lemma dry_run_prints_commands_witness :
  let args := with_flags (echo_args "{}" 3 true) true false [] in
  let st := initial_state abc_lines in
  let tokens := tokenize_input abc_lines None false false false in
  let cmds := command_for args <$> tokens in
  ((parse_args ∅ args st).1 = inr args ∧
   latin1 (args_encoding args) (args_errors args) (stdin_data st)
   = Some abc_lines ∧
   args_dry_run args = true) ∧
  ∃ (n : nat) (out : outcome) (st' : Each.state),
    main second_fails latin1 utf8_strict ∅ args [] st = Some (out, st') ∧
    n ≤ length tokens ∧
    Forall (fun cmd => utf8_strict cmd = true) (take n cmds) ∧
    stdout st' = stdout st ++ printed (take n cmds) ∧
    spawned st' = spawned st ∧ reported st' = reported st ∧
    stderr st' = stderr st ∧ world st' = world st ∧
    ((out = Return EXIT_OK ∧ n = length tokens ∧
      built st' = built st ++ cmds) ∨
     (out = Raised ∧
      ∃ cmd, cmds !! n = Some cmd ∧ utf8_strict cmd = false ∧
             built st' = built st ++ take (S n) cmds)) ∧
    (Forall (fun cmd => utf8_strict cmd = true) cmds →
     out = Return EXIT_OK ∧ stdout st' = stdout st ++ printed cmds).
Proof.
  intros args st tokens cmds. split; [repeat split; reflexivity|].
  apply (dry_run_prints_commands second_fails latin1 utf8_strict ∅ args [] st
           abc_lines);
    reflexivity.
Defined.

(** [each --dry-run -P 3 --no-stdin 'echo {}'] on three lines. *)
Example dry_run_abc :
  main second_fails latin1 utf8_strict ∅
    (with_flags (echo_args "{}" 3 true) true false [])
    [] (initial_state abc_lines)
  = Some (Return 0%Z, abc_dry_run_final).
Proof. vm_compute. reflexivity. Qed.

(** [each -0 --dry-run 'echo {}'] on ["a\nb\0c\0"]: the first token holds a
    line break, and its command takes two lines of the output. *)
Example dry_run_line_break :
  ∃ st',
    main second_fails latin1 utf8_strict ∅
      (with_null (with_flags (echo_args "{}" 1 false) true false []))
      [] (initial_state (py "a" ++ [LF] ++ py "b" ++ [NUL] ++ py "c" ++ [NUL]))
    = Some (Return 0%Z, st') ∧
    built st' = [py "echo 'a" ++ [LF] ++ py "b'"; py "echo c"] ∧
    stdout st' = py "echo 'a" ++ [LF] ++ py "b'" ++ [LF] ++ py "echo c" ++ [LF].
Proof. eexists. vm_compute. repeat split. Qed.

(** [each --errors surrogateescape --dry-run 'echo {}'] on the bytes
    [a\n\xff\nc\n]: the second token is a lone surrogate, which standard
    output in UTF-8 cannot encode; the first command is printed, the second
    is built, and [main] raises. *)
Example dry_run_lone_surrogate :
  ∃ st',
    main second_fails ascii_surrogateescape utf8_strict ∅
      (with_flags (echo_args "{}" 1 false) true false [])
      [] (initial_state (py "a" ++ [LF; 255%N; LF] ++ py "c" ++ [LF]))
    = Some (Raised, st') ∧
    built st' = [py "echo a"; py "echo '" ++ [56575%N] ++ py "'"] ∧
    stdout st' = py "echo a" ++ [LF].
Proof. eexists. vm_compute. repeat split. Qed.

Lemma no_tokens_no_work_witness :
  let args := echo_args "{}" 1 false in
  let st := initial_state [LF; LF] in
  ((parse_args ∅ args st).1 = inr args ∧
   latin1 (args_encoding args) (args_errors args) (stdin_data st)
   = Some [LF; LF] ∧
   tokenize_input [LF; LF] (args_delimiter args) (args_null args)
     (args_keep_empty args) (args_strip args) = []) ∧
  main second_fails latin1 utf8_strict ∅ args [] st
  = Some (Return EXIT_OK,
          {| world := world st; stdin_data := []; stdin_read := true;
             stdout := stdout st; stderr := stderr st; built := built st;
             spawned := spawned st; reported := reported st |}).
Proof.
  intros args st. split; [repeat split; reflexivity|].
  apply (no_tokens_no_work second_fails latin1 utf8_strict ∅ args [] st
           [LF; LF]);
    reflexivity.
Defined.

(** [each -t -P 3 --no-stdin 'echo {}'] on three lines, the workers tracing
    in the order a, b, c and spawning in the order c, a, b. *)
Example parallel_abc_traced :
  main second_fails latin1 utf8_strict ∅
    (with_flags (echo_args "{}" 3 true) false true [])
    abc_traced_schedule (initial_state abc_lines)
  = Some (Return 0%Z, abc_traced_parallel_final).
Proof. vm_compute. reflexivity. Qed.

Lemma traces_match_spawns_witness :
  let args := with_flags (echo_args "{}" 3 true) false true [] in
  let st := initial_state abc_lines in
  (main second_fails latin1 utf8_strict ∅ args abc_traced_schedule st
   = Some (Return 0%Z, abc_traced_parallel_final) ∧
   (parse_args ∅ args st).1 = inr args) ∧
  ∃ ran traced : list str,
    spawned abc_traced_parallel_final = spawned st ++ ran ∧
    stderr abc_traced_parallel_final
    = stderr st ++ trace_messages (args_trace args) traced ∧
    traced ≡ₚ ran ∧
    ((args_max_procs args ≤ 1)%Z ∨ args_dry_run args = true → traced = ran).
Proof.
  intros args st. split; [split; reflexivity|].
  apply (traces_match_spawns second_fails latin1 utf8_strict ∅ args
           abc_traced_schedule st abc_traced_parallel_final (Return 0%Z));
    reflexivity.
Defined.

Lemma spawn_requires_token_witness :
  let args := echo_args "{}" 1 false in
  let st := initial_state abc_lines in
  (main second_fails latin1 utf8_strict ∅ args [] st
   = Some (Return 2%Z, abc_sequential_final) ∧
   spawned abc_sequential_final ≠ spawned st) ∧
  (parse_args ∅ args st).1 = inr args ∧ args_dry_run args = false ∧
  ∃ text,
    latin1 (args_encoding args) (args_errors args) (stdin_data st) = Some text ∧
    tokenize_input text (args_delimiter args) (args_null args)
      (args_keep_empty args) (args_strip args) ≠ [].
Proof.
  intros args st.
  assert (Hspawn : spawned abc_sequential_final ≠ spawned st)
    by (simpl; discriminate).
  split; [split; [reflexivity | exact Hspawn]|].
  exact (spawn_requires_token second_fails latin1 utf8_strict ∅ args [] st
           abc_sequential_final (Return 2%Z) eq_refl Hspawn).
Defined.

Lemma stdin_read_unless_rejected_witness :
  let args := echo_args "{}" 1 false in
  let st := initial_state abc_lines in
  main second_fails latin1 utf8_strict ∅ args [] st
  = Some (Return 2%Z, abc_sequential_final) ∧
  stdin_read abc_sequential_final = true ∧
  stdin_data abc_sequential_final = [] ∧
  (args_dry_run args = false → stdout abc_sequential_final = stdout st).
Proof.
  intros args st. split; [reflexivity|].
  exact (stdin_read_unless_rejected second_fails latin1 utf8_strict ∅ args []
           st abc_sequential_final (Return 2%Z) eq_refl).
Defined.

(** [each --shell /bin/nosuch 'echo {}'] where there is no such shell: the
    first command is built and handed to [subprocess.run], which raises. *)
Example no_shell_abc :
  main no_such_shell latin1 utf8_strict ∅
    (with_shell (echo_args "{}" 1 false) "/bin/nosuch") []
    (initial_state abc_lines)
  = Some (Raised, abc_no_shell_final).
Proof. vm_compute. reflexivity. Qed.

Lemma raised_by_decode_print_or_launch_witness :
  let args := with_shell (echo_args "{}" 1 false) "/bin/nosuch" in
  let st := initial_state abc_lines in
  let st' := abc_no_shell_final in
  main no_such_shell latin1 utf8_strict ∅ args [] st = Some (Raised, st') ∧
  (parse_args ∅ args st).1 = inr args ∧ stdin_read st' = true ∧
  ((latin1 (args_encoding args) (args_errors args) (stdin_data st) = None ∧
    built st' = built st ∧ spawned st' = spawned st ∧
    stdout st' = stdout st ∧ stderr st' = stderr st) ∨
   ∃ text,
     latin1 (args_encoding args) (args_errors args) (stdin_data st)
     = Some text ∧
     let tokens := tokenize_input text (args_delimiter args) (args_null args)
                     (args_keep_empty args) (args_strip args) in
     (args_dry_run args = true ∧ spawned st' = spawned st ∧
      ∃ tok, tok ∈ tokens ∧ utf8_strict (command_for args tok) = false) ∨
     (args_dry_run args = false ∧ (args_max_procs args ≤ 1)%Z ∧
      ∃ tok w env ran,
        tok ∈ tokens ∧
        (no_such_shell w (command_for args tok) (args_shell args)
           (negb (args_no_stdin args)) env).1 = None ∧
        built st' = built st ++ ran ++ [command_for args tok] ∧
        spawned st' = spawned st ++ ran ++ [command_for args tok]) ∨
     (args_dry_run args = false ∧ (1 < args_max_procs args)%Z ∧
      None ∈ completion_results (@nil (@event nat)) ∧
      built st' = built st ++ (command_for args <$> tokens) ∧
      ∃ ran, spawned st' = spawned st ++ ran ∧
             ran ≡ₚ command_for args <$> tokens)).
Proof.
  intros args st st'. split; [reflexivity|].
  exact (raised_by_decode_print_or_launch no_such_shell latin1 utf8_strict ∅
           args [] st st' eq_refl).
Defined.


(** * Further properties of the tokenizer *)

Lemma collect_tokens_elem (keep_empty strip_ws : bool) (parts : list str)
  (token : str) :
  token ∈ collect_tokens keep_empty strip_ws parts →
  ∃ part, part ∈ parts ∧ token = post_process strip_ws part.
Proof.
  induction parts as [|part rest IH]; simpl; [inversion 1|].
  fold (post_process strip_ws part).
  destruct (is_empty (post_process strip_ws part) && negb keep_empty).
  - intros H. destruct (IH H) as (p & Hp & ->). exists p. split; [now right|reflexivity].
  - intros H. apply elem_of_cons in H as [->|H].
    + exists part. split; [now left | reflexivity].
    + destruct (IH H) as (p & Hp & ->). exists p. split; [now right|reflexivity].
Qed.

(** X11.  Dropping the empty tokens is all that [keep_empty = false]
    changes. *)
Theorem keep_empty_only_filters (text : str) (delimiters : option (list str))
  (use_null strip_ws : bool) :
  tokenize_input text delimiters use_null false strip_ws
  = filter (fun token => token ≠ [])
      (tokenize_input text delimiters use_null true strip_ws).
Proof.
  unfold tokenize_input.
  induction (split_parts text delimiters use_null) as [|part rest IH];
    cbn [collect_tokens]; [reflexivity|].
  rewrite andb_true_r, andb_false_r, filter_cons, IH.
  destruct (if strip_ws then strip part else part); cbn [is_empty].
  - now rewrite decide_False by auto.
  - now rewrite decide_True by discriminate.
Qed.

(** ** NUL mode *)

Lemma split_char_go_nonempty (sep : char) (cur t : str) :
  split_char_go sep cur t ≠ [].
Proof.
  revert cur. induction t as [|c t IH]; intros cur; simpl; [discriminate|].
  destruct (N.eqb c sep); [discriminate | apply IH].
Qed.

Lemma split_char_go_join (sep : char) (t : str) :
  ∀ cur, join [sep] (split_char_go sep cur t) = cur ++ t.
Proof.
  induction t as [|c t IH]; intros cur; simpl.
  - now rewrite app_nil_r.
  - destruct (N.eqb_spec c sep) as [->|Hc].
    + rewrite join_cons by apply split_char_go_nonempty. now rewrite IH.
    + rewrite IH. now rewrite <- app_assoc.
Qed.

Lemma split_char_go_clean (sep : char) (t : str) :
  ∀ cur, sep ∉ cur → Forall (fun part => sep ∉ part) (split_char_go sep cur t).
Proof.
  induction t as [|c t IH]; intros cur Hcur; simpl.
  - now repeat constructor.
  - destruct (N.eqb_spec c sep) as [->|Hc].
    + constructor; [assumption|]. apply IH. inversion 1.
    + apply IH. intros H. apply elem_of_app in H as [H|H]; [contradiction|].
      apply list_elem_of_singleton in H. congruence.
Qed.

(** X12.  In NUL mode the text is cut at every NUL and nowhere else, whatever
    delimiters are configured: the pieces joined by NUL are the text, and no
    piece contains a NUL. *)
Theorem null_mode_cuts_at_nul (text : str) (delimiters : option (list str)) :
  join [NUL] (split_parts text delimiters true) = text ∧
  Forall (fun part => NUL ∉ part) (split_parts text delimiters true).
Proof.
  unfold split_parts, split_char. split.
  - apply split_char_go_join.
  - apply split_char_go_clean. inversion 1.
Qed.




(** ** Lines *)

Local Abbreviation unbroken := (Forall (fun c => is_linebreak c = false)).





Lemma splitlines_go_unbroken (n : nat) (t : str) :
  length t ≤ n →
  ∀ (fresh : bool) (cur : str),
    unbroken cur → Forall unbroken (splitlines_go fresh cur t).
Proof.
  revert t. induction n as [|n IH]; intros t Hlen fresh cur Hcur.
  - destruct t; [|simpl in Hlen; lia]. simpl.
    destruct fresh; now repeat constructor.
  - destruct t as [|c t]; simpl.
    + destruct fresh; now repeat constructor.
    + simpl in Hlen. destruct (is_linebreak c) eqn:Hc.
      * constructor; [assumption|].
        destruct t as [|c' t]; [apply IH; [simpl; lia | constructor]|].
        simpl in Hlen.
        destruct (_ && _); apply IH; simpl; try lia; constructor.
      * apply IH; [lia|]. apply Forall_app. split; [assumption|].
        now repeat constructor.
Qed.

Lemma lstrip_suffix (s : str) :
  ∃ a, s = a ++ lstrip s ∧ Forall (fun c => is_space c = true) a.
Proof.
  induction s as [|c s (a & Ha & Hspace)]; simpl.
  - now exists [].
  - destruct (is_space c) eqn:Hc.
    + exists (c :: a). split; [now rewrite Ha at 1 | now constructor].
    + now exists [].
Qed.

(** [strip] removes whitespace at the two ends and nothing else. *)
Lemma strip_decompose (s : str) :
  ∃ a b, s = a ++ strip s ++ b ∧
         Forall (fun c => is_space c = true) a ∧
         Forall (fun c => is_space c = true) b.
Proof.
  unfold strip, rstrip.
  destruct (lstrip_suffix s) as (a & Ha & Hspace).
  destruct (lstrip_suffix (rev (lstrip s))) as (b & Hb & Hspace').
  exists a, (rev b). split; [|split; [assumption | now apply Forall_rev]].
  rewrite Ha at 1. f_equal.
  rewrite <- (rev_involutive (lstrip s)) at 1. rewrite Hb at 1.
  now rewrite rev_app_distr.
Qed.

Lemma post_process_Forall (P : char → Prop) (strip_ws : bool) (part : str) :
  Forall P part → Forall P (post_process strip_ws part).
Proof. destruct strip_ws; [apply strip_Forall | auto]. Qed.

(** X15.  In line mode no token contains a line-break character, whatever
    the other options are. *)
Theorem line_tokens_unbroken (text : str) (keep_empty strip_ws : bool) :
  Forall unbroken (tokenize_input text None false keep_empty strip_ws).
Proof.
  apply Forall_forall. intros token Htoken.
  apply collect_tokens_elem in Htoken as (part & Hpart & ->).
  apply post_process_Forall.
  pose proof (splitlines_go_unbroken (length text) text (Nat.le_refl _)
                true [] (Forall_nil_2 _)) as Hall.
  rewrite Forall_forall in Hall. now apply Hall.
Qed.

(** ** Configured delimiters *)

Lemma split_by_weave (choice : Re.pattern → bool → str → str → Prop)
  (alts : Re.pattern) (adv : bool) (t : str)
  (segs : list (str * option str)) :
  (∀ a b x d, choice a b x d → d ∈ a) →
  split_by choice alts adv t segs →
  length segs.*1 = S (length (omap snd segs)) ∧
  Forall (fun sep => sep ∈ alts) (omap snd segs) ∧
  weave segs.*1 (omap snd segs) = t.
Proof.
  intros Hchoice.
  induction 1 as [adv t Hnone|adv pre d rest segs Hleft Hd Hrest IH].
  - csimpl. auto.
  - destruct IH as (Hlen & Hall & Hweave). csimpl.
    split; [now rewrite Hlen|]. split; [constructor; eauto|].
    now rewrite Hweave.
Qed.

Lemma first_listed_elem (alts : Re.pattern) (adv : bool) (t d : str) :
  first_listed alts adv t d → d ∈ alts.
Proof.
  intros (l1 & l2 & -> & _). apply elem_of_app. right. left.
Qed.

(** X16.  Splitting on configured delimiters loses nothing.  There is one
    consumed delimiter between every two consecutive pieces and none after
    the last piece (the pieces are one more than the delimiters); every
    consumed delimiter is one of the configured ones; and the pieces with
    the consumed delimiters put back between them, in order, are the
    text. *)
Theorem delimiter_split_rebuilds_text (d : str) (ds : list str)
  (text : str) :
  let pieces := split_parts text (Some (d :: ds)) false in
  let seps :=
    omap snd (Re.split_trace (compile_delimiters_regex (d :: ds)) text) in
  length pieces = S (length seps) ∧
  Forall (fun sep => sep ∈ d :: ds) seps ∧
  weave pieces seps = text.
Proof.
  intros pieces seps.
  apply (split_by_weave first_listed (d :: ds) false).
  - intros a b x y. apply first_listed_elem.
  - apply split_loop_by. unfold iterations_needed. lia.
Qed.

Lemma split_by_pieces_clean
  (choice : Re.pattern → bool → str → str → Prop)
  (alts : Re.pattern) (adv : bool) (t : str)
  (segs : list (str * option str)) (d : str) :
  d ∈ alts → d ≠ [] →
  split_by choice alts adv t segs →
  Forall (fun piece => contains d piece = false) segs.*1.
Proof.
  intros Hd Hne.
  assert (Hadm : ∀ b a x, admissible d b (drop (length a) (a ++ d ++ x))).
  { intros b a x. rewrite drop_app_length. split; [apply startswith_app|].
    now intros [_ ?]. }
  induction 1 as [adv t Hnone|adv pre d0 rest segs Hleft _ _ IH]; csimpl.
  - constructor; [|constructor].
    destruct (contains d t) eqn:Hc; [|reflexivity].
    apply contains_spec in Hc as (a & x & ->).
    destruct (Hnone (length a) d); [rewrite length_app; lia | assumption|].
    apply Hadm.
  - constructor; [|assumption].
    destruct (contains d pre) eqn:Hc; [|reflexivity].
    apply contains_spec in Hc as (a & x & ->).
    destruct (Hleft (length a) d); [|assumption|].
    + rewrite !length_app. destruct d; [contradiction | simpl; lia].
    + rewrite <- !app_assoc. apply Hadm.
Qed.

Lemma contains_infix (d a s b : str) :
  contains d s = true → contains d (a ++ s ++ b) = true.
Proof.
  rewrite !contains_spec. intros (x & y & ->).
  exists (a ++ x), (y ++ b). now rewrite <- !app_assoc.
Qed.

(** X17.  With configured delimiters, no token contains a non-empty
    delimiter, whatever the other options are. *)
Theorem delimiter_tokens_clean (text d : str) (delimiters : list str)
  (keep_empty strip_ws : bool) :
  d ∈ delimiters → d ≠ [] →
  Forall (fun token => contains d token = false)
    (tokenize_input text (Some delimiters) false keep_empty strip_ws).
Proof.
  intros Hd Hne. apply Forall_forall. intros token Htoken.
  apply collect_tokens_elem in Htoken as (part & Hpart & ->).
  assert (Hclean : contains d part = false).
  { destruct delimiters as [|d0 ds]; [inversion Hd|].
    unfold split_parts, Re.split in Hpart.
    assert (Hall : Forall (fun piece => contains d piece = false)
                     (Re.split_trace (compile_delimiters_regex (d0 :: ds))
                        text).*1).
    { apply (split_by_pieces_clean first_listed (d0 :: ds) false text);
        [assumption | assumption|].
      apply split_loop_by. unfold iterations_needed. lia. }
    rewrite Forall_forall in Hall. now apply Hall. }
  destruct strip_ws; [|assumption]. simpl.
  destruct (contains d (strip part)) eqn:Hstrip; [|reflexivity].
  destruct (strip_decompose part) as (a & b & Heq & _).
  rewrite Heq in Hclean. now rewrite contains_infix in Hclean.
Qed.

Lemma delimiter_tokens_clean_witness :
  (py "; " ∈ [py ","; py "; "] ∧ py "; " ≠ []) ∧
  Forall (fun token => contains (py "; ") token = false)
    (tokenize_input (py "a; b,c ;; d") (Some [py ","; py "; "]) false true
       true).
Proof.
  assert (Hd : py "; " ∈ [py ","; py "; "]) by (right; left).
  assert (Hne : py "; " ≠ []) by discriminate.
  split; [split; assumption|].
  exact (delimiter_tokens_clean (py "a; b,c ;; d") (py "; ")
           [py ","; py "; "] true true Hd Hne).
Defined.

(** ** Stripping *)

Lemma lstrip_head (s : str) : starts_with_space (lstrip s) = false.
Proof.
  induction s as [|c s IH]; simpl; [reflexivity|].
  destruct (is_space c) eqn:Hc; [assumption | simpl; assumption].
Qed.

Lemma strip_head (s : str) : starts_with_space (strip s) = false.
Proof.
  unfold strip, rstrip.
  pose proof (lstrip_head s) as Hhead.
  destruct (lstrip s) as [|c x]; [reflexivity|]. simpl in Hhead.
  simpl rev. destruct (lstrip_snoc (rev x) c Hhead) as [s' ->].
  rewrite rev_app_distr. simpl. assumption.
Qed.

Lemma strip_last (s : str) : ends_with_space (strip s) = false.
Proof.
  unfold ends_with_space, strip, rstrip. rewrite rev_involutive.
  apply lstrip_head.
Qed.

(** X18.  With stripping on, every token is a piece of the raw split without
    the whitespace at its two ends: the piece is whitespace, then the token,
    then whitespace, and the token neither starts nor ends with whitespace.
    Whitespace inside a token is kept. *)
Theorem stripped_tokens (text : str) (delimiters : option (list str))
  (use_null keep_empty : bool) (token : str) :
  token ∈ tokenize_input text delimiters use_null keep_empty true →
  starts_with_space token = false ∧ ends_with_space token = false ∧
  ∃ part a b,
    part ∈ split_parts text delimiters use_null ∧
    part = a ++ token ++ b ∧
    Forall (fun c => is_space c = true) a ∧
    Forall (fun c => is_space c = true) b.
Proof.
  intros Htoken.
  apply collect_tokens_elem in Htoken as (part & Hpart & ->). simpl.
  split; [apply strip_head|]. split; [apply strip_last|].
  destruct (strip_decompose part) as (a & b & Heq & Ha & Hb).
  exists part, a, b. auto.
Qed.

Lemma stripped_tokens_witness :
  py "b c" ∈ tokenize_input (py "a ;  b c ;") (Some [py ";"]) false false true ∧
  starts_with_space (py "b c") = false ∧ ends_with_space (py "b c") = false ∧
  ∃ part a b,
    part ∈ split_parts (py "a ;  b c ;") (Some [py ";"]) false ∧
    part = a ++ py "b c" ++ b ∧
    Forall (fun c => is_space c = true) a ∧
    Forall (fun c => is_space c = true) b.
Proof.
  assert (H : py "b c" ∈ tokenize_input (py "a ;  b c ;") (Some [py ";"])
                           false false true) by (right; left).
  split; [exact H|].
  exact (stripped_tokens (py "a ;  b c ;") (Some [py ";"]) false false
           (py "b c") H).
Defined.

(** ** Empty input *)

Lemma match_at_nil (alts : Re.pattern) (adv : bool) :
  match_at alts adv []
  = if negb adv && bool_decide ([] ∈ alts) then Some [] else None.
Proof.
  induction alts as [|d alts IH]; cbn [match_at].
  - case_bool_decide as H; [inversion H | now rewrite andb_false_r].
  - rewrite IH. destruct d as [|c d]; cbn [startswith is_empty].
    + rewrite andb_true_r. cbn [andb].
      rewrite (bool_decide_eq_true_2 ([] ∈ [] :: alts)) by left.
      now destruct adv.
    + cbn [andb]. repeat case_bool_decide; try reflexivity.
      * exfalso. eauto using list_elem_of_further.
      * match goal with
        | H : _ ∈ _ :: _ |- _ =>
            apply elem_of_cons in H as [H|H]; [discriminate | contradiction]
        end.
Qed.

(** X19.  On the empty text the tokenizer yields no token, except with
    [keep_empty]: then NUL mode and delimiter mode yield one empty token
    (two when the empty string is itself a delimiter), and line mode still
    none. *)
Theorem tokenize_empty_text (delimiters : option (list str))
  (use_null keep_empty strip_ws : bool) :
  tokenize_input [] delimiters use_null keep_empty strip_ws
  = if keep_empty then
      if use_null then [[]]
      else match delimiters with
           | Some (d :: ds) =>
               if bool_decide ([] ∈ d :: ds) then [[]; []] else [[]]
           | _ => []
           end
    else [].
Proof.
  assert (Hpost : ∀ parts, Forall (eq []) parts →
            collect_tokens keep_empty strip_ws parts
            = if keep_empty then parts else []).
  { induction 1 as [|part parts <- _ IH]; simpl.
    - now destruct keep_empty.
    - rewrite IH. now destruct strip_ws, keep_empty. }
  unfold tokenize_input, split_parts. destruct use_null.
  { rewrite Hpost by (repeat constructor). reflexivity. }
  destruct delimiters as [[|d ds]|];
    [rewrite Hpost by constructor; now destruct keep_empty| |
     rewrite Hpost by constructor; now destruct keep_empty].
  unfold Re.split, Re.split_trace, compile_delimiters_regex.
  cbn [length Nat.mul Nat.add split_loop search].
  rewrite !match_at_nil. cbn [negb andb].
  destruct (decide ([] ∈ d :: ds)) as [Hin|Hin].
  - rewrite !bool_decide_eq_true_2 by assumption.
    cbn [is_empty length drop split_loop search].
    rewrite match_at_nil. cbn [negb andb].
    rewrite Hpost by (repeat constructor). reflexivity.
  - rewrite !bool_decide_eq_false_2 by assumption.
    rewrite Hpost by (repeat constructor). reflexivity.
Qed.

(** ** Delimiters none of which begins another *)

Lemma startswith_shorter (a b t : str) :
  startswith a t = true → startswith b t = true → length a ≤ length b →
  startswith a b = true.
Proof.
  revert b t. induction a as [|x a IH]; intros b t Ha Hb Hlen; [reflexivity|].
  destruct b as [|y b]; [simpl in Hlen; lia|].
  destruct t as [|z t]; [discriminate|]. simpl in *.
  apply andb_true_iff in Ha as [Hx Ha]. apply andb_true_iff in Hb as [Hy Hb].
  apply N.eqb_eq in Hx as ->. apply N.eqb_eq in Hy as ->.
  rewrite N.eqb_refl. simpl. apply (IH b t); [assumption | assumption | lia].
Qed.

Lemma first_listed_longest (alts : Re.pattern) (adv : bool) (t d : str) :
  prefix_free alts → first_listed alts adv t d → longest_listed alts adv t d.
Proof.
  intros Hfree Hfirst. pose proof (first_listed_elem _ _ _ _ Hfirst) as Hin.
  destruct Hfirst as (_ & _ & _ & Hadm & _).
  split; [assumption|]. split; [assumption|].
  intros d' Hin' [Hd' _]. destruct Hadm as [Hd _].
  destruct (Nat.le_gt_cases (length d') (length d)) as [|Hlt]; [assumption|].
  assert (d = d') as ->; [|lia].
  apply Hfree; [assumption | assumption|].
  apply (startswith_shorter d d' t); [assumption | assumption | lia].
Qed.

Lemma split_by_choice (c1 c2 : Re.pattern → bool → str → str → Prop)
  (alts : Re.pattern) (adv : bool) (t : str)
  (segs : list (str * option str)) :
  (∀ b x d, c1 alts b x d → c2 alts b x d) →
  split_by c1 alts adv t segs → split_by c2 alts adv t segs.
Proof.
  intros Himp. induction 1; [now apply split_by_last|].
  apply split_by_match; auto.
Qed.

(** X20.  When no delimiter is the beginning of another one, the delimiter
    consumed at each cut is also the longest that matches there: the split
    is then leftmost-longest, and the order of the delimiters is of no
    account. *)
Theorem prefix_free_delimiters_longest (d : str) (ds : list str)
  (text : str) :
  prefix_free (d :: ds) →
  split_by longest_listed (compile_delimiters_regex (d :: ds)) false text
    (Re.split_trace (compile_delimiters_regex (d :: ds)) text).
Proof.
  intros Hfree. apply (split_by_choice first_listed).
  - intros b x y. now apply first_listed_longest.
  - apply split_loop_by. unfold iterations_needed. lia.
Qed.

Lemma prefix_free_delimiters_longest_witness :
  prefix_free [py ","; py "; "] ∧
  split_by longest_listed (compile_delimiters_regex [py ","; py "; "]) false
    (py "a, b; c")
    (Re.split_trace (compile_delimiters_regex [py ","; py "; "])
       (py "a, b; c")).
Proof.
  assert (Hfree : prefix_free [py ","; py "; "]).
  { intros d1 d2 H1 H2.
    apply elem_of_cons in H1 as [->|H1];
      [|apply list_elem_of_singleton in H1 as ->];
      (apply elem_of_cons in H2 as [->|H2];
       [|apply list_elem_of_singleton in H2 as ->]);
      first [reflexivity | discriminate]. }
  split; [exact Hfree|].
  exact (prefix_free_delimiters_longest (py ",") [py "; "] (py "a, b; c")
           Hfree).
Defined.

(** * Further properties of the command builder *)

Lemma replace_single (x : char) (new t : str) :
  replace t [x] new = t ≫= (fun c => if N.eqb c x then new else [c]).
Proof.
  unfold replace. induction t as [|c t IH]; [reflexivity|].
  cbn [replace_go startswith length Nat.sub]. rewrite andb_true_r.
  rewrite N.eqb_sym. csimpl. destruct (N.eqb c x); now rewrite IH.
Qed.

Lemma escape_quote_injective (a b : str) :
  a ≫= escape_quote = b ≫= escape_quote → a = b.
Proof.
  revert b. induction a as [|x a IH]; intros [|y b]; csimpl.
  - reflexivity.
  - unfold escape_quote. destruct (N.eqb y SQUOTE); discriminate.
  - unfold escape_quote. destruct (N.eqb x SQUOTE); discriminate.
  - unfold escape_quote.
    destruct (N.eqb_spec x SQUOTE) as [->|Hx],
             (N.eqb_spec y SQUOTE) as [->|Hy]; simpl.
    + intros H. f_equal. apply IH. now injection H.
    + intros [= <-]. contradiction.
    + intros [= ->]. contradiction.
    + intros [= -> H]. f_equal. now apply IH.
Qed.

Lemma quote_unsafe (token : str) :
  token ≠ [] → forallb is_safe token = false →
  Shlex.quote token = SQUOTE :: (token ≫= escape_quote) ++ [SQUOTE].
Proof.
  intros Hne Hsafe. unfold Shlex.quote. destruct token; [contradiction|].
  cbn [is_empty]. rewrite Hsafe, replace_single. reflexivity.
Qed.

Lemma quote_injective (a b : str) :
  Shlex.quote a = Shlex.quote b → a = b.
Proof.
  assert (Hhead : ∀ t body, forallb is_safe t = true →
            t ≠ SQUOTE :: body).
  { intros t body Hsafe ->. discriminate. }
  assert (Hempty : ∀ t, t ≠ [] → forallb is_safe t = false →
            Shlex.quote t ≠ [SQUOTE; SQUOTE]).
  { intros t Hne Hsafe. rewrite quote_unsafe by assumption.
    destruct t as [|c t]; [contradiction|]. csimpl.
    unfold escape_quote at 1. destruct (N.eqb c SQUOTE); simpl.
    - destruct (t ≫= escape_quote); discriminate.
    - destruct (t ≫= escape_quote); discriminate. }
  destruct a as [|x a], b as [|y b]; [reflexivity| | |].
  - destruct (forallb is_safe (y :: b)) eqn:Hb.
    + unfold Shlex.quote. cbn [is_empty]. rewrite Hb.
      intros H. symmetry in H. now apply Hhead in H.
    + intros H. symmetry in H. now apply Hempty in H.
  - destruct (forallb is_safe (x :: a)) eqn:Ha.
    + unfold Shlex.quote. cbn [is_empty]. rewrite Ha.
      intros H. now apply Hhead in H.
    + intros H. now apply Hempty in H.
  - destruct (forallb is_safe (x :: a)) eqn:Ha,
             (forallb is_safe (y :: b)) eqn:Hb.
    + unfold Shlex.quote. cbn [is_empty]. now rewrite Ha, Hb.
    + rewrite (quote_unsafe (y :: b)) by (assumption || discriminate).
      unfold Shlex.quote. cbn [is_empty]. rewrite Ha.
      intros H. now apply Hhead in H.
    + rewrite (quote_unsafe (x :: a)) by (assumption || discriminate).
      unfold Shlex.quote at 1. cbn [is_empty]. rewrite Hb.
      intros H. symmetry in H. now apply Hhead in H.
    + rewrite !quote_unsafe by (assumption || discriminate).
      intros [= H]. apply app_inv_tail in H.
      now apply escape_quote_injective.
Qed.

(** Two replacements in the same text differ by the replacing strings only,
    as many times as there are occurrences. *)
Lemma replaced_all_pair (old x y t r1 r2 : str) :
  replaced_all old x t r1 → replaced_all old y t r2 →
  ∃ n, length r1 + n * length y = length r2 + n * length x ∧
       ((∃ a b, t = a ++ old ++ b) →
        1 ≤ n ∧ ∃ pre s1 s2, r1 = pre ++ x ++ s1 ∧ r2 = pre ++ y ++ s2).
Proof.
  intros H1. revert r2.
  induction H1 as [t Hold Hno|pre rest r Hold Hfirst Hrest IH|Hold|c t r Hold Ht IH];
    intros r2 H2.
  - inversion H2; subst; try congruence.
    exists 0. split; [lia|]. intros (a & b & ->). now destruct (Hno a b).
  - remember (pre ++ old ++ rest) as t eqn:Ht.
    destruct H2 as [t Hold2 Hno|pre' rest' r' Hold2 Hfirst' Hrest'|Hold2|c t' r' Hold2 Ht'];
      try congruence.
    assert (Hlen : length pre = length pre').
    { apply Nat.le_antisymm.
      - apply (Hfirst pre' rest'). now symmetry.
      - apply (Hfirst' pre rest). assumption. }
    apply app_inj_1 in Ht as [-> Ht]; [|now symmetry].
    apply app_inv_head in Ht as ->.
    destruct (IH r' Hrest') as (n & Hn & _).
    exists (S n). split; [rewrite !length_app; lia|].
    intros _. split; [lia | eauto].
  - inversion H2; subst; try congruence.
    exists 1. split; [lia|]. intros _. split; [lia|].
    exists [], [], []. now rewrite !app_nil_r.
  - inversion H2; subst; try congruence.
    match goal with H : replaced_all [] y t _ |- _ =>
      destruct (IH _ H) as (n & Hn & _) end.
    exists (S n). split; [rewrite !length_app; simpl; lia|].
    intros _. split; [lia|]. now exists [], (c :: r), (c :: r0).
Qed.

(** X21.  Without quoting the token is inserted as it is at every
    occurrence of the placeholder, shell metacharacters included, and the
    inserted text is not searched for the placeholder; the built command is
    the only string of that description. *)
Theorem build_command_verbatim (template placeholder token : str) :
  replaced_all placeholder token template
    (build_command template placeholder token false) ∧
  ∀ r, replaced_all placeholder token template r →
       r = build_command template placeholder token false.
Proof.
  unfold build_command. split; [apply replace_all|].
  intros r Hr. eapply replaced_all_functional; [eassumption|].
  apply replace_all.
Qed.

(** X22.  With quoting, a non-empty token of safe characters only
    ([A-Za-z0-9_@%+=:,./-]) is inserted unchanged, so the command is the one
    built without quoting; any other non-empty token is inserted between
    single quotes, each of its single quotes written ['"'"'] and every other
    character as it is. *)
Theorem quoted_argument_shape (template placeholder token : str) :
  token ≠ [] →
  if forallb is_safe token
  then build_command template placeholder token true
       = build_command template placeholder token false
  else build_command template placeholder token true
       = build_command template placeholder
           (SQUOTE :: (token ≫= escape_quote) ++ [SQUOTE]) false.
Proof.
  intros Hne. unfold build_command.
  destruct (forallb is_safe token) eqn:Hsafe.
  - unfold Shlex.quote. destruct token; [contradiction|].
    cbn [is_empty]. now rewrite Hsafe.
  - now rewrite quote_unsafe.
Qed.

Lemma quoted_argument_shape_witness :
  py "it's" ≠ [] ∧
  build_command (py "echo {}") (py "{}") (py "it's") true
  = build_command (py "echo {}") (py "{}")
      (SQUOTE :: (py "it's" ≫= escape_quote) ++ [SQUOTE]) false.
Proof.
  assert (Hne : py "it's" ≠ []) by discriminate.
  split; [exact Hne|].
  exact (quoted_argument_shape (py "echo {}") (py "{}") (py "it's") Hne).
Defined.

(** X23.  When the placeholder occurs in the template, different tokens give
    different commands, with and without quoting. *)
Theorem build_command_injective (template placeholder a b : str)
  (quote : bool) :
  contains placeholder template = true →
  build_command template placeholder a quote
  = build_command template placeholder b quote →
  a = b.
Proof.
  intros Hocc Heq. unfold build_command in Heq.
  set (x := if quote then Shlex.quote a else a) in Heq.
  set (y := if quote then Shlex.quote b else b) in Heq.
  assert (Hxy : x = y).
  { apply contains_spec in Hocc.
    destruct (replaced_all_pair placeholder x y template _ _
                (replace_all template placeholder x)
                (replace_all template placeholder y))
      as (n & Hn & Hocc').
    destruct (Hocc' Hocc) as (Hpos & pre & s1 & s2 & H1 & H2).
    rewrite Heq in Hn, H1. assert (Hlen : length x = length y) by nia.
    rewrite H1 in H2. apply app_inv_head in H2.
    now apply app_inj_1 in H2 as [H2 _]. }
  subst x y. destruct quote; [now apply quote_injective | assumption].
Qed.

Lemma build_command_injective_witness :
  contains (py "{}") (py "cp {} {}.bak") = true ∧
  build_command (py "cp {} {}.bak") (py "{}") (py "a b") true
  = build_command (py "cp {} {}.bak") (py "{}") (py "a b") true ∧
  py "a b" = py "a b".
Proof.
  split; [reflexivity|]. split; [reflexivity|].
  exact (build_command_injective (py "cp {} {}.bak") (py "{}") (py "a b")
           (py "a b") true eq_refl eq_refl).
Defined.
